(** * scranfilize: a CNF scrambler

    A shallow embedding of [scranfilize.c] (the command line, the choice
    of a decompressor, the parser of DIMACS files, the rank generator,
    the flip selector and the printer of the scrambled formula), followed
    by the properties of its specification and further properties of the
    program.

    Conventions of the embedding:
    - a C [int] is a [Z]; every [+], [-], [*] and unary [-] of the source
      on an [int] goes through [int_add], [int_sub], [int_mul], [int_neg],
      which wrap around at 32 bits;
    - a character read by [getc] is a [Z]: the code of the byte, or [EOF];
    - a C [double] is a binary64 number of the specification of IEEE 754
      arithmetic of the standard library ([spec_float], precision 53,
      exponent bound 1024), with round to nearest even;
    - the generator behind [srand48]/[drand48] is the 48-bit linear
      congruential generator fixed by POSIX, its state is passed
      explicitly;
    - a zero-terminated clause array is a list that ends with its
      sentinel [0], as [parse] allocates it;
    - a [long] and an [unsigned long] have 64 bits;
    - [malloc] and [realloc] succeed, files open; of what the program
      writes to standard error, the messages of [msg] are left out and
      the message of [die] or of [parse_error] is what an error holds. *)

From Stdlib Require Import ZArith List Bool Lia Ascii String Permutation.
From Stdlib Require Import Floats.SpecFloat DecimalString DecimalPos.
Import ListNotations.

Local Open Scope Z_scope.

(** ** Machine integers *)

Definition INT_MAX : Z := 2147483647.

Definition wrap (x : Z) : Z := (x + 2147483648) mod 4294967296 - 2147483648.

Definition int_add (a b : Z) : Z := wrap (a + b).
Definition int_sub (a b : Z) : Z := wrap (a - b).
Definition int_mul (a b : Z) : Z := wrap (a * b).
Definition int_neg (a : Z) : Z := wrap (- a).

(** [abs] of the C library on an [int]. *)
Definition abs (a : Z) : Z := if a <? 0 then int_neg a else a.

(** Reading [a[i]]: outside of the array there is nothing to read. *)
Definition array_get {A : Type} (a : list A) (i : Z) : option A :=
  if i <? 0 then None else nth_error a (Z.to_nat i).

(** ** Results *)

Inductive result (E A : Type) : Type :=
| Ok (a : A)
| Err (e : E).
Arguments Ok {E A} a.
Arguments Err {E A} e.

(** ** Characters *)

Definition EOF : Z := -1.

Definition chr (a : ascii) : Z := Z.of_N (N_of_ascii a).

Definition nl : ascii := "010"%char.

Definition space (ch : Z) : bool :=
  (ch =? chr " ") || (ch =? 9) || (ch =? 13) || (ch =? chr nl).

Definition isdigit (ch : Z) : bool := (chr "0" <=? ch) && (ch <=? chr "9").

Definition isprint (ch : Z) : bool := (32 <=? ch) && (ch <=? 126).

(** [next_char]: the next byte of the file or [EOF]; a new line read
    increments the line number. *)
Definition bump (ch lineno : Z) : Z :=
  if ch =? chr nl then int_add lineno 1 else lineno.

Definition next_char (file : list ascii) (lineno : Z) : Z * list ascii * Z :=
  match file with
  | [] => (EOF, [], lineno)
  | a :: file' => (chr a, file', bump (chr a) lineno)
  end.

(** ** Doubles *)

Definition double : Type := spec_float.

Definition prec : Z := 53.
Definition emax : Z := 1024.

Definition dmul : double -> double -> double := SFmul prec emax.
Definition dadd : double -> double -> double := SFadd prec emax.
Definition dlt : double -> double -> bool := SFltb.
Definition dle : double -> double -> bool := SFleb.
Definition dgt (x y : double) : bool := SFltb y x.
Definition dge (x y : double) : bool := SFleb y x.

(** Conversion of an [int] to [double] (exact). *)
Definition of_int (i : Z) : double := binary_normalize prec emax i 0 false.

Definition d0 : double := S754_zero false.
Definition d1 : double := of_int 1.

(** ** The generator of [drand48]

    [srand48 (seed)] sets the high 32 bits of the 48-bit state to the low
    32 bits of the seed and the low 16 bits to [0x330E]; [drand48 ()]
    advances the state by [X -> (0x5DEECE66D * X + 0xB) mod 2^48] and
    returns [X / 2^48]. *)

Definition rng : Type := Z.

Definition srand48 (seed : Z) : rng :=
  Z.lor (Z.shiftl (Z.land seed 4294967295) 16) 13070.

Definition lcg (x : rng) : rng := (25214903917 * x + 11) mod 281474976710656.

Definition drand48 (g : rng) : double * rng :=
  let x := lcg g in (binary_normalize prec emax x (-48) false, x).

(** ** Options *)

Record options : Type := {
  seed : Z;
  permute_variables : bool;
  permute_clauses : bool;
  reverse_variables : bool;
  reverse_clauses : bool;
  literal_flip_probability : double;
  variable_move_window : double;
  clause_move_window : double;
  absolute_windows : bool
}.

(** ** Rank generator *)

Record Map : Type := { src : Z; dst : double }.

Definition cmp_rank (r s : Map) : Z :=
  if dlt (dst r) (dst s) then -1
  else if dgt (dst r) (dst s) then 1
  else if src r <? src s then -1
  else if src r >? src s then 1
  else 0.

(** [qsort] of the C library, as insertion sort.  The properties below
    use that the sorted array is a permutation of the array
    ([qsort_perm]), which every sorting algorithm gives; where the order
    of the result matters (windows of width zero), the result is shown
    to be the only sorted permutation ([plain_ranks_any_sort]). *)
Section Qsort.
Context {A : Type} (cmp : A -> A -> Z).

Fixpoint insert (x : A) (l : list A) : list A :=
  match l with
  | [] => [x]
  | y :: l' => if cmp x y <=? 0 then x :: l else y :: insert x l'
  end.

Fixpoint qsort (l : list A) : list A :=
  match l with
  | [] => []
  | x :: l' => insert x (qsort l')
  end.
End Qsort.

(** The first loop of [rank]: [k] entries are left to fill, from index [i]. *)
Fixpoint rank_fill (o : options) (n : Z) (permute : bool) (width : double)
    (k : nat) (i : Z) (g : rng) : list Map * rng :=
  match k with
  | O => ([], g)
  | S k' =>
      let (u, g) := drand48 g in
      let m :=
        if permute then {| src := i; dst := dmul u (of_int n) |}
        else
          let tmp := dmul u width in
          let tmp := if negb (absolute_windows o) then dmul tmp (of_int n)
                     else tmp in
          {| src := i; dst := dadd (of_int i) tmp |} in
      let (ranks, g) := rank_fill o n permute width k' (int_add i 1) g in
      (m :: ranks, g)
  end.

Definition rank (o : options) (n : Z) (permute : bool) (width : double)
    (g : rng) : list Z * rng :=
  let g := srand48 (seed o) in
  let (ranks, g) := rank_fill o n permute width (Z.to_nat n) 0 g in
  let ranks := qsort cmp_rank ranks in
  (map src ranks, g).

(** ** Flip selector *)

Fixpoint flip_fill (p : double) (k : nat) (g : rng) : list bool * rng :=
  match k with
  | O => ([], g)
  | S k' =>
      let (u, g) := drand48 g in
      let (res, g) := flip_fill p k' g in
      (dle u p :: res, g)
  end.

Definition flip (o : options) (max_var : Z) (g : rng) : list bool * rng :=
  let g := srand48 (seed o) in
  if dle (literal_flip_probability o) d0 then
    (repeat false (Z.to_nat max_var), g)
  else if dge (literal_flip_probability o) d1 then
    (repeat true (Z.to_nat max_var), g)
  else
    let g := srand48 (seed o) in
    flip_fill (literal_flip_probability o) (Z.to_nat max_var) g.

(** ** Errors

    [parse_error]: what [perr] reports, the line number and the message;
    [assertion_failed]: an [assert] of the source that does not hold;
    [out_of_bounds]: a read outside of an array;
    [out_of_fuel]: the bound of a loop of the embedding is used up (shown
    below never to happen). *)
Inductive error : Type :=
| parse_error (lineno : Z) (msg : string)
| assertion_failed
| out_of_bounds
| out_of_fuel.

Definition perr {A : Type} (lineno : Z) (msg : string) : result error A :=
  Err (parse_error lineno msg).

(** The conversions [%d] and [%c] of [printf]. *)
Definition fmt_d (i : Z) : string := NilZero.string_of_int (Z.to_int i).
Definition fmt_c (ch : Z) : string := String (ascii_of_N (Z.to_N ch)) "".

(** ** The CNF *)

Record cnf : Type := {
  max_var : Z;
  num_clauses : Z;
  clauses : list (list Z)
}.

(** ** Parser *)


(** [while ((ch = next ()) != '\n') if (ch == EOF) perr (...)] *)
Fixpoint skip_header_comment (file : list ascii) (lineno : Z)
    : result error (list ascii * Z) :=
  match file with
  | [] => perr lineno "unexpected end-of-file in header comment"
  | a :: file' =>
      if chr a =? chr nl then Ok (file', bump (chr a) lineno)
      else skip_header_comment file' (bump (chr a) lineno)
  end.

(** The loop that looks for the ['p'] of the header. *)
Fixpoint parse_preamble (fuel : nat) (file : list ascii) (lineno : Z)
    : result error (list ascii * Z) :=
  match fuel with
  | O => Err out_of_fuel
  | S fuel =>
      let '(ch, file, lineno) := next_char file lineno in
      if ch =? EOF then perr lineno "unexpected end-of-file before header"
      else if ch =? chr "p" then Ok (file, lineno)
      else if ch =? chr "c" then
        match skip_header_comment file lineno with
        | Err e => Err e
        | Ok (file, lineno) => parse_preamble fuel file lineno
        end
      else if ch =? EOF then perr lineno "unexpected end-of-file"
      else if isprint ch then
        perr lineno ("unexpected character '" ++ fmt_c ch ++ "'")
      else perr lineno ("unexpected character (code '" ++ fmt_d ch ++ "')")
  end.

(** [while (isdigit (ch = next ())) { ... }]: the three loops that read a
    decimal number differ in their two messages only.  Returns the
    number, the character after it, and the file. *)
Fixpoint parse_number (way_too_large too_large : string) (n : Z)
    (file : list ascii) (lineno : Z) : result error (Z * Z * list ascii * Z) :=
  match file with
  | [] => Ok (n, EOF, [], lineno)
  | a :: file' =>
      let ch := chr a in
      let lineno := bump ch lineno in
      if isdigit ch then
        if INT_MAX / 10 <? n then perr lineno way_too_large
        else
          let n := int_mul n 10 in
          let digit := int_sub ch (chr "0") in
          if int_sub INT_MAX digit <? n then perr lineno too_large
          else parse_number way_too_large too_large (int_add n digit)
                 file' lineno
      else Ok (n, ch, file', lineno)
  end.

(** [while (ch != '\n') { if (!space (ch)) perr (...); ch = next (); }] *)
Fixpoint header_rest (ch : Z) (file : list ascii) (lineno : Z)
    : result error (list ascii * Z) :=
  if ch =? chr nl then Ok (file, lineno)
  else if negb (space ch) then
    perr lineno "expected white space before new line"
  else
    match file with
    | [] => (* [next ()] is [EOF], neither a new line nor a space *)
        perr lineno "expected white space before new line"
    | a :: file' => header_rest (chr a) file' (bump (chr a) lineno)
    end.

(** [while ((ch = next ()) != '\n' && ch != EOF) ;] *)
Fixpoint skip_comment (file : list ascii) (lineno : Z)
    : Z * list ascii * Z :=
  match file with
  | [] => (EOF, [], lineno)
  | a :: file' =>
      if chr a =? chr nl then (chr a, file', bump (chr a) lineno)
      else skip_comment file' (bump (chr a) lineno)
  end.

(** The sign of a literal and its first digit. *)
Definition parse_sign (ch : Z) (file : list ascii) (lineno : Z)
    : result error (Z * Z * list ascii * Z) :=
  if ch =? chr "-" then
    let '(ch, file, lineno) := next_char file lineno in
    if negb (isdigit ch) then perr lineno "expected digit after '-'"
    else if ch =? chr "0" then perr lineno "expected non-zer digit after '-'"
    else Ok (-1, ch, file, lineno)
  else
    if negb (isdigit ch) then perr lineno "expected digit or '-'"
    else Ok (1, ch, file, lineno).

(** The loop that reads the clauses.  [literals] is the stack of the
    literals of the clause that is being read ([num_literals] is its
    length), [clauses] the array of the clauses read so far. *)
Fixpoint parse_clauses (fuel : nat) (max_var specified_clauses : Z)
    (ch : Z) (file : list ascii) (lineno : Z)
    (num_clauses : Z) (clauses : list (list Z)) (literals : list Z)
    : result error cnf :=
  match fuel with
  | O => Err out_of_fuel
  | S fuel =>
      if space ch then
        let '(ch, file, lineno) := next_char file lineno in
        parse_clauses fuel max_var specified_clauses ch file lineno
          num_clauses clauses literals
      else if ch =? EOF then
        if negb (Z.of_nat (List.length literals) =? 0) then
          perr lineno "terminating zero missing"
        else if num_clauses <? specified_clauses then
          perr lineno
            (fmt_d num_clauses ++ " clause" ++
             (if int_add num_clauses 1 =? specified_clauses then "" else "s")
             ++ " missing")
        else
          Ok {| max_var := max_var; num_clauses := num_clauses;
                clauses := clauses |}
      else if ch =? chr "c" then
        let '(ch, file, lineno) := skip_comment file lineno in
        parse_clauses fuel max_var specified_clauses ch file lineno
          num_clauses clauses literals
      else
        match parse_sign ch file lineno with
        | Err e => Err e
        | Ok (sign, ch, file, lineno) =>
          if negb (isdigit ch) then Err assertion_failed
          else
          let idx := int_sub ch (chr "0") in
          match parse_number "variable way too large" "variable too large"
                  idx file lineno with
          | Err e => Err e
          | Ok (idx, ch, file, lineno) =>
            if idx >? max_var then
              perr lineno "maximum variable index exceeded"
            else if negb (space ch) && negb (ch =? chr "c")
                    && negb (ch =? EOF) then
              if isprint ch then
                perr lineno
                  ("unexpected character '" ++ fmt_c ch ++ "' after literal")
              else
                perr lineno
                  ("unexpected character after literal (code '"
                   ++ fmt_d ch ++ "')")
            else if num_clauses =? specified_clauses then
              perr lineno "too many clauses"
            else
              let lit := int_mul sign idx in
              if negb (lit =? 0) then
                parse_clauses fuel max_var specified_clauses ch file lineno
                  num_clauses clauses (literals ++ [lit])
              else
                let clause := literals ++ [0] in
                if negb (num_clauses <? specified_clauses) then
                  Err assertion_failed
                else
                  parse_clauses fuel max_var specified_clauses ch file lineno
                    (int_add num_clauses 1) (clauses ++ [clause]) []
          end
        end
  end.

(** The five characters [" cnf "] after the ['p']. *)
Fixpoint parse_keyword (kw : list ascii) (file : list ascii) (lineno : Z)
    : result error (list ascii * Z) :=
  match kw with
  | [] => Ok (file, lineno)
  | k :: kw' =>
      let '(ch, file, lineno) := next_char file lineno in
      if negb (ch =? chr k) then perr lineno "invalid DIMACS header"
      else parse_keyword kw' file lineno
  end.

Definition parse (file : list ascii) : result error cnf :=
  let lineno := 1 in
  match parse_preamble (S (List.length file)) file lineno with
  | Err e => Err e
  | Ok (file, lineno) =>
  match parse_keyword (list_ascii_of_string " cnf ") file lineno with
  | Err e => Err e
  | Ok (file, lineno) =>
  let '(ch, file, lineno) := next_char file lineno in
  if negb (isdigit ch) then perr lineno "expected digit after 'p cnf '"
  else
  match parse_number "variable number way too large"
          "variable number too large" (int_sub ch (chr "0")) file lineno with
  | Err e => Err e
  | Ok (max_var, ch, file, lineno) =>
  if negb (ch =? chr " ") then
    perr lineno "expected space after variable number"
  else
  let '(ch, file, lineno) := next_char file lineno in
  if negb (isdigit ch) then
    perr lineno ("expected digit after 'p cnf " ++ fmt_d max_var ++ "'")
  else
  match parse_number "clause number way too large"
          "clause number too large" (int_sub ch (chr "0")) file lineno with
  | Err e => Err e
  | Ok (specified_clauses, ch, file, lineno) =>
  match header_rest ch file lineno with
  | Err e => Err e
  | Ok (file, lineno) =>
  let '(ch, file, lineno) := next_char file lineno in
  parse_clauses (2 + List.length file) max_var specified_clauses ch file
    lineno 0 [] []
  end end end end end.

Definition text (s : string) : list ascii := list_ascii_of_string s.

Definition line (s : string) : list ascii := text s ++ [nl].

(** ** Scrambling maps *)

Record maps : Type := {
  variable_map : list Z;
  clause_map : list Z;
  flipped : list bool
}.

Definition scramble (o : options) (c : cnf) (g : rng) : maps * rng :=
  let (vm, g) :=
    rank o (max_var c) (permute_variables o) (variable_move_window o) g in
  let (cm, g) :=
    rank o (num_clauses c) (permute_clauses o) (clause_move_window o) g in
  let (fl, g) := flip o (max_var c) g in
  ({| variable_map := vm; clause_map := cm; flipped := fl |}, g).

(** ** Printer

    The body of the inner loop of [print]: the literal [dst] written for
    the literal [src] of the original clause. *)
Definition print_literal (o : options) (max_var : Z) (m : maps) (src : Z)
    : result error Z :=
  let idx := abs src in
  let idx :=
    if reverse_variables o then int_sub (int_add max_var 1) idx else idx in
  if negb (1 <=? idx) then Err assertion_failed
  else if negb (idx <=? max_var) then Err assertion_failed
  else
    match array_get (variable_map m) (int_sub idx 1) with
    | None => Err out_of_bounds
    | Some v =>
        let dst := int_add v 1 in
        if negb (1 <=? dst) then Err assertion_failed
        else if negb (dst <=? max_var) then Err assertion_failed
        else
          let dst := if src <? 0 then int_neg dst else dst in
          match array_get (flipped m) (int_sub idx 1) with
          | None => Err out_of_bounds
          | Some f => Ok (if f then int_neg dst else dst)
          end
    end.

(** [for (const int * p = clauses[j]; *p; p++)]: the literals written for
    one clause, up to its sentinel. *)
Fixpoint print_literals (o : options) (max_var : Z) (m : maps) (p : list Z)
    : result error (list Z) :=
  match p with
  | [] => Err out_of_bounds
  | src :: p' =>
      if src =? 0 then Ok []
      else
        match print_literal o max_var m src with
        | Err e => Err e
        | Ok dst =>
            match print_literals o max_var m p' with
            | Err e => Err e
            | Ok ds => Ok (dst :: ds)
            end
        end
  end.

(** The source clause of the output position [i]. *)
Definition print_source (o : options) (c : cnf) (m : maps) (i : Z)
    : result error Z :=
  match array_get (clause_map m) i with
  | None => Err out_of_bounds
  | Some j =>
      let j :=
        if reverse_clauses o then int_sub (int_sub (num_clauses c) 1) j
        else j in
      if negb (0 <=? j) then Err assertion_failed
      else if negb (j <? num_clauses c) then Err assertion_failed
      else Ok j
  end.

(** The outer loop of [print], [k] positions left from position [i]: the
    clauses written, each as the list of its literals. *)
Fixpoint print_clauses (o : options) (c : cnf) (m : maps) (k : nat) (i : Z)
    : result error (list (list Z)) :=
  match k with
  | O => Ok []
  | S k' =>
      match print_source o c m i with
      | Err e => Err e
      | Ok j =>
          match array_get (clauses c) j with
          | None => Err out_of_bounds
          | Some p =>
              match print_literals o (max_var c) m p with
              | Err e => Err e
              | Ok ds =>
                  match print_clauses o c m k' (int_add i 1) with
                  | Err e => Err e
                  | Ok out => Ok (ds :: out)
                  end
              end
          end
      end
  end.

Definition emit (o : options) (c : cnf) (m : maps)
    : result error (list (list Z)) :=
  print_clauses o c m (Z.to_nat (num_clauses c)) 0.

(** The text of one clause: [fprintf (file, "%d ", dst)] for each
    literal, then [fprintf (file, "0\n")]. *)
Definition newline : string := String nl "".

Definition print_clause_text (ds : list Z) : string :=
  (String.concat "" (map (fun dst => fmt_d dst ++ " ") ds) ++ "0" ++ newline)
  %string.

Definition print_header_text (c : cnf) : string :=
  ("p cnf " ++ fmt_d (max_var c) ++ " " ++ fmt_d (num_clauses c) ++ newline)
  %string.

Section Print.

(** [VERSION] and [GITID] come from [config.h], which is generated when
    the program is built; [fmt_g] is the conversion [%g] of [printf]. *)
Variables VERSION GITID : string.
Variable fmt_g : double -> string.

Definition print_message (msg : string) : string :=
  ("c " ++ msg ++ newline)%string.

Definition banner (o : options) : string :=
  (print_message "Scranfilize CNF Scrambler"
   ++ print_message ("Version " ++ VERSION ++ " " ++ GITID)
   ++ print_message ("random seed '" ++ fmt_d (seed o) ++ "'")
   ++ (if reverse_variables o
       then print_message "reverse all clauses ('-r')" else "")
   ++ (if reverse_clauses o
       then print_message "reverse all variables ('-R')" else "")
   ++ print_message
        ("literal flip probability " ++ fmt_g (literal_flip_probability o)
         ++ " ('-f " ++ fmt_g (literal_flip_probability o) ++ "')")
   ++ (if permute_variables o
       then print_message "randomly permuting variables"
       else print_message
              ((if absolute_windows o then "absolute" else "relative")
               ++ " variable move window "
               ++ fmt_g (variable_move_window o)
               ++ " ('-v " ++ fmt_g (variable_move_window o) ++ "')"))
   ++ (if permute_clauses o
       then print_message "randomly permuting clauses"
       else print_message
              ((if absolute_windows o then "absolute" else "relative")
               ++ " clause move window "
               ++ fmt_g (clause_move_window o)
               ++ " ('-c " ++ fmt_g (clause_move_window o) ++ "')")))
  %string.

(** What [print] writes to the file of the scrambled CNF. *)
Definition print (o : options) (c : cnf) (m : maps) : result error string :=
  match emit o c m with
  | Err e => Err e
  | Ok out =>
      Ok (banner o ++ print_header_text c
          ++ String.concat "" (map print_clause_text out))%string
  end.

(** [parse (original); scramble (); print (scrambled);] of [main], from
    the options that [init] has set; [g] is the state of the generator
    when the program starts. *)
Definition scranfilize (o : options) (file : list ascii) (g : rng)
    : result error string :=
  match parse file with
  | Err e => Err e
  | Ok c => let (m, _) := scramble o c g in print o c m
  end.

End Print.

(** ** Command line *)

Definition usage : string :=
  String.concat ""
    (map (fun l => (l ++ newline)%string)
       ["usage: scranfilize [ <option> ... ] [ <original-cnf> [ <scrambled-cnf> ] ]";
        "";
        "where '<option>' is one of the following";
        "";
        "   -h         print this command line option summary and exit";
        "   --version  print version and exit";
        "";
        "   -p         completely permute variables";
        "   -P         completely permute clauses";
        "";
        "   -r         reverse order of all variables";
        "   -R         reverse order of all clauses";
        "";
        "   -s <seed>  random number generator seed";
        "              (default is to hash time and process id)";
        "";
        "   -f <prob>  probability of flipping a literal (default '.01')";
        "   -v <win>   relative variable move window (default '.01')";
        "   -c <win>   relative clause move window (default '.01')";
        "";
        "   -a         use absolute move windows (window defaults become '1')";
        "";
        "   --force    force to overwrite existing file";
        "";
        "by default the original CNF is read from '<stdin>' unless '<original-cnf>'";
        "is given.  The scrambled CNF is written to '<stdout>' or '<scrambled-cnf>'."
       ]%string).

(** The constants [1e150], [1e-150] and [0.01]: the doubles nearest to
    these decimals. *)
Definition d1e150 : double := S754_finite false 5503284107318959 446.
Definition d1e_150 : double := S754_finite false 7371020360979573 (-551).
Definition d0_01 : double := S754_finite false 5764607523034235 (-59).

Definition dneg : double -> double := SFopp.

Definition valid (f : double) : bool :=
  if dlt f d0 && (dlt f (dneg d1e150) || dgt f (dneg d1e_150)) then false
  else if dgt f d0 && (dgt f d1e150 || dlt f d1e_150) then false
  else true.

(** The options, [force] and the two paths. *)
Record settings : Type := {
  opts : options;
  force : bool;
  original : option string;
  scrambled : option string
}.

(** The options and the paths when the program starts. *)
Definition initial_settings : settings :=
  {| opts :=
       {| seed := -1;
          permute_variables := false;
          permute_clauses := false;
          reverse_variables := false;
          reverse_clauses := false;
          literal_flip_probability := of_int (-1);
          variable_move_window := of_int (-1);
          clause_move_window := of_int (-1);
          absolute_windows := false |};
     force := false;
     original := None;
     scrambled := None |}.

Definition set_seed (v : Z) (o : options) : options :=
  {| seed := v;
     permute_variables := permute_variables o;
     permute_clauses := permute_clauses o;
     reverse_variables := reverse_variables o;
     reverse_clauses := reverse_clauses o;
     literal_flip_probability := literal_flip_probability o;
     variable_move_window := variable_move_window o;
     clause_move_window := clause_move_window o;
     absolute_windows := absolute_windows o |}.

Definition set_permute_variables (v : bool) (o : options) : options :=
  {| seed := seed o;
     permute_variables := v;
     permute_clauses := permute_clauses o;
     reverse_variables := reverse_variables o;
     reverse_clauses := reverse_clauses o;
     literal_flip_probability := literal_flip_probability o;
     variable_move_window := variable_move_window o;
     clause_move_window := clause_move_window o;
     absolute_windows := absolute_windows o |}.

Definition set_permute_clauses (v : bool) (o : options) : options :=
  {| seed := seed o;
     permute_variables := permute_variables o;
     permute_clauses := v;
     reverse_variables := reverse_variables o;
     reverse_clauses := reverse_clauses o;
     literal_flip_probability := literal_flip_probability o;
     variable_move_window := variable_move_window o;
     clause_move_window := clause_move_window o;
     absolute_windows := absolute_windows o |}.

Definition set_reverse_variables (v : bool) (o : options) : options :=
  {| seed := seed o;
     permute_variables := permute_variables o;
     permute_clauses := permute_clauses o;
     reverse_variables := v;
     reverse_clauses := reverse_clauses o;
     literal_flip_probability := literal_flip_probability o;
     variable_move_window := variable_move_window o;
     clause_move_window := clause_move_window o;
     absolute_windows := absolute_windows o |}.

Definition set_reverse_clauses (v : bool) (o : options) : options :=
  {| seed := seed o;
     permute_variables := permute_variables o;
     permute_clauses := permute_clauses o;
     reverse_variables := reverse_variables o;
     reverse_clauses := v;
     literal_flip_probability := literal_flip_probability o;
     variable_move_window := variable_move_window o;
     clause_move_window := clause_move_window o;
     absolute_windows := absolute_windows o |}.

Definition set_literal_flip_probability (v : double) (o : options)
    : options :=
  {| seed := seed o;
     permute_variables := permute_variables o;
     permute_clauses := permute_clauses o;
     reverse_variables := reverse_variables o;
     reverse_clauses := reverse_clauses o;
     literal_flip_probability := v;
     variable_move_window := variable_move_window o;
     clause_move_window := clause_move_window o;
     absolute_windows := absolute_windows o |}.

Definition set_variable_move_window (v : double) (o : options) : options :=
  {| seed := seed o;
     permute_variables := permute_variables o;
     permute_clauses := permute_clauses o;
     reverse_variables := reverse_variables o;
     reverse_clauses := reverse_clauses o;
     literal_flip_probability := literal_flip_probability o;
     variable_move_window := v;
     clause_move_window := clause_move_window o;
     absolute_windows := absolute_windows o |}.

Definition set_clause_move_window (v : double) (o : options) : options :=
  {| seed := seed o;
     permute_variables := permute_variables o;
     permute_clauses := permute_clauses o;
     reverse_variables := reverse_variables o;
     reverse_clauses := reverse_clauses o;
     literal_flip_probability := literal_flip_probability o;
     variable_move_window := variable_move_window o;
     clause_move_window := v;
     absolute_windows := absolute_windows o |}.

Definition set_absolute_windows (v : bool) (o : options) : options :=
  {| seed := seed o;
     permute_variables := permute_variables o;
     permute_clauses := permute_clauses o;
     reverse_variables := reverse_variables o;
     reverse_clauses := reverse_clauses o;
     literal_flip_probability := literal_flip_probability o;
     variable_move_window := variable_move_window o;
     clause_move_window := clause_move_window o;
     absolute_windows := v |}.

Definition with_opts (f : options -> options) (s : settings) : settings :=
  {| opts := f (opts s); force := force s; original := original s;
     scrambled := scrambled s |}.

(** How a part of the program ends: it returns, it calls [exit (0)] with
    [out] written on [stdout], or it calls [die] with a message. *)
Inductive outcome (A : Type) : Type :=
| Done (a : A)
| Exit (out : string)
| Die (msg : string).
Arguments Done {A} a.
Arguments Exit {A} out.
Arguments Die {A} msg.

(** [argv[i][0] == '-']. *)
Definition starts_with_minus (arg : string) : bool :=
  match arg with
  | String a _ => Ascii.eqb a "-"
  | EmptyString => false
  end.

(** [unsigned long] and [uint64_t]: 64 bits. *)
Definition uint64 (x : Z) : Z := x mod 2 ^ 64.

(** The seed hashed from what [times (0)] and [getpid ()] return. *)
Definition hash_seed (clock pid : Z) : Z :=
  let t := uint64 (8526563 * uint64 clock) in
  let p := uint64 (3944621 * uint64 pid) in
  let tmp := uint64 (t + p) in
  Z.lxor (Z.land tmp 4294967295) (Z.shiftr tmp 32).

Section Init.

(** [VERSION] and [GITID] of [config.h], the conversion [%g], the
    functions [atol] and [atof] of the C library, and what [times (0)]
    and [getpid ()] return. *)
Variables VERSION GITID : string.
Variable fmt_g : double -> string.
Variable atol : string -> Z.
Variable atof : string -> double.
Variables clock pid : Z.

(** The loop of [init] over [argv[1]], ..., [argv[argc - 1]].  A second
    path is stored only when there is a first one: the message of too
    many arguments always has three paths (with no first path, [printf]
    of the GNU C library would write [(null)]). *)
Fixpoint init_args (args : list string) (s : settings) : outcome settings :=
  match args with
  | [] => Done s
  | arg :: args =>
    if String.eqb arg "-h" then Exit usage
    else if String.eqb arg "--version" then Exit (VERSION ++ newline)%string
    else if String.eqb arg "-p" then
      init_args args (with_opts (set_permute_variables true) s)
    else if String.eqb arg "-P" then
      init_args args (with_opts (set_permute_clauses true) s)
    else if String.eqb arg "-r" then
      init_args args (with_opts (set_reverse_variables true) s)
    else if String.eqb arg "-R" then
      init_args args (with_opts (set_reverse_clauses true) s)
    else if String.eqb arg "-s" then
      match args with
      | [] => Die "argument to '-s' missing"
      | v :: args =>
        let seed := atol v in
        if seed <? 0 then Die "invalid negative argument to '-s'"
        else init_args args (with_opts (set_seed seed) s)
      end
    else if String.eqb arg "-f" then
      match args with
      | [] => Die "argument to '-f' missing"
      | v :: args =>
        let tmp := atof v in
        if negb (valid tmp) || dgt tmp d1 then
          Die ("invalid argument in '-f " ++ v ++ "'")%string
        else if dge (literal_flip_probability (opts s)) d0 then
          Die "multiple '-f' options"
        else init_args args (with_opts (set_literal_flip_probability tmp) s)
      end
    else if String.eqb arg "-v" then
      match args with
      | [] => Die "argument to '-v' missing"
      | v :: args =>
        let tmp := atof v in
        if negb (valid tmp) then
          Die ("invalid argument in '-v " ++ v ++ "'")%string
        else if dge (variable_move_window (opts s)) d0 then
          Die "multiple '-v' options"
        else init_args args (with_opts (set_variable_move_window tmp) s)
      end
    else if String.eqb arg "-c" then
      match args with
      | [] => Die "argument to '-c' missing"
      | v :: args =>
        let tmp := atof v in
        if negb (valid tmp) then
          Die ("invalid argument in '-c " ++ v ++ "'")%string
        else if dge (clause_move_window (opts s)) d0 then
          Die "multiple '-c' options"
        else init_args args (with_opts (set_clause_move_window tmp) s)
      end
    else if String.eqb arg "-a" then
      init_args args (with_opts (set_absolute_windows true) s)
    else if String.eqb arg "--force" then
      init_args args
        {| opts := opts s; force := true; original := original s;
           scrambled := scrambled s |}
    else if starts_with_minus arg then
      Die ("invalid option '" ++ arg ++ "' (try '-h')")%string
    else
      match scrambled s, original s with
      | Some sc, orig =>
        Die ("too many arguments '"
             ++ match orig with Some p => p | None => "(null)" end
             ++ "', '" ++ sc ++ "' and '" ++ arg ++ "' (try '-h')")%string
      | None, Some _ =>
        init_args args
          {| opts := opts s; force := force s; original := original s;
             scrambled := Some arg |}
      | None, None =>
        init_args args
          {| opts := opts s; force := force s; original := Some arg;
             scrambled := None |}
      end
  end.

(** The options that [init] refuses together. *)
Definition init_conflict (o : options) : option string :=
  if permute_variables o && reverse_variables o then
    Some "can not combine '-p' and '-r'"%string
  else if permute_variables o && dge (variable_move_window o) d0 then
    Some "can not combine '-p' and '-v'"%string
  else if permute_variables o && absolute_windows o then
    Some "can not combine '-p' and '-a'"%string
  else if permute_clauses o && reverse_clauses o then
    Some "can not combine '-P' and '-R'"%string
  else if permute_clauses o && dge (clause_move_window o) d0 then
    Some "can not combine '-P' and '-c'"%string
  else if permute_clauses o && absolute_windows o then
    Some "can not combine '-P' and '-a'"%string
  else None.

(** The defaults of [init] for what the command line does not set. *)
Definition init_defaults (o : options) : options :=
  let o := if seed o <? 0 then set_seed (hash_seed clock pid) o else o in
  let o :=
    if dlt (literal_flip_probability o) d0
    then set_literal_flip_probability d0_01 o else o in
  let default_window := if absolute_windows o then d1 else d0_01 in
  let o :=
    if dlt (variable_move_window o) d0
    then set_variable_move_window default_window o else o in
  if dlt (clause_move_window o) d0
  then set_clause_move_window default_window o else o.

(** [init]: the settings, and the banner that it writes on [stdout]. *)
Definition init (args : list string) : outcome (settings * string) :=
  match init_args args initial_settings with
  | Exit out => Exit out
  | Die msg => Die msg
  | Done s =>
    match init_conflict (opts s) with
    | Some msg => Die msg
    | None =>
      let s := with_opts init_defaults s in
      Done (s, banner VERSION GITID fmt_g (opts s))
    end
  end.

End Init.

(** ** Compressed files *)

Definition is_suffix (path suffix : string) : bool :=
  let k := String.length path in
  let l := String.length suffix in
  (l <? k)%nat && String.eqb (substring (k - l) l path) suffix.

(** [sprintf (cmd, fmt, path)] for a format with no conversion but [%s]. *)
Fixpoint sprintf (fmt path : string) : string :=
  match fmt with
  | String "%" (String "s" fmt) => (path ++ sprintf fmt path)%string
  | String a fmt => String a (sprintf fmt path)
  | EmptyString => EmptyString
  end.

(** [open_pipe]: the command given to [popen], and the number of bytes
    allocated for it. *)
Definition open_pipe (path fmt : string) : string * nat :=
  (sprintf fmt path, (String.length fmt + String.length path)%nat).

(** Where [parse] reads the original CNF from. *)
Inductive source : Type :=
| Stdin
| Pipe (cmd : string) (allocated : nat)
| File (path : string).

Definition open_original (path : option string) : source :=
  match path with
  | None => Stdin
  | Some path =>
    if is_suffix path ".xz" || is_suffix path ".lzma" then
      let (cmd, n) := open_pipe path "xz -c -d %s" in Pipe cmd n
    else if is_suffix path ".bz2" then
      let (cmd, n) := open_pipe path "bzip2 -c -d %s" in Pipe cmd n
    else if is_suffix path ".gz" then
      let (cmd, n) := open_pipe path "gzip -c -d %s" in Pipe cmd n
    else if is_suffix path ".7z" then
      let (cmd, n) := open_pipe path "7z x -so %s 2>/dev/null" in Pipe cmd n
    else File path
  end.

(** * Definitions for the specification

    What the properties below speak of: the shape of a parsed CNF and of
    its maps, the literal and the clause that [print] writes, the way
    back from a written literal, DIMACS texts, and sample data. *)

(** ** Arrays, doubles and draws *)

(** The integers [i], [i + 1], ..., [i + k - 1]. *)
Fixpoint zseq (i : Z) (k : nat) : list Z :=
  match k with
  | O => []
  | S k' => i :: zseq (i + 1) k'
  end.

(** Shift of a mantissa to the left by [k] bits. *)
Definition shl (p : positive) (k : Z) : positive :=
  match k with
  | Z.pos q => Pos.iter xO p q
  | _ => p
  end.

(** The value of a draw: [x / 2^48] for the state [x] of the generator. *)
Definition draw_value (x : Z) : double :=
  binary_normalize prec emax x (-48) false.

(** The state of the generator [k] draws after it was seeded, and the
    value of the draw number [i] (from [0]). *)
Definition state_after (seed : Z) (k : nat) : rng :=
  Nat.iter k lcg (srand48 seed).

Definition draw (seed : Z) (i : nat) : double :=
  draw_value (state_after seed (S i)).

(** ** A parsed CNF and its maps *)

Definition literal_ok (max_var lit : Z) : Prop :=
  lit <> 0 /\ - max_var <= lit <= max_var.

(** A clause array: its literals, then the sentinel. *)
Definition clause_ok (max_var : Z) (clause : list Z) : Prop :=
  exists lits, clause = lits ++ [0] /\ Forall (literal_ok max_var) lits.

Record cnf_ok (c : cnf) : Prop := {
  max_var_range : 0 <= max_var c <= INT_MAX;
  num_clauses_range : 0 <= num_clauses c <= INT_MAX;
  num_clauses_length : Z.of_nat (List.length (clauses c)) = num_clauses c;
  clauses_ok : Forall (clause_ok (max_var c)) (clauses c)
}.

Record maps_ok (c : cnf) (m : maps) : Prop := {
  variable_map_perm :
    Permutation (variable_map m) (zseq 0 (Z.to_nat (max_var c)));
  clause_map_perm :
    Permutation (clause_map m) (zseq 0 (Z.to_nat (num_clauses c)));
  flipped_length : List.length (flipped m) = Z.to_nat (max_var c)
}.

(** ** What is written, and the way back *)

(** The index of the variable of a literal, reversed with [-r]. *)
Definition literal_index (o : options) (max_var src : Z) : Z :=
  if reverse_variables o then max_var + 1 - Z.abs src else Z.abs src.

(** The literal written for [src]: the variable that [variable_map] gives
    for the index, negated when exactly one of "[src] is negative" and
    "the index is flipped" holds. *)
Definition scrambled_literal (o : options) (max_var : Z) (m : maps) (src : Z)
    : Z :=
  let idx := literal_index o max_var src in
  let v := nth (Z.to_nat (idx - 1)) (variable_map m) 0 in
  let f := nth (Z.to_nat (idx - 1)) (flipped m) false in
  if xorb (src <? 0) f then - (v + 1) else v + 1.

(** The source clause of the output position [i], reversed with [-R]. *)
Definition clause_source (o : options) (c : cnf) (m : maps) (i : Z) : Z :=
  let j := nth (Z.to_nat i) (clause_map m) 0 in
  if reverse_clauses o then num_clauses c - 1 - j else j.

(** The literals of a clause array: what is before the sentinel. *)
Fixpoint literals_of (p : list Z) : list Z :=
  match p with
  | [] => []
  | src :: p' => if src =? 0 then [] else src :: literals_of p'
  end.

(** The clause written at the output position [i]. *)
Definition scrambled_clause (o : options) (c : cnf) (m : maps) (i : Z)
    : list Z :=
  map (scrambled_literal o (max_var c) m)
    (literals_of (nth (Z.to_nat (clause_source o c m i)) (clauses c) [])).

(** The position of [v] in an array. *)
Fixpoint index_of (v : Z) (l : list Z) : Z :=
  match l with
  | [] => 0
  | x :: l' => if x =? v then 0 else 1 + index_of v l'
  end.

(** From a literal of the output back to the literal of the input: the
    index that [variable_map] sends to its variable, the flip of this
    index undone, the reversal undone. *)
Definition unscramble_literal (o : options) (max_var : Z) (m : maps)
    (dst : Z) : Z :=
  let idx := index_of (Z.abs dst - 1) (variable_map m) + 1 in
  let f := nth (Z.to_nat (idx - 1)) (flipped m) false in
  let a := if reverse_variables o then max_var + 1 - idx else idx in
  if xorb (dst <? 0) f then - a else a.

(** What the specification says of the sign of a written literal, as it
    is worded: the sign of the original literal, "XORed" with the flip of
    its index, and "XORed again if the original literal was negative". *)
Definition stated_sign (src : Z) (f : bool) : bool :=
  xorb (xorb (src <? 0) f) (src <? 0).

Definition written_as_stated (o : options) (max_var : Z) (m : maps)
    (src dst : Z) : Prop :=
  let idx := literal_index o max_var src in
  exists v f,
    array_get (variable_map m) (idx - 1) = Some v /\
    array_get (flipped m) (idx - 1) = Some f /\
    Z.abs dst = v + 1 /\
    (dst <? 0) = stated_sign src f.

(** What [print] does: the written literal is negative exactly when one
    of "the original literal is negative" and "its index is flipped"
    holds, and not the other. *)
Definition written (o : options) (max_var : Z) (m : maps) (src dst : Z)
    : Prop :=
  let idx := literal_index o max_var src in
  exists v f,
    array_get (variable_map m) (idx - 1) = Some v /\
    array_get (flipped m) (idx - 1) = Some f /\
    Z.abs dst = v + 1 /\
    (dst <? 0) = xorb (src <? 0) f.

(** ** Sample options and files *)

(** Options without any scrambling: no permutation, no reversal, no
    flip, windows of width zero. *)
Definition plain_options : options :=
  {| seed := 0;
     permute_variables := false; permute_clauses := false;
     reverse_variables := false; reverse_clauses := false;
     literal_flip_probability := d0;
     variable_move_window := d0; clause_move_window := d0;
     absolute_windows := false |}.

(** Options with every kind of scrambling: [-r -R -s 7 -f 0.5 -v 2 -c 2 -a]. *)
Definition busy_options : options :=
  {| seed := 7;
     permute_variables := false; permute_clauses := false;
     reverse_variables := true; reverse_clauses := true;
     literal_flip_probability := binary_normalize prec emax 1 (-1) false;
     variable_move_window := of_int 2; clause_move_window := of_int 2;
     absolute_windows := true |}.

Definition sample_file : list ascii :=
  line "c sample" ++ line "p cnf 4 3" ++ line "1 -2 3 0" ++ line "0"
  ++ line "-4 4 1 0".

Definition sample_cnf : cnf :=
  {| max_var := 4; num_clauses := 3;
     clauses := [[1; -2; 3; 0]; [0]; [-4; 4; 1; 0]] |}.

(** The rank of the index [j] when the width of the window is zero. *)
Definition plain_rank (j : Z) : Map := {| src := j; dst := of_int j |}.

(** ** DIMACS texts *)

(** The characters that are left to read, the current one included. *)
Definition pending (ch : Z) (file : list ascii) : nat :=
  if ch =? EOF then 0%nat else S (List.length file).

Definition is_digit (a : ascii) : Prop := 48 <= chr a <= 57.

Definition is_blank (a : ascii) : Prop := space (chr a) = true.

(** The value of a decimal number, from the value [n] of what was read
    of it. *)
Definition horner (n : Z) (ds : list ascii) : Z :=
  fold_left (fun n a => n * 10 + (chr a - 48)) ds n.

Definition number_value (ds : list ascii) : Z := horner 0 ds.

(** What separates two literals: a white space character, or a comment,
    from its ['c'] to the end of its line. *)
Inductive gap : Type :=
| Blank (a : ascii)
| Comment (body : list ascii).

Definition gap_text (g : gap) : list ascii :=
  match g with
  | Blank a => [a]
  | Comment body => "c"%char :: body ++ [nl]
  end.

Definition gap_ok (g : gap) : Prop :=
  match g with
  | Blank a => is_blank a
  | Comment body => Forall (fun a => a <> nl) body
  end.

Definition gaps_text (gs : list gap) : list ascii :=
  List.concat (map gap_text gs).

(** A literal as it is written in a file: an optional ['-'], digits, and
    what separates it from the next one. *)
Record token : Type := {
  negative : bool;
  digits : list ascii;
  gaps : list gap
}.

Definition token_value (t : token) : Z :=
  if negative t then - number_value (digits t) else number_value (digits t).

Definition token_text (t : token) : list ascii :=
  (if negative t then ["-"%char] else []) ++ digits t ++ gaps_text (gaps t).

Record token_ok (max_var : Z) (t : token) : Prop := {
  digits_nonempty : digits t <> [];
  digits_ok : Forall is_digit (digits t);
  gaps_nonempty : gaps t <> [];
  gaps_ok : Forall gap_ok (gaps t);
  negative_ok : negative t = true -> hd "0"%char (digits t) <> "0"%char;
  value_ok : number_value (digits t) <= max_var
}.

(** A clause as it is written in a file: its literals, none of them
    zero, then a zero. *)
Record block : Type := {
  block_literals : list token;
  block_end : token
}.

Record block_ok (max_var : Z) (b : block) : Prop := {
  block_literals_ok : Forall (token_ok max_var) (block_literals b);
  block_literals_nonzero :
    Forall (fun t => token_value t <> 0) (block_literals b);
  block_end_ok : token_ok max_var (block_end b);
  block_end_zero : token_value (block_end b) = 0
}.

Definition block_text (b : block) : list ascii :=
  List.concat (map token_text (block_literals b)) ++ token_text (block_end b).

Definition block_values (b : block) : list Z :=
  map token_value (block_literals b).

(** A DIMACS text: the header with the digits [dv] of the number of
    variables and the digits [dc] of the number of clauses, then what
    may come before the first clause, then the clauses. *)
Definition dimacs_text (dv dc : list ascii) (lead : list gap)
    (bs : list block) : list ascii :=
  text "p cnf " ++ dv ++ [" "%char] ++ dc ++ [nl]
  ++ gaps_text lead ++ List.concat (map block_text bs).

(** The loop of the clauses, entered on the first character of [T]. *)
Definition clauses_from (fuel : nat) (mv spec : Z) (T : list ascii)
    (lineno nc : Z) (cls : list (list Z)) (lits : list Z)
    : result error cnf :=
  let '(ch, file, lineno) := next_char T lineno in
  parse_clauses fuel mv spec ch file lineno nc cls lits.

(** The run [r] of a loop goes on as the run [k], or its bound is used
    up. *)
Definition runs_to (r : result error cnf)
    (k : nat -> Z -> result error cnf) : Prop :=
  r = Err out_of_fuel \/ exists fuel lineno, r = k fuel lineno.

(** A literal written with the digits [ds], followed by one space. *)
Definition plain_token (neg : bool) (ds : string) : token :=
  {| negative := neg; digits := text ds; gaps := [Blank " "%char] |}.

(** ** Truth of a formula *)

(** An assignment gives a truth value to every variable. *)
Definition assignment : Type := Z -> bool.

Definition literal_true (a : assignment) (lit : Z) : bool :=
  if lit <? 0 then negb (a (- lit)) else a lit.

Definition clause_true (a : assignment) (lits : list Z) : bool :=
  existsb (literal_true a) lits.

Definition cnf_true (a : assignment) (cls : list (list Z)) : bool :=
  forallb (clause_true a) cls.

(** The assignment of the scrambled formula that does what [a] does on
    the original one: the variable [w] of the output comes from the
    index at which [variable_map] holds [w - 1]; its value is the one of
    the original variable of this index, negated when the index is
    flipped. *)
Definition scramble_assignment (o : options) (max_var : Z) (m : maps)
    (a : assignment) : assignment :=
  fun w =>
    let idx := index_of (w - 1) (variable_map m) + 1 in
    let x := if reverse_variables o then max_var + 1 - idx else idx in
    xorb (a x) (nth (Z.to_nat (idx - 1)) (flipped m) false).

(** The other way: from an assignment of the scrambled formula to one of
    the original formula. *)
Definition unscramble_assignment (o : options) (max_var : Z) (m : maps)
    (b : assignment) : assignment :=
  fun x =>
    let idx := if reverse_variables o then max_var + 1 - x else x in
    let w := nth (Z.to_nat (idx - 1)) (variable_map m) 0 + 1 in
    xorb (b w) (nth (Z.to_nat (idx - 1)) (flipped m) false).

(** ** Texts that the program writes and reads *)

(** No new line in a string. *)
Definition no_nl (s : string) : bool :=
  forallb (fun a => negb (Ascii.eqb a nl)) (text s).

(** The lines of comment in front of a header, each given by what
    follows its ['c']. *)
Definition comment_lines (bodies : list (list ascii)) : list ascii :=
  gaps_text (map Comment bodies).

(** What [parse] does once the ['p'] of the header is read. *)
Definition parse_header (file : list ascii) (lineno : Z)
    : result error cnf :=
  match parse_keyword (list_ascii_of_string " cnf ") file lineno with
  | Err e => Err e
  | Ok (file, lineno) =>
  let '(ch, file, lineno) := next_char file lineno in
  if negb (isdigit ch) then perr lineno "expected digit after 'p cnf '"
  else
  match parse_number "variable number way too large"
          "variable number too large" (int_sub ch (chr "0")) file lineno with
  | Err e => Err e
  | Ok (max_var, ch, file, lineno) =>
  if negb (ch =? chr " ") then
    perr lineno "expected space after variable number"
  else
  let '(ch, file, lineno) := next_char file lineno in
  if negb (isdigit ch) then
    perr lineno ("expected digit after 'p cnf " ++ fmt_d max_var ++ "'")
  else
  match parse_number "clause number way too large"
          "clause number too large" (int_sub ch (chr "0")) file lineno with
  | Err e => Err e
  | Ok (specified_clauses, ch, file, lineno) =>
  match header_rest ch file lineno with
  | Err e => Err e
  | Ok (file, lineno) =>
  let '(ch, file, lineno) := next_char file lineno in
  parse_clauses (2 + List.length file) max_var specified_clauses ch file
    lineno 0 [] []
  end end end end.

(** A literal as [print] writes it, and a clause as [print] writes it. *)
Definition written_token (dst : Z) : token :=
  {| negative := dst <? 0;
     digits := text (fmt_d (Z.abs dst));
     gaps := [Blank " "%char] |}.

Definition written_block (ds : list Z) : block :=
  {| block_literals := map written_token ds;
     block_end := {| negative := false; digits := text "0";
                     gaps := [Blank nl] |} |}.

(** The CNF that [print] writes: the clauses written, as clause arrays. *)
Definition written_cnf (c : cnf) (out : list (list Z)) : cnf :=
  {| max_var := max_var c; num_clauses := num_clauses c;
     clauses := map (fun ds => ds ++ [0]) out |}.

(** The messages of the banner, one per line. *)
Definition banner_messages (VERSION GITID : string)
    (fmt_g : double -> string) (o : options) : list string :=
  ["Scranfilize CNF Scrambler"%string;
   ("Version " ++ VERSION ++ " " ++ GITID)%string;
   ("random seed '" ++ fmt_d (seed o) ++ "'")%string]
  ++ (if reverse_variables o
      then ["reverse all clauses ('-r')"%string] else [])
  ++ (if reverse_clauses o
      then ["reverse all variables ('-R')"%string] else [])
  ++ [("literal flip probability " ++ fmt_g (literal_flip_probability o)
       ++ " ('-f " ++ fmt_g (literal_flip_probability o) ++ "')")%string]
  ++ [if permute_variables o
      then "randomly permuting variables"%string
      else ((if absolute_windows o then "absolute" else "relative")
            ++ " variable move window "
            ++ fmt_g (variable_move_window o)
            ++ " ('-v " ++ fmt_g (variable_move_window o) ++ "')")%string]
  ++ [if permute_clauses o
      then "randomly permuting clauses"%string
      else ((if absolute_windows o then "absolute" else "relative")
            ++ " clause move window "
            ++ fmt_g (clause_move_window o)
            ++ " ('-c " ++ fmt_g (clause_move_window o) ++ "')")%string].

(** A DIMACS text up to its clauses: lines of comment, the header, and
    the new line that ends it. *)
Definition dimacs_head (bodies : list (list ascii)) (dv dc : list ascii)
    : list ascii :=
  comment_lines bodies ++ text "p cnf " ++ dv ++ [" "%char] ++ dc ++ [nl].

(** The digits of a header: some digits, whose value is an [int]. *)
Definition header_number (ds : list ascii) : Prop :=
  ds <> [] /\ Forall is_digit ds /\ number_value ds <= INT_MAX.

(** What [perr] says of a character that must not be there. *)
Definition unexpected_character (ch : Z) : string :=
  if isprint ch then ("unexpected character '" ++ fmt_c ch ++ "'")%string
  else ("unexpected character (code '" ++ fmt_d ch ++ "')")%string.

(** What the loop of the clauses does with a literal once its digits are
    read: [sign] and [idx] are its sign and its variable, [ch] the
    character behind it. *)
Definition after_number (fuel : nat) (mv spec sign idx ch : Z)
    (file : list ascii) (lineno nc : Z) (cls : list (list Z))
    (lits : list Z) : result error cnf :=
  if idx >? mv then perr lineno "maximum variable index exceeded"
  else if negb (space ch) && negb (ch =? chr "c") && negb (ch =? EOF) then
    if isprint ch then
      perr lineno ("unexpected character '" ++ fmt_c ch ++ "' after literal")
    else
      perr lineno
        ("unexpected character after literal (code '" ++ fmt_d ch ++ "')")
  else if nc =? spec then perr lineno "too many clauses"
  else
    let lit := int_mul sign idx in
    if negb (lit =? 0) then
      parse_clauses fuel mv spec ch file lineno nc cls (lits ++ [lit])
    else
      let clause := lits ++ [0] in
      if negb (nc <? spec) then Err assertion_failed
      else
        parse_clauses fuel mv spec ch file lineno (int_add nc 1)
          (cls ++ [clause]) [].

(** The text of a literal: an optional ['-'] and digits. *)
Definition literal_text (neg : bool) (ds : list ascii) : list ascii :=
  (if neg then ["-"%char] else []) ++ ds.

(** The run [r] of the loop ends with the message [msg], or its bound is
    used up. *)
Definition ends_with (msg : string) (r : result error cnf) : Prop :=
  r = Err out_of_fuel \/ exists lineno, r = Err (parse_error lineno msg).

(** What may follow the digits of a literal: the end of the file, a white
    space character, or the ['c'] of a comment. *)
Definition ends_literal (rest : list ascii) : Prop :=
  match rest with
  | [] => True
  | a :: _ => is_blank a \/ a = "c"%char
  end.

(** A DIMACS text up to some point of its clauses: its head, what may
    come before the first clause, the clauses [bs], and the literals [ts]
    of a clause that is not closed yet. *)
Definition dimacs_prefix (bodies : list (list ascii)) (dv dc : list ascii)
    (lead : list gap) (bs : list block) (ts : list token) : list ascii :=
  dimacs_head bodies dv dc ++ gaps_text lead
  ++ List.concat (map block_text bs) ++ List.concat (map token_text ts).

Record prefix_ok (bodies : list (list ascii)) (dv dc : list ascii)
    (lead : list gap) (bs : list block) (ts : list token) : Prop := {
  prefix_comments : Forall (Forall (fun a => a <> nl)) bodies;
  prefix_variables : header_number dv;
  prefix_clauses : header_number dc;
  prefix_lead : Forall gap_ok lead;
  prefix_blocks : Forall (block_ok (number_value dv)) bs;
  prefix_tokens : Forall (token_ok (number_value dv)) ts;
  prefix_nonzero : Forall (fun t => token_value t <> 0) ts;
  prefix_count :
    Z.of_nat (List.length bs) + (match ts with [] => 0 | _ => 1 end)
    <= number_value dc
}.


(** What [perr] says of a character that must not follow a literal. *)
Definition unexpected_after_literal (ch : Z) : string :=
  if isprint ch
  then ("unexpected character '" ++ fmt_c ch ++ "' after literal")%string
  else ("unexpected character after literal (code '" ++ fmt_d ch ++ "')")
       %string.

(** A double of ordinary size: its magnitude is between [1e-150] and
    [1e150]. *)
Definition ordinary_size (f : double) : bool :=
  dle d1e_150 (SFabs f) && dle (SFabs f) d1e150.

(** The literal [src] with its variable counted from the other end. *)
Definition mirrored (max_var src : Z) : Z :=
  if src <? 0 then - (max_var + 1 - Z.abs src) else max_var + 1 - Z.abs src.

(** ** The files that [parse] accepts *)

(** A literal of a file and what follows it; nothing has to follow the
    last literal of a file. *)
Record token_wf (max_var : Z) (t : token) : Prop := {
  wf_digits_nonempty : digits t <> [];
  wf_digits : Forall is_digit (digits t);
  wf_gaps : Forall gap_ok (gaps t);
  wf_negative : negative t = true -> hd "0"%char (digits t) <> "0"%char;
  wf_value : number_value (digits t) <= max_var
}.

(** Something separates a literal from the next one. *)
Fixpoint separated (toks : list token) : Prop :=
  match toks with
  | [] => True
  | t :: toks' => (toks' <> [] -> gaps t <> []) /\ separated toks'
  end.

(** The end of a file: nothing, or a comment that the end of the file
    ends. *)
Definition tail_ok (tail : list ascii) : Prop :=
  match tail with
  | [] => True
  | a :: body => a = "c"%char /\ Forall (fun b => b <> nl) body
  end.

Definition tokens_text (toks : list token) : list ascii :=
  List.concat (map token_text toks).

(** A DIMACS file: lines of comment, the header with the digits [dv] and
    [dc] of its two numbers and white space [pad] up to its new line,
    what comes before the first literal, the literals, each with what
    follows it, and the end of the file. *)
Definition dimacs_file (bodies : list (list ascii)) (dv dc pad : list ascii)
    (lead : list gap) (toks : list token) (tail : list ascii)
    : list ascii :=
  comment_lines bodies ++ text "p cnf " ++ dv ++ [" "%char] ++ dc ++ pad
  ++ [nl] ++ gaps_text lead ++ tokens_text toks ++ tail.

Record dimacs_file_ok (bodies : list (list ascii)) (dv dc pad : list ascii)
    (lead : list gap) (toks : list token) (tail : list ascii) : Prop := {
  file_comments : Forall (Forall (fun a => a <> nl)) bodies;
  file_variables : header_number dv;
  file_clauses : header_number dc;
  file_pad : Forall (fun a => is_blank a /\ a <> nl) pad;
  file_lead : Forall gap_ok lead;
  file_tokens : Forall (token_wf (number_value dv)) toks;
  file_separated : separated toks;
  file_tail : tail_ok tail
}.

(** The clause arrays of a sequence of literals: each zero closes a
    clause, which holds the literals since the zero before and the zero
    itself as its sentinel.  [lits] are the literals of the clause that
    is open. *)
Fixpoint clauses_of_values (vals lits : list Z) : list (list Z) :=
  match vals with
  | [] => []
  | v :: vals' =>
      if v =? 0 then (lits ++ [0]) :: clauses_of_values vals' []
      else clauses_of_values vals' (lits ++ [v])
  end.

(** The literals that no zero has closed. *)
Fixpoint pending_values (vals lits : list Z) : list Z :=
  match vals with
  | [] => lits
  | v :: vals' =>
      if v =? 0 then pending_values vals' []
      else pending_values vals' (lits ++ [v])
  end.

(** The number of zeros of a sequence of literals. *)
Fixpoint zeros (vals : list Z) : Z :=
  match vals with
  | [] => 0
  | v :: vals' => (if v =? 0 then 1 else 0) + zeros vals'
  end.

(** There is room for the clause of each literal: fewer clauses than
    [spec] are closed before it; [nc] clauses are closed at the start. *)
Fixpoint room (spec nc : Z) (vals : list Z) : Prop :=
  match vals with
  | [] => True
  | v :: vals' => nc < spec /\ room spec (if v =? 0 then nc + 1 else nc) vals'
  end.

(** The loop is at the text [T]: [ch] is its first character, or [EOF],
    and [file] is what follows. *)
Definition reading (T : list ascii) (ch : Z) (file : list ascii) : Prop :=
  match T with
  | [] => ch = EOF /\ file = []
  | a :: T' => ch = chr a /\ file = T'
  end.

(** ** The text of the output *)

(** The header and the line of a clause as a DIMACS file has them: the
    two numbers in decimal, and the literals in decimal, each followed by
    a space, then the zero. *)
Definition header_line (max_var num_clauses : Z) : string :=
  ("p cnf " ++ fmt_d max_var ++ " " ++ fmt_d num_clauses ++ newline)%string.

Definition clause_line (ds : list Z) : string :=
  (String.concat "" (map (fun d => fmt_d d ++ " ") ds) ++ "0" ++ newline)
  %string.

(** The carriage return. *)
Definition cr : ascii := "013"%char.

(** * Properties *)

(** ** Machine integers and arrays *)

Lemma wrap_small (x : Z) : -2147483648 <= x <= INT_MAX -> wrap x = x.
Proof.
  unfold wrap, INT_MAX. intros H. rewrite Z.mod_small; lia.
Qed.

Lemma int_add_small (a b : Z) :
  -2147483648 <= a + b <= INT_MAX -> int_add a b = a + b.
Proof. apply wrap_small. Qed.

Lemma int_sub_small (a b : Z) :
  -2147483648 <= a - b <= INT_MAX -> int_sub a b = a - b.
Proof. apply wrap_small. Qed.

Lemma int_mul_small (a b : Z) :
  -2147483648 <= a * b <= INT_MAX -> int_mul a b = a * b.
Proof. apply wrap_small. Qed.

Lemma int_neg_small (a : Z) :
  -2147483648 <= - a <= INT_MAX -> int_neg a = - a.
Proof. apply wrap_small. Qed.

Lemma array_get_Some {A : Type} (a : list A) (i : Z) (x : A) :
  array_get a i = Some x <-> 0 <= i /\ nth_error a (Z.to_nat i) = Some x.
Proof.
  unfold array_get. destruct (Z.ltb_spec i 0); split; intros H1.
  - discriminate.
  - lia.
  - auto.
  - tauto.
Qed.

Lemma array_get_in_range {A : Type} (a : list A) (i : Z) :
  0 <= i < Z.of_nat (List.length a) -> exists x, array_get a i = Some x.
Proof.
  intros H. destruct (nth_error a (Z.to_nat i)) eqn:E.
  - exists a0. apply array_get_Some. split; [lia | exact E].
  - apply nth_error_None in E. lia.
Qed.

Lemma zseq_length (k : nat) : forall i, List.length (zseq i k) = k.
Proof. induction k; intros i; simpl; [reflexivity | now rewrite IHk]. Qed.

Lemma zseq_In (k : nat) :
  forall i v, In v (zseq i k) <-> i <= v < i + Z.of_nat k.
Proof.
  induction k; intros i v; simpl.
  - lia.
  - rewrite IHk. lia.
Qed.

Lemma zseq_NoDup (k : nat) : forall i, NoDup (zseq i k).
Proof.
  induction k; intros i; simpl; constructor.
  - rewrite zseq_In. lia.
  - apply IHk.
Qed.

Lemma zseq_nth_error (k : nat) :
  forall i j, (j < k)%nat -> nth_error (zseq i k) j = Some (i + Z.of_nat j).
Proof.
  induction k; intros i j Hj; [lia |].
  destruct j; simpl.
  - f_equal. lia.
  - rewrite IHk by lia. f_equal. lia.
Qed.

Lemma zseq_count (k : nat) (i v : Z) :
  count_occ Z.eq_dec (zseq i k) v =
  if (i <=? v) && (v <? i + Z.of_nat k) then 1%nat else 0%nat.
Proof.
  destruct ((i <=? v) && (v <? i + Z.of_nat k)) eqn:E.
  - apply NoDup_count_occ'; [apply zseq_NoDup | apply zseq_In; lia].
  - apply count_occ_not_In. rewrite zseq_In. lia.
Qed.

(** ** Sorting *)

Section QsortFacts.
Context {A : Type} (cmp : A -> A -> Z).

Lemma insert_perm (x : A) (l : list A) : Permutation (insert cmp x l) (x :: l).
Proof.
  induction l as [|y l IH]; simpl.
  - apply Permutation_refl.
  - destruct (cmp x y <=? 0).
    + apply Permutation_refl.
    + rewrite IH. apply perm_swap.
Qed.

Lemma qsort_perm (l : list A) : Permutation (qsort cmp l) l.
Proof.
  induction l as [|x l IH]; simpl.
  - apply perm_nil.
  - rewrite insert_perm. now apply perm_skip.
Qed.

(** A list whose elements come in the order of [cmp] is left as it is. *)
Lemma qsort_sorted_id (l : list A) :
  ForallOrdPairs (fun x y => cmp x y <= 0) l -> qsort cmp l = l.
Proof.
  induction 1 as [|x l Hx Hl IH]; simpl.
  - reflexivity.
  - rewrite IH. destruct l as [|y l']; simpl.
    + reflexivity.
    + inversion Hx; subst.
      destruct (Z.leb_spec (cmp x y) 0); [reflexivity | lia].
Qed.
(** A list that is strictly increasing for [cmp] has no other sorted
    permutation than itself. *)
Lemma sorted_perm_unique (l : list A) :
  ForallOrdPairs (fun x y => cmp x y < 0 /\ 0 < cmp y x) l ->
  forall l', Permutation l' l ->
    ForallOrdPairs (fun x y => cmp x y <= 0) l' -> l' = l.
Proof.
  induction 1 as [|x l Hx Hl IH]; intros l' P S.
  - now apply Permutation_nil, Permutation_sym.
  - destruct l' as [|x' l'].
    + apply Permutation_nil_cons in P. contradiction.
    + inversion S as [|? ? Sx Sl']; subst.
      assert (x' = x) as ->.
      { assert (In x' (x :: l)) as [E|Hin]
          by (apply (Permutation_in _ P); now left); [now symmetry|].
        assert (In x (x' :: l')) as [E|Hin']
          by (apply (Permutation_in _ (Permutation_sym P)); now left);
          [assumption|].
        pose proof (proj1 (Forall_forall _ _) Hx x' Hin) as [_ H1].
        pose proof (proj1 (Forall_forall _ _) Sx x Hin') as H2.
        cbv beta in H1, H2. lia. }
      f_equal. apply IH; [|assumption].
      now apply Permutation_cons_inv in P.
Qed.
End QsortFacts.

(** ** Rank generator *)

Lemma rank_fill_src (o : options) (n : Z) (permute : bool) (width : double)
    (k : nat) :
  forall i g, 0 <= i -> i + Z.of_nat k <= INT_MAX ->
    map src (fst (rank_fill o n permute width k i g)) = zseq i k.
Proof.
  induction k; intros i g Hi Hk.
  - reflexivity.
  - rewrite Nat2Z.inj_succ in Hk. cbn [rank_fill zseq].
    destruct (drand48 g) as [u g1].
    specialize (IHk (int_add i 1) g1).
    destruct (rank_fill o n permute width k (int_add i 1) g1) as [ranks g2].
    rewrite int_add_small in IHk by (unfold INT_MAX in *; lia).
    cbn [fst map] in *. rewrite IHk by lia.
    destruct permute; reflexivity.
Qed.

Lemma rank_perm (o : options) (n : Z) (permute : bool) (width : double)
    (g : rng) :
  0 <= n <= INT_MAX ->
  Permutation (fst (rank o n permute width g)) (zseq 0 (Z.to_nat n)).
Proof.
  intros Hn. unfold rank.
  pose proof (rank_fill_src o n permute width (Z.to_nat n) 0
                (srand48 (seed o))) as H.
  destruct (rank_fill o n permute width (Z.to_nat n) 0 (srand48 (seed o)))
    as [ranks g1].
  simpl in *. rewrite <- H by lia.
  apply Permutation_map, qsort_perm.
Qed.

(** C2. For every [n] from [0] to [INT_MAX], every seed (and every state
    of the generator), in the mode of the full permutation and in the
    mode of the window, whatever the width (and whether it is relative
    or absolute), [rank] returns an array of length [n] in which every
    value of [0 .. n-1] occurs exactly once, and no other value occurs. *)
Theorem rank_bijection (o : options) (n : Z) (permute : bool)
    (width : double) (g : rng) :
  0 <= n <= INT_MAX ->
  let res := fst (rank o n permute width g) in
  Z.of_nat (List.length res) = n /\
  (forall v, 0 <= v < n -> count_occ Z.eq_dec res v = 1%nat) /\
  (forall v, In v res -> 0 <= v < n).
Proof.
  intros Hn res. pose proof (rank_perm o n permute width g Hn) as P.
  fold res in P. split; [|split].
  - rewrite (Permutation_length P), zseq_length. lia.
  - intros v Hv.
    rewrite (proj1 (Permutation_count_occ Z.eq_dec _ _) P), zseq_count.
    replace ((0 <=? v) && (v <? 0 + Z.of_nat (Z.to_nat n))) with true;
      [reflexivity |].
    symmetry. apply andb_true_iff.
    rewrite Z.leb_le, Z.ltb_lt. lia.
  - intros v Hv. apply (Permutation_in _ P) in Hv.
    apply zseq_In in Hv. lia.
Qed.

(** ** Doubles: exact conversions and comparison *)

Lemma digits2_iter_xO (p q : positive) :
  digits2_pos (Pos.iter xO p q) = (digits2_pos p + q)%positive.
Proof.
  induction q using Pos.peano_ind.
  - simpl. lia.
  - rewrite Pos.iter_succ. simpl. rewrite IHq. lia.
Qed.

Lemma iter_xO_mul (p q : positive) :
  Pos.iter xO p q = (p * Pos.iter xO 1 q)%positive.
Proof.
  induction q using Pos.peano_ind.
  - simpl. lia.
  - rewrite !Pos.iter_succ, IHq. lia.
Qed.

(** A mantissa of 53 bits with an exponent in range is not rounded. *)
Lemma binary_round_aux_canonical (s : bool) (m : positive) (e : Z) :
  Z.pos (digits2_pos m) = 53 -> -1074 <= e <= 971 ->
  binary_round_aux prec emax s (Z.pos m) e loc_Exact = S754_finite s m e.
Proof.
  intros Hd He.
  unfold binary_round_aux, shr_fexp, fexp, emin, Zdigits2, prec, emax.
  rewrite Hd.
  replace (Z.max (53 + e - 53) (3 - 1024 - 53) - e) with 0 by lia.
  cbn [shr shr_record_of_loc shr_m loc_of_shr_record round_nearest_even].
  rewrite Hd.
  replace (Z.max (53 + e - 53) (3 - 1024 - 53) - e) with 0 by lia.
  cbn [shr shr_record_of_loc shr_m].
  destruct (Z.leb_spec e (1024 - 53)); [reflexivity | lia].
Qed.

Lemma binary_round_exact (s : bool) (p : positive) (e : Z) :
  Z.pos (digits2_pos p) <= 53 ->
  -1074 <= e + Z.pos (digits2_pos p) - 53 <= 971 ->
  binary_round prec emax s p e =
  S754_finite s (shl p (53 - Z.pos (digits2_pos p)))
    (e + Z.pos (digits2_pos p) - 53).
Proof.
  intros Hd He. unfold binary_round, fexp, emin, shl_align, prec, emax.
  replace (Z.max (Z.pos (digits2_pos p) + e - 53) (3 - 1024 - 53))
    with (e + Z.pos (digits2_pos p) - 53) by lia.
  replace (e + Z.pos (digits2_pos p) - 53 - e)
    with (- (53 - Z.pos (digits2_pos p))) by lia.
  destruct (53 - Z.pos (digits2_pos p)) as [|k|k] eqn:Ek; cbn [Z.opp shl].
  - replace (e + Z.pos (digits2_pos p) - 53) with e in * by lia.
    apply binary_round_aux_canonical; lia.
  - apply binary_round_aux_canonical; [|lia].
    rewrite digits2_iter_xO. lia.
  - lia.
Qed.

(** Comparing in the other direction gives the opposite answer. *)
Lemma SFcompare_antisym (x y : double) :
  SFcompare y x = option_map CompOpp (SFcompare x y).
Proof.
  destruct x as [sx|sx| |sx mx ex], y as [sy|sy| |sy my ey]; simpl;
    try reflexivity;
    try (destruct sx; reflexivity);
    try (destruct sy; reflexivity);
    try (destruct sx, sy; reflexivity).
  change (Pos.compare_cont Eq my mx) with (Pos.compare my mx).
  change (Pos.compare_cont Eq mx my) with (Pos.compare mx my).
  rewrite (Z.compare_antisym ex ey), (Pos.compare_antisym mx my).
  destruct sx, sy; try reflexivity;
    destruct (ex ?= ey); simpl; try reflexivity.
Qed.

Lemma dlt_not_dle (x y : double) : dlt x y = true -> dle y x = false.
Proof.
  unfold dlt, dle, SFltb, SFleb. rewrite (SFcompare_antisym x y).
  destruct (SFcompare x y) as [[]|]; simpl; congruence.
Qed.

Lemma d1_eq : d1 = S754_finite false 4503599627370496 (-52).
Proof. reflexivity. Qed.

Lemma dge_d1_not_dle_d0 (p : double) : dge p d1 = true -> dle p d0 = false.
Proof.
  rewrite d1_eq. unfold dge, dle, d0, SFleb.
  destruct p as [s|s| |s m e]; simpl; try destruct s; simpl; congruence.
Qed.

Lemma lcg_range (x : rng) : 0 <= lcg x < 281474976710656.
Proof. unfold lcg. apply Z.mod_pos_bound. lia. Qed.

Lemma digits2_pos_bound (p : positive) (k : positive) :
  (Z.pos p < 2 ^ Z.pos k) -> Z.pos (digits2_pos p) <= Z.pos k.
Proof.
  revert k. induction p; intros k H.
  - destruct (Pos.eq_dec k 1) as [->|Hk]; [simpl in H; lia|].
    assert (Z.pos p < 2 ^ Z.pos (Pos.pred k)).
    { replace (Z.pos k) with (Z.succ (Z.pos (Pos.pred k))) in H by lia.
      rewrite Z.pow_succ_r in H by lia. lia. }
    apply IHp in H0. simpl. lia.
  - destruct (Pos.eq_dec k 1) as [->|Hk]; [simpl in H; lia|].
    assert (Z.pos p < 2 ^ Z.pos (Pos.pred k)).
    { replace (Z.pos k) with (Z.succ (Z.pos (Pos.pred k))) in H by lia.
      rewrite Z.pow_succ_r in H by lia. lia. }
    apply IHp in H0. simpl. lia.
  - simpl. lia.
Qed.

(** A draw is a double of [[0, 1)]. *)
Lemma draw_value_range (x : Z) :
  0 <= x < 281474976710656 ->
  dle d0 (draw_value x) = true /\ dlt (draw_value x) d1 = true.
Proof.
  intros Hx. rewrite d1_eq. unfold draw_value, binary_normalize.
  destruct x as [|p|p]; [split; reflexivity | | lia].
  assert (Hd : Z.pos (digits2_pos p) <= 48)
    by (apply (digits2_pos_bound p 48); simpl; lia).
  rewrite binary_round_exact by lia.
  split; [reflexivity |].
  unfold dlt, SFltb, SFcompare.
  destruct (Z.compare_spec (-48 + Z.pos (digits2_pos p) - 53) (-52));
    try reflexivity; lia.
Qed.

(** ** Flip selector *)

Lemma flip_fill_spec (p : double) (k : nat) :
  forall g,
    flip_fill p k g =
    (map (fun i => dle (draw_value (Nat.iter (S i) lcg g)) p) (seq 0 k),
     Nat.iter k lcg g).
Proof.
  induction k; intros g.
  - reflexivity.
  - cbn [flip_fill]. unfold drand48. rewrite IHk.
    cbn [seq map]. rewrite <- seq_shift, map_map.
    f_equal; [f_equal|].
    + apply map_ext. intros i. now rewrite <- !Nat.iter_succ_r.
    + now rewrite <- Nat.iter_succ_r.
Qed.

Lemma draw_range (seed : Z) (i : nat) :
  dle d0 (draw seed i) = true /\ dlt (draw seed i) d1 = true.
Proof.
  apply draw_value_range. unfold state_after. cbn [Nat.iter].
  apply lcg_range.
Qed.

(** C6. For every number of variables and every seed: when the
    probability is [<= 0] every entry of the array of [flip] is false,
    when it is [>= 1] every entry is true, and in both cases the
    generator is left as [srand48] has set it (no draw is made); when
    [0 < probability < 1] the entry of each variable is true exactly when
    its draw, the draw number [i] after seeding, is [<=] the probability,
    one draw is made per variable, and each draw is in [[0, 1)]. *)
Theorem flip_selector (o : options) (max_var : Z) (g : rng) :
  let p := literal_flip_probability o in
  let n := Z.to_nat max_var in
  (dle p d0 = true ->
     flip o max_var g = (repeat false n, state_after (seed o) 0)) /\
  (dge p d1 = true ->
     flip o max_var g = (repeat true n, state_after (seed o) 0)) /\
  (dlt d0 p = true -> dlt p d1 = true ->
     flip o max_var g =
       (map (fun i => dle (draw (seed o) i) p) (seq 0 n),
        state_after (seed o) n) /\
     forall i, dle d0 (draw (seed o) i) = true /\
               dlt (draw (seed o) i) d1 = true).
Proof.
  intros p n. unfold flip. fold p. fold n. repeat split.
  - intros H. now rewrite H.
  - intros H. rewrite (dge_d1_not_dle_d0 p H). now rewrite H.
  - rewrite (dlt_not_dle _ _ H).
    unfold dge. change (SFleb d1 p) with (dle d1 p).
    rewrite (dlt_not_dle _ _ H0).
    apply flip_fill_spec.
  - apply draw_range.
  - apply draw_range.
Qed.

(** ** Parser: what an accepted file is turned into *)

Lemma isdigit_range (ch : Z) : isdigit ch = true <-> 48 <= ch <= 57.
Proof.
  unfold isdigit. change (chr "0") with 48. change (chr "9") with 57.
  rewrite andb_true_iff, !Z.leb_le. tauto.
Qed.

Lemma digit_value (ch : Z) : 48 <= ch <= 57 -> int_sub ch (chr "0") = ch - 48.
Proof.
  intros H. change (chr "0") with 48. apply int_sub_small.
  unfold INT_MAX. lia.
Qed.

Lemma parse_number_range (e1 e2 : string) (file : list ascii) :
  forall n lineno v ch file' lineno',
    0 <= n <= INT_MAX ->
    parse_number e1 e2 n file lineno = Ok (v, ch, file', lineno') ->
    n <= v <= INT_MAX.
Proof.
  induction file as [|a file IH]; intros n lineno v ch file' lineno' Hn H;
    cbn [parse_number] in H.
  - inversion H; subst. lia.
  - cbv zeta in H. destruct (isdigit (chr a)) eqn:Hd.
    + apply isdigit_range in Hd.
      destruct (Z.ltb_spec (INT_MAX / 10) n); [discriminate|].
      change (INT_MAX / 10) with 214748364 in *.
      rewrite digit_value in H by assumption.
      rewrite int_mul_small in H by (unfold INT_MAX; lia).
      rewrite int_sub_small in H by (unfold INT_MAX; lia).
      destruct (Z.ltb_spec (INT_MAX - (chr a - 48)) (n * 10));
        [discriminate|].
      rewrite int_add_small in H by (unfold INT_MAX in *; lia).
      apply IH in H; unfold INT_MAX in *; lia.
    + inversion H; subst. lia.
Qed.

Lemma parse_sign_ok (ch : Z) (file : list ascii) (lineno : Z)
    (sign ch' : Z) (file' : list ascii) (lineno' : Z) :
  parse_sign ch file lineno = Ok (sign, ch', file', lineno') ->
  48 <= ch' <= 57 /\ (sign = 1 \/ sign = -1 /\ ch' <> 48).
Proof.
  unfold parse_sign. destruct (ch =? chr "-").
  - destruct (next_char file lineno) as [[c f] l].
    destruct (isdigit c) eqn:Hd; cbn [negb]; [|discriminate].
    change (chr "0") with 48.
    destruct (Z.eqb_spec c 48); [discriminate|].
    intros H; inversion H; subst. apply isdigit_range in Hd. auto.
  - destruct (isdigit ch) eqn:Hd; cbn [negb]; [|discriminate].
    intros H; inversion H; subst. apply isdigit_range in Hd. auto.
Qed.

Lemma parse_clauses_ok (fuel : nat) (mv spec : Z) :
  0 <= mv <= INT_MAX -> 0 <= spec <= INT_MAX ->
  forall ch file lineno nc cls lits c,
    0 <= nc <= spec ->
    Z.of_nat (List.length cls) = nc ->
    Forall (clause_ok mv) cls ->
    Forall (literal_ok mv) lits ->
    parse_clauses fuel mv spec ch file lineno nc cls lits = Ok c ->
    cnf_ok c.
Proof.
  intros Hmv Hspec.
  induction fuel as [|fuel IH];
    intros ch file lineno nc cls lits c Hnc Hlen Hcls Hlits H;
    cbn [parse_clauses] in H; [discriminate|].
  destruct (space ch).
  { destruct (next_char file lineno) as [[ch1 f1] l1]. eapply IH; eauto. }
  destruct (ch =? EOF).
  { destruct (negb (Z.of_nat (List.length lits) =? 0)); [discriminate|].
    destruct (Z.ltb_spec nc spec); [discriminate|].
    inversion H; subst c.
    constructor; cbn [max_var num_clauses clauses]; auto; lia. }
  destruct (ch =? chr "c").
  { destruct (skip_comment file lineno) as [[ch1 f1] l1]. eapply IH; eauto. }
  destruct (parse_sign ch file lineno) as [[[[sign ch1] f1] l1]|e] eqn:Hs;
    [|discriminate].
  apply parse_sign_ok in Hs. destruct Hs as [Hd Hsign].
  rewrite (proj2 (isdigit_range ch1) Hd) in H. cbn [negb] in H.
  rewrite digit_value in H by assumption.
  destruct (parse_number _ _ (ch1 - 48) f1 l1) as [[[[idx ch2] f2] l2]|e]
    eqn:Hn; [|discriminate].
  apply parse_number_range in Hn; [|unfold INT_MAX; lia].
  destruct (Z.gtb_spec idx mv); [discriminate|].
  destruct (negb (space ch2) && negb (ch2 =? chr "c") && negb (ch2 =? EOF)).
  { destruct (isprint ch2); discriminate. }
  destruct (Z.eqb_spec nc spec); [discriminate|].
  assert (Hlit : int_mul sign idx = sign * idx).
  { apply int_mul_small. unfold INT_MAX in *.
    destruct Hsign as [->|[-> _]]; lia. }
  rewrite Hlit in H.
  destruct (Z.eqb_spec (sign * idx) 0); cbn [negb] in H.
  - destruct (Z.ltb_spec nc spec); cbn [negb] in H; [|discriminate].
    rewrite int_add_small in H by (unfold INT_MAX in *; lia).
    eapply IH; [| | | |exact H]; auto; try lia.
    + rewrite length_app, Nat2Z.inj_add. cbn. lia.
    + apply Forall_app. split; [assumption|].
      constructor; [|constructor]. exists lits. auto.
  - eapply IH; [| | | |exact H]; auto.
    apply Forall_app. split; [assumption|].
    constructor; [|constructor]. split; [assumption|].
    destruct Hsign as [->|[-> _]]; lia.
Qed.

Lemma parse_ok (file : list ascii) (c : cnf) : parse file = Ok c -> cnf_ok c.
Proof.
  unfold parse.
  destruct (parse_preamble _ file 1) as [[f0 l0]|e]; [|discriminate].
  destruct (parse_keyword _ f0 l0) as [[f1 l1]|e]; [|discriminate].
  destruct (next_char f1 l1) as [[ch2 f2] l2].
  destruct (isdigit ch2) eqn:Hd2; cbn [negb]; [|discriminate].
  apply isdigit_range in Hd2. rewrite digit_value by assumption.
  destruct (parse_number _ _ (ch2 - 48) f2 l2) as [[[[mv ch3] f3] l3]|e]
    eqn:Hmv; [|discriminate].
  apply parse_number_range in Hmv; [|unfold INT_MAX; lia].
  destruct (negb (ch3 =? chr " ")); [discriminate|].
  destruct (next_char f3 l3) as [[ch4 f4] l4].
  destruct (isdigit ch4) eqn:Hd4; cbn [negb]; [|discriminate].
  apply isdigit_range in Hd4. rewrite digit_value by assumption.
  destruct (parse_number _ _ (ch4 - 48) f4 l4) as [[[[spec ch5] f5] l5]|e]
    eqn:Hspec; [|discriminate].
  apply parse_number_range in Hspec; [|unfold INT_MAX; lia].
  destruct (header_rest ch5 f5 l5) as [[f6 l6]|e]; [|discriminate].
  destruct (next_char f6 l6) as [[ch7 f7] l7].
  apply parse_clauses_ok; auto; try lia.
Qed.

(** ** Scrambling maps of a parsed CNF *)

Lemma flip_length (o : options) (max_var : Z) (g : rng) :
  List.length (fst (flip o max_var g)) = Z.to_nat max_var.
Proof.
  unfold flip.
  destruct (dle (literal_flip_probability o) d0);
    [apply repeat_length|].
  destruct (dge (literal_flip_probability o) d1);
    [apply repeat_length|].
  rewrite flip_fill_spec. cbn [fst]. now rewrite length_map, length_seq.
Qed.

Lemma scramble_maps (o : options) (c : cnf) (g : rng) :
  fst (scramble o c g) =
  {| variable_map :=
       fst (rank o (max_var c) (permute_variables o)
              (variable_move_window o) g);
     clause_map :=
       fst (rank o (num_clauses c) (permute_clauses o)
              (clause_move_window o) g);
     flipped := fst (flip o (max_var c) g) |}.
Proof.
  unfold scramble, rank, flip.
  repeat match goal with
         | |- context [let (_, _) := ?x in _] => destruct x
         | |- context [if ?b then _ else _] => destruct b
         end; reflexivity.
Qed.

Lemma scramble_ok (o : options) (c : cnf) (g : rng) :
  cnf_ok c -> maps_ok c (fst (scramble o c g)).
Proof.
  intros [Hmv Hnc _ _]. rewrite scramble_maps.
  constructor; cbn [variable_map clause_map flipped].
  - now apply rank_perm.
  - now apply rank_perm.
  - apply flip_length.
Qed.

(** A permutation of [0 .. n-1] read as an array. *)
Lemma perm_length (l : list Z) (n : nat) :
  Permutation l (zseq 0 n) -> List.length l = n.
Proof. intros P. now rewrite (Permutation_length P), zseq_length. Qed.

Lemma perm_nth_range (l : list Z) (n k : nat) :
  Permutation l (zseq 0 n) -> (k < n)%nat -> 0 <= nth k l 0 < Z.of_nat n.
Proof.
  intros P Hk. assert (In (nth k l 0) l) as Hin.
  { apply nth_In. now rewrite (perm_length l n P). }
  apply (Permutation_in _ P), zseq_In in Hin. lia.
Qed.

Lemma perm_NoDup (l : list Z) (n : nat) :
  Permutation l (zseq 0 n) -> NoDup l.
Proof.
  intros P. apply (Permutation_NoDup (Permutation_sym P)), zseq_NoDup.
Qed.

Lemma array_get_nth {A : Type} (a : list A) (i : Z) (d : A) :
  0 <= i < Z.of_nat (List.length a) ->
  array_get a i = Some (nth (Z.to_nat i) a d).
Proof.
  intros H. apply array_get_Some. split; [lia|].
  apply nth_error_nth'. lia.
Qed.

(** ** Printer: the literal and the clause that are written *)

Lemma literals_of_app (max_var : Z) (lits : list Z) :
  Forall (literal_ok max_var) lits -> literals_of (lits ++ [0]) = lits.
Proof.
  induction 1 as [|x l [Hx _] _ IH]; cbn [literals_of app].
  - reflexivity.
  - destruct (Z.eqb_spec x 0); [contradiction|]. now rewrite IH.
Qed.

Lemma wrap_sub_l (a b : Z) : wrap (wrap a - b) = wrap (a - b).
Proof.
  unfold wrap. f_equal.
  replace ((a + 2147483648) mod 4294967296 - 2147483648 - b + 2147483648)
    with ((a + 2147483648) mod 4294967296 - b) by lia.
  rewrite Zminus_mod_idemp_l. f_equal. lia.
Qed.

Lemma literal_index_range (o : options) (mv src : Z) :
  literal_ok mv src -> 1 <= literal_index o mv src <= mv.
Proof.
  unfold literal_ok, literal_index. destruct (reverse_variables o); lia.
Qed.

Lemma literal_index_code (o : options) (mv src : Z) :
  0 <= mv <= INT_MAX -> literal_ok mv src ->
  (if reverse_variables o then int_sub (int_add mv 1) (abs src)
   else abs src) = literal_index o mv src.
Proof.
  intros Hmv Hsrc. pose proof (literal_index_range o mv src Hsrc) as Hr.
  unfold literal_index in *. destruct Hsrc as [Hnz Hsrc].
  assert (abs src = Z.abs src) as ->.
  { unfold abs. destruct (Z.ltb_spec src 0); [|lia].
    rewrite int_neg_small; unfold INT_MAX in *; lia. }
  destruct (reverse_variables o); [|reflexivity].
  unfold int_sub, int_add. rewrite wrap_sub_l.
  apply wrap_small. unfold INT_MAX in *. lia.
Qed.

Lemma print_literal_spec (o : options) (c : cnf) (m : maps) (src : Z) :
  0 <= max_var c <= INT_MAX -> maps_ok c m -> literal_ok (max_var c) src ->
  print_literal o (max_var c) m src
  = Ok (scrambled_literal o (max_var c) m src).
Proof.
  intros Hmv [Pv _ Hf] Hsrc.
  pose proof (literal_index_range o _ src Hsrc) as Hidx.
  unfold print_literal, scrambled_literal.
  rewrite (literal_index_code o _ src Hmv Hsrc).
  set (idx := literal_index o (max_var c) src) in *.
  destruct (Z.leb_spec 1 idx); [|lia].
  destruct (Z.leb_spec idx (max_var c)); [|lia]. cbn [negb].
  rewrite int_sub_small by (unfold INT_MAX in *; lia).
  pose proof (perm_length _ _ Pv) as Hlv.
  pose proof (perm_nth_range _ _ (Z.to_nat (idx - 1)) Pv) as Hv.
  rewrite (array_get_nth (variable_map m) (idx - 1) 0) by lia.
  rewrite (array_get_nth (flipped m) (idx - 1) false) by lia.
  set (v := nth (Z.to_nat (idx - 1)) (variable_map m) 0) in *.
  assert (0 <= v < max_var c) as Hvr by lia.
  rewrite int_add_small by (unfold INT_MAX in *; lia).
  destruct (Z.leb_spec 1 (v + 1)); [|lia].
  destruct (Z.leb_spec (v + 1) (max_var c)); [|lia]. cbn [negb].
  f_equal.
  destruct (src <? 0), (nth (Z.to_nat (idx - 1)) (flipped m) false);
    cbn [xorb];
    rewrite ?(int_neg_small (v + 1)), ?(int_neg_small (- (v + 1)));
    unfold INT_MAX in *; lia.
Qed.

Lemma print_literals_spec (o : options) (c : cnf) (m : maps)
    (lits : list Z) :
  0 <= max_var c <= INT_MAX -> maps_ok c m ->
  Forall (literal_ok (max_var c)) lits ->
  print_literals o (max_var c) m (lits ++ [0])
  = Ok (map (scrambled_literal o (max_var c) m) lits).
Proof.
  intros Hmv Hm. induction 1 as [|x l Hx _ IH]; cbn [print_literals app map].
  - reflexivity.
  - destruct (Z.eqb_spec x 0); [destruct Hx; contradiction|].
    now rewrite (print_literal_spec o c m x Hmv Hm Hx), IH.
Qed.

Lemma clause_source_range (o : options) (c : cnf) (m : maps) (i : Z) :
  maps_ok c m -> 0 <= i < num_clauses c ->
  0 <= clause_source o c m i < num_clauses c.
Proof.
  intros [_ Pc _] Hi.
  pose proof (perm_nth_range _ _ (Z.to_nat i) Pc) as H.
  unfold clause_source. destruct (reverse_clauses o); lia.
Qed.

Lemma print_source_spec (o : options) (c : cnf) (m : maps) (i : Z) :
  cnf_ok c -> maps_ok c m -> 0 <= i < num_clauses c ->
  print_source o c m i = Ok (clause_source o c m i).
Proof.
  intros [_ Hnc _ _] Hm Hi.
  pose proof (clause_source_range o c m i Hm Hi) as Hr.
  destruct Hm as [_ Pc _].
  pose proof (perm_length _ _ Pc) as Hl.
  pose proof (perm_nth_range _ _ (Z.to_nat i) Pc) as Hj.
  unfold print_source, clause_source in *.
  rewrite (array_get_nth (clause_map m) i 0) by lia.
  set (j := nth (Z.to_nat i) (clause_map m) 0) in *.
  assert ((if reverse_clauses o
           then int_sub (int_sub (num_clauses c) 1) j else j)
          = (if reverse_clauses o then num_clauses c - 1 - j else j)) as ->.
  { destruct (reverse_clauses o); [|reflexivity].
    rewrite (int_sub_small (num_clauses c) 1)
      by (unfold INT_MAX in *; lia).
    apply int_sub_small. unfold INT_MAX in *. lia. }
  destruct (Z.leb_spec 0 (if reverse_clauses o
                          then num_clauses c - 1 - j else j)); [|lia].
  destruct (Z.ltb_spec (if reverse_clauses o
                        then num_clauses c - 1 - j else j)
              (num_clauses c)); [|lia].
  reflexivity.
Qed.

Lemma print_clauses_spec (o : options) (c : cnf) (m : maps) :
  cnf_ok c -> maps_ok c m ->
  forall k i, 0 <= i -> i + Z.of_nat k <= num_clauses c ->
    print_clauses o c m k i = Ok (map (scrambled_clause o c m) (zseq i k)).
Proof.
  intros Hc Hm. induction k as [|k IH]; intros i Hi Hk.
  - reflexivity.
  - rewrite Nat2Z.inj_succ in Hk. cbn [print_clauses zseq map].
    rewrite (print_source_spec o c m i Hc Hm) by lia.
    pose proof (clause_source_range o c m i Hm) as Hj.
    destruct Hc as [Hmv Hnc Hlen Hcls].
    rewrite (array_get_nth (clauses c) _ []) by lia.
    unfold scrambled_clause at 1.
    set (p := nth (Z.to_nat (clause_source o c m i)) (clauses c) []).
    assert (clause_ok (max_var c) p) as [lits [Ep Hlits]].
    { apply (proj1 (Forall_forall _ _) Hcls). apply nth_In. lia. }
    rewrite Ep, (literals_of_app _ _ Hlits).
    rewrite (print_literals_spec o c m lits Hmv Hm Hlits).
    rewrite int_add_small by (unfold INT_MAX in *; lia).
    rewrite IH by lia. reflexivity.
Qed.

Lemma emit_spec (o : options) (c : cnf) (m : maps) :
  cnf_ok c -> maps_ok c m ->
  emit o c m
  = Ok (map (scrambled_clause o c m) (zseq 0 (Z.to_nat (num_clauses c)))).
Proof.
  intros Hc Hm. apply print_clauses_spec; auto; try lia.
  destruct Hc. lia.
Qed.

(** ** Undoing the scrambling *)

Lemma index_of_nth (l : list Z) :
  NoDup l -> forall k, (k < List.length l)%nat ->
  index_of (nth k l 0) l = Z.of_nat k.
Proof.
  induction 1 as [|x l Hx Hl IH]; intros k Hk; cbn [List.length] in Hk.
  - lia.
  - destruct k as [|k]; cbn [nth index_of].
    + now rewrite Z.eqb_refl.
    + destruct (Z.eqb_spec x (nth k l 0)) as [E|E].
      * exfalso. apply Hx. rewrite E. apply nth_In. lia.
      * rewrite IH by lia. lia.
Qed.

Lemma unscramble_scrambled (o : options) (c : cnf) (m : maps) (src : Z) :
  maps_ok c m -> literal_ok (max_var c) src ->
  unscramble_literal o (max_var c) m
    (scrambled_literal o (max_var c) m src) = src.
Proof.
  intros [Pv _ _] Hsrc.
  pose proof (literal_index_range o _ src Hsrc) as Hidx.
  pose proof (perm_length _ _ Pv) as Hlv.
  pose proof (perm_nth_range _ _
                (Z.to_nat (literal_index o (max_var c) src - 1)) Pv) as Hv.
  pose proof (index_of_nth _ (perm_NoDup _ _ Pv)
                (Z.to_nat (literal_index o (max_var c) src - 1))) as Hi.
  unfold unscramble_literal, scrambled_literal.
  set (idx := literal_index o (max_var c) src) in *.
  set (v := nth (Z.to_nat (idx - 1)) (variable_map m) 0) in *.
  set (f := nth (Z.to_nat (idx - 1)) (flipped m) false).
  assert (Z.abs (if xorb (src <? 0) f then - (v + 1) else v + 1) - 1 = v)
    as -> by (destruct (xorb (src <? 0) f); lia).
  rewrite Hi by lia.
  replace (Z.of_nat (Z.to_nat (idx - 1)) + 1 - 1) with (idx - 1) by lia.
  fold f.
  assert (((if xorb (src <? 0) f then - (v + 1) else v + 1) <? 0)
          = xorb (src <? 0) f) as ->.
  { destruct (xorb (src <? 0) f); [apply Z.ltb_lt | apply Z.ltb_ge]; lia. }
  rewrite xorb_assoc, xorb_nilpotent, xorb_false_r.
  replace (Z.of_nat (Z.to_nat (idx - 1)) + 1) with idx by lia.
  unfold idx, literal_index. destruct Hsrc as [Hnz Hr].
  destruct (Z.ltb_spec src 0), (reverse_variables o); lia.
Qed.

Lemma map_nth_zseq {A : Type} (l : list A) (d : A) :
  map (fun j => nth (Z.to_nat j) l d) (zseq 0 (List.length l)) = l.
Proof.
  apply nth_error_ext. intros k.
  destruct (Nat.lt_ge_cases k (List.length l)) as [H|H].
  - rewrite nth_error_map, zseq_nth_error by assumption. cbn [option_map].
    rewrite (nth_error_nth' l d H). do 2 f_equal. lia.
  - rewrite (proj2 (nth_error_None l k) H).
    apply nth_error_None. now rewrite length_map, zseq_length.
Qed.

Lemma reverse_perm (n : Z) (k : nat) :
  n = Z.of_nat k ->
  Permutation (map (fun j => n - 1 - j) (zseq 0 k)) (zseq 0 k).
Proof.
  intros Hn. apply NoDup_Permutation.
  - apply Finite.Injective_map_NoDup; [|apply zseq_NoDup].
    intros x y H. lia.
  - apply zseq_NoDup.
  - intros y. rewrite in_map_iff, zseq_In. split.
    + intros [x [<- Hx]]. apply zseq_In in Hx. lia.
    + intros Hy. exists (n - 1 - y). rewrite zseq_In. lia.
Qed.

(** The source clauses of the output positions, in the order of the
    output, are a permutation of the clause indices. *)
Lemma clause_sources_perm (o : options) (c : cnf) (m : maps) :
  cnf_ok c -> maps_ok c m ->
  Permutation
    (map (clause_source o c m) (zseq 0 (Z.to_nat (num_clauses c))))
    (zseq 0 (Z.to_nat (num_clauses c))).
Proof.
  intros [_ Hnc _ _] [_ Pc _].
  pose proof (perm_length _ _ Pc) as Hl.
  assert (map (clause_source o c m) (zseq 0 (Z.to_nat (num_clauses c)))
          = map (fun j => if reverse_clauses o
                          then num_clauses c - 1 - j else j)
              (clause_map m)) as ->.
  { rewrite <- (map_nth_zseq (clause_map m) 0) at 1.
    rewrite map_map, Hl. reflexivity. }
  destruct (reverse_clauses o).
  - rewrite (Permutation_map _ Pc). apply reverse_perm. lia.
  - now rewrite map_id.
Qed.

(** ** The scrambled formula *)

Lemma parsed_maps (file : list ascii) (c : cnf) (o : options) (g : rng) :
  parse file = Ok c -> cnf_ok c /\ maps_ok c (fst (scramble o c g)).
Proof.
  intros H. apply parse_ok in H. split; [assumption|].
  now apply scramble_ok.
Qed.

Lemma clause_literals_ok (c : cnf) (p : list Z) (src : Z) :
  cnf_ok c -> In p (clauses c) -> In src (literals_of p) ->
  literal_ok (max_var c) src.
Proof.
  intros [_ _ _ Hcls] Hp Hsrc.
  destruct (proj1 (Forall_forall _ _) Hcls p Hp) as [lits [-> Hlits]].
  rewrite (literals_of_app _ _ Hlits) in Hsrc.
  exact (proj1 (Forall_forall _ _) Hlits src Hsrc).
Qed.

Lemma Forall2_map_same {A B : Type} (R : A -> B -> Prop) (f : A -> B)
    (l : list A) :
  (forall x, In x l -> R x (f x)) -> Forall2 R l (map f l).
Proof.
  induction l as [|x l IH]; intros H; cbn [map]; constructor.
  - apply H. now left.
  - apply IH. intros y Hy. apply H. now right.
Qed.

Lemma emit_nth (o : options) (c : cnf) (m : maps) (i : Z) :
  0 <= i < num_clauses c ->
  nth_error (map (scrambled_clause o c m) (zseq 0 (Z.to_nat (num_clauses c))))
    (Z.to_nat i)
  = Some (scrambled_clause o c m i).
Proof.
  intros Hi. rewrite nth_error_map, zseq_nth_error by lia.
  cbn [option_map]. do 2 f_equal. lia.
Qed.

Lemma scrambled_literal_written (o : options) (c : cnf) (m : maps)
    (src : Z) :
  maps_ok c m -> literal_ok (max_var c) src ->
  written o (max_var c) m src (scrambled_literal o (max_var c) m src).
Proof.
  intros [Pv _ Hf] Hsrc.
  pose proof (literal_index_range o _ src Hsrc) as Hidx.
  pose proof (perm_length _ _ Pv) as Hlv.
  pose proof (perm_nth_range _ _
                (Z.to_nat (literal_index o (max_var c) src - 1)) Pv) as Hv.
  unfold written, scrambled_literal.
  set (idx := literal_index o (max_var c) src) in *.
  set (v := nth (Z.to_nat (idx - 1)) (variable_map m) 0) in *.
  set (f := nth (Z.to_nat (idx - 1)) (flipped m) false).
  exists v, f. repeat split.
  - apply array_get_nth. lia.
  - apply array_get_nth. lia.
  - destruct (xorb (src <? 0) f); lia.
  - destruct (xorb (src <? 0) f); [apply Z.ltb_lt | apply Z.ltb_ge]; lia.
Qed.

(** C4, as amended. For every output position [i], [print] takes the
    source clause [j = clause_map[i]], replaced by [num_clauses - 1 - j]
    with [-R] (the reversal is applied to the value looked up); each
    literal of this clause is written, in the order of the clause, with
    the variable [variable_map[idx - 1] + 1], where [idx] is the variable
    of the literal, replaced by [max_var + 1 - idx] with [-r], and the
    written literal is negative exactly when one of "the original
    literal is negative", "[flipped[idx - 1]] is set" holds and not the
    other. *)
Theorem print_applies_maps (file : list ascii) (c : cnf) (o : options)
    (g : rng) :
  parse file = Ok c ->
  let m := fst (scramble o c g) in
  exists out,
    emit o c m = Ok out /\
    Z.of_nat (List.length out) = num_clauses c /\
    forall i, 0 <= i < num_clauses c ->
      exists j p ds,
        array_get (clause_map m) i = Some j /\
        array_get (clauses c)
          (if reverse_clauses o then num_clauses c - 1 - j else j) = Some p /\
        nth_error out (Z.to_nat i) = Some ds /\
        Forall2 (written o (max_var c) m) (literals_of p) ds.
Proof.
  intros H m. destruct (parsed_maps file c o g H) as [Hc Hm]. fold m in Hm.
  eexists. split; [apply (emit_spec o c m Hc Hm)|]. split.
  { rewrite length_map, zseq_length. destruct Hc. lia. }
  intros i Hi.
  pose proof (clause_source_range o c m i Hm Hi) as Hj.
  pose proof (perm_length _ _ (clause_map_perm c m Hm)) as Hl.
  pose proof (num_clauses_length c Hc) as Hlen.
  exists (nth (Z.to_nat i) (clause_map m) 0),
    (nth (Z.to_nat (clause_source o c m i)) (clauses c) []),
    (scrambled_clause o c m i).
  repeat split.
  - apply array_get_nth. lia.
  - apply array_get_nth. fold (clause_source o c m i). lia.
  - now apply emit_nth.
  - apply Forall2_map_same. intros src Hsrc.
    apply scrambled_literal_written; [assumption|].
    eapply (clause_literals_ok c _ src Hc); [|exact Hsrc].
    apply nth_In. lia.
Qed.

Lemma sample_parsed : parse sample_file = Ok sample_cnf.
Proof. reflexivity. Qed.

(** C4, as stated, fails: for the input [-1] without any flip, [print]
    writes [-1], a negative literal, where the sign rule of the
    specification, read as it is worded, gives a positive one. *)
Lemma stated_sign_counterexample :
  exists c,
    parse (line "p cnf 1 1" ++ line "-1 0") = Ok c /\
    clauses c = [[-1; 0]] /\
    emit plain_options c (fst (scramble plain_options c 0)) = Ok [[-1]] /\
    ~ written_as_stated plain_options (max_var c)
        (fst (scramble plain_options c 0)) (-1) (-1).
Proof.
  exists {| max_var := 1; num_clauses := 1; clauses := [[-1; 0]] |}.
  repeat split.
  intros [v [f [Hv [Hf [_ Hs]]]]].
  vm_compute in Hf. inversion Hf; subst f. discriminate Hs.
Qed.

Lemma print_applies_maps_witness :
  exists out,
    emit busy_options sample_cnf (fst (scramble busy_options sample_cnf 0))
    = Ok out /\ Z.of_nat (List.length out) = 3.
Proof.
  destruct (print_applies_maps sample_file sample_cnf busy_options 0
              sample_parsed) as [out [H1 [H2 _]]].
  exists out. split; assumption.
Defined.

(** C9. For every CNF that [parse] returns and the maps that [scramble]
    computes for it, under every combination of options: [print] meets
    no failed assertion and no read outside of an array; the clause
    index [j], reversed or not, is in [[0, num_clauses)]; the variable
    index [idx] of every literal of every clause, reversed or not
    (computed with the wrap-around of [int]), is in [[1, max_var]], and
    [variable_map[idx - 1] + 1] is in [[1, max_var]]. *)
Theorem print_in_bounds (file : list ascii) (c : cnf) (o : options)
    (g : rng) :
  parse file = Ok c ->
  let m := fst (scramble o c g) in
  (exists out, emit o c m = Ok out) /\
  (forall i, 0 <= i < num_clauses c ->
     exists j, print_source o c m i = Ok j /\ 0 <= j < num_clauses c /\
               exists p, array_get (clauses c) j = Some p) /\
  (forall p src, In p (clauses c) -> In src (literals_of p) ->
     let idx := if reverse_variables o
                then int_sub (int_add (max_var c) 1) (abs src)
                else abs src in
     1 <= idx <= max_var c /\
     (exists v, array_get (variable_map m) (int_sub idx 1) = Some v /\
                1 <= int_add v 1 <= max_var c) /\
     (exists f, array_get (flipped m) (int_sub idx 1) = Some f) /\
     (exists dst, print_literal o (max_var c) m src = Ok dst)).
Proof.
  intros H m. destruct (parsed_maps file c o g H) as [Hc Hm]. fold m in Hm.
  split; [|split].
  - eexists. apply (emit_spec o c m Hc Hm).
  - intros i Hi. exists (clause_source o c m i).
    pose proof (clause_source_range o c m i Hm Hi) as Hj.
    split; [now apply print_source_spec|]. split; [assumption|].
    apply array_get_in_range. rewrite (num_clauses_length c Hc). assumption.
  - intros p src Hp Hsrc.
    pose proof (clause_literals_ok c p src Hc Hp Hsrc) as Hok.
    pose proof (max_var_range c Hc) as Hmv.
    rewrite (literal_index_code o _ src Hmv Hok). cbv zeta.
    pose proof (literal_index_range o _ src Hok) as Hidx.
    set (idx := literal_index o (max_var c) src) in *.
    pose proof (perm_length _ _ (variable_map_perm c m Hm)) as Hlv.
    pose proof (perm_nth_range _ _ (Z.to_nat (idx - 1))
                  (variable_map_perm c m Hm)) as Hv.
    pose proof (flipped_length c m Hm) as Hlf.
    rewrite int_sub_small by (unfold INT_MAX in *; lia).
    split; [assumption|]. split; [|split].
    + exists (nth (Z.to_nat (idx - 1)) (variable_map m) 0). split.
      * apply array_get_nth. lia.
      * rewrite int_add_small; unfold INT_MAX in *; lia.
    + apply array_get_in_range. lia.
    + eexists. now apply print_literal_spec.
Qed.

Lemma print_in_bounds_witness :
  exists out,
    emit busy_options sample_cnf (fst (scramble busy_options sample_cnf 0))
    = Ok out.
Proof.
  exact (proj1 (print_in_bounds sample_file sample_cnf busy_options 0
                  sample_parsed)).
Defined.

(** ** Windows of width zero *)

Lemma digits2_pos_size (p : positive) : digits2_pos p = Pos.size p.
Proof. induction p; simpl; now rewrite ?IHp. Qed.

Lemma digits2_pos_lower (p : positive) :
  2 ^ Z.pos (digits2_pos p) <= 2 * Z.pos p.
Proof.
  rewrite digits2_pos_size. pose proof (Pos.size_le p) as H.
  apply Pos2Z.pos_le_pos in H. rewrite Pos2Z.inj_pow in H. exact H.
Qed.

Lemma digits2_pos_upper (p : positive) : Z.pos p < 2 ^ Z.pos (digits2_pos p).
Proof.
  rewrite digits2_pos_size. pose proof (Pos.size_gt p) as H.
  apply Pos2Z.pos_lt_pos in H. rewrite Pos2Z.inj_pow in H. exact H.
Qed.

Lemma digits2_pos_mono (p q : positive) :
  (p < q)%positive -> Z.pos (digits2_pos p) <= Z.pos (digits2_pos q).
Proof.
  intros H. destruct (Z.le_gt_cases (Z.pos (digits2_pos p))
                        (Z.pos (digits2_pos q))) as [|Hgt]; [assumption|].
  exfalso.
  pose proof (digits2_pos_lower p) as Hp.
  pose proof (digits2_pos_upper q) as Hq.
  assert (2 ^ Z.succ (Z.pos (digits2_pos q)) <= 2 ^ Z.pos (digits2_pos p))
    as Hpow by (apply Z.pow_le_mono_r; lia).
  rewrite Z.pow_succ_r in Hpow by lia. lia.
Qed.

Lemma int_digits (p : positive) :
  Z.pos p <= INT_MAX -> Z.pos (digits2_pos p) <= 31.
Proof.
  intros H. apply (digits2_pos_bound p 31). unfold INT_MAX in H.
  change (2 ^ 31) with 2147483648. lia.
Qed.

Lemma of_int_pos (p : positive) :
  Z.pos p <= INT_MAX ->
  of_int (Z.pos p) =
  S754_finite false (shl p (53 - Z.pos (digits2_pos p)))
    (0 + Z.pos (digits2_pos p) - 53).
Proof.
  intros H. apply int_digits in H. unfold of_int, binary_normalize.
  apply binary_round_exact; lia.
Qed.

Lemma shl_compare (p q : positive) (k : Z) :
  (p < q)%positive -> Pos.compare_cont Eq (shl p k) (shl q k) = Lt.
Proof.
  intros H. change (Pos.compare_cont Eq (shl p k) (shl q k))
    with (Pos.compare (shl p k) (shl q k)).
  destruct k as [|k|k]; cbn [shl]; try exact H.
  rewrite (iter_xO_mul p), (iter_xO_mul q).
  now apply Pos.mul_lt_mono_r.
Qed.

(** The conversion of [int] to [double] is increasing. *)
Lemma of_int_lt (i j : Z) :
  0 <= i < j -> j <= INT_MAX -> dlt (of_int i) (of_int j) = true.
Proof.
  intros Hij Hj. destruct j as [|q|q]; try lia.
  rewrite (of_int_pos q Hj).
  destruct i as [|p|p]; try lia.
  - reflexivity.
  - rewrite (of_int_pos p) by lia.
    assert (p < q)%positive as Hpq by lia.
    pose proof (digits2_pos_mono p q Hpq) as Hd.
    unfold dlt, SFltb, SFcompare.
    destruct (Z.compare_spec (0 + Z.pos (digits2_pos p) - 53)
                (0 + Z.pos (digits2_pos q) - 53)) as [E|E|E].
    + assert (digits2_pos p = digits2_pos q) as -> by lia.
      now rewrite shl_compare.
    + reflexivity.
    + lia.
Qed.

Lemma is_zero (w : double) : SFeqb w d0 = true -> exists s, w = S754_zero s.
Proof.
  destruct w as [s|s| |s m e]; cbn; try discriminate.
  - intros _. now exists s.
  - destruct s; discriminate.
  - destruct s; discriminate.
Qed.

Lemma draw_value_shape (x : Z) :
  0 <= x < 281474976710656 ->
  draw_value x = S754_zero false \/
  exists m e, draw_value x = S754_finite false m e.
Proof.
  intros Hx. unfold draw_value, binary_normalize.
  destruct x as [|p|p]; [now left | right | lia].
  assert (Hd : Z.pos (digits2_pos p) <= 48)
    by (apply (digits2_pos_bound p 48); simpl; lia).
  rewrite binary_round_exact by lia. eauto.
Qed.

Lemma of_int_add_zero (i : Z) (s : bool) :
  0 <= i <= INT_MAX -> dadd (of_int i) (S754_zero s) = of_int i.
Proof.
  intros Hi. destruct i as [|p|p]; try lia.
  - destruct s; reflexivity.
  - rewrite (of_int_pos p) by lia. reflexivity.
Qed.

(** The key of the entry [i] when the width of the window is zero. *)
Lemma window_zero_key (o : options) (n i : Z) (s : bool) (g : rng) :
  0 <= i < n -> n <= INT_MAX ->
  let tmp := dmul (fst (drand48 g)) (S754_zero s) in
  let tmp := if negb (absolute_windows o) then dmul tmp (of_int n) else tmp in
  dadd (of_int i) tmp = of_int i.
Proof.
  intros Hi Hn. unfold drand48. cbn [fst].
  assert (exists s', dmul (binary_normalize prec emax (lcg g) (-48) false)
                       (S754_zero s) = S754_zero s') as [s' ->].
  { destruct (draw_value_shape (lcg g) (lcg_range g)) as [E|[m [e E]]];
      unfold draw_value in E; rewrite E; cbn; eauto. }
  cbv zeta.
  assert (exists s'', (if negb (absolute_windows o)
                       then dmul (S754_zero s') (of_int n)
                       else S754_zero s') = S754_zero s'') as [s'' ->].
  { destruct (absolute_windows o); cbn [negb]; [eauto|].
    destruct n as [|q|q]; try lia. rewrite (of_int_pos q Hn). cbn. eauto. }
  apply of_int_add_zero. lia.
Qed.

Lemma rank_fill_window_zero (o : options) (n : Z) (s : bool) (k : nat) :
  n <= INT_MAX ->
  forall i g, 0 <= i -> i + Z.of_nat k <= n ->
    fst (rank_fill o n false (S754_zero s) k i g) = map plain_rank (zseq i k).
Proof.
  intros Hn. induction k; intros i g Hi Hk.
  - reflexivity.
  - rewrite Nat2Z.inj_succ in Hk. cbn [rank_fill zseq map].
    pose proof (window_zero_key o n i s g) as Hkey.
    destruct (drand48 g) as [u g1]. cbn [fst] in Hkey.
    specialize (IHk (int_add i 1) g1).
    destruct (rank_fill o n false (S754_zero s) k (int_add i 1) g1)
      as [ranks g2].
    rewrite int_add_small in IHk by (unfold INT_MAX in *; lia).
    cbn [fst] in *. rewrite IHk by lia.
    cbv zeta in Hkey. rewrite Hkey by lia. reflexivity.
Qed.

Lemma plain_ranks_sorted (k : nat) :
  forall i, 0 <= i -> i + Z.of_nat k <= INT_MAX + 1 ->
  ForallOrdPairs (fun x y => cmp_rank x y <= 0) (map plain_rank (zseq i k)).
Proof.
  induction k; intros i Hi Hk; cbn [zseq map]; constructor.
  - apply Forall_forall. intros y Hy. apply in_map_iff in Hy.
    destruct Hy as [j [<- Hj]]. apply zseq_In in Hj.
    unfold cmp_rank, plain_rank. cbn [src dst].
    rewrite of_int_lt by lia. lia.
  - apply IHk; lia.
Qed.

Lemma plain_ranks_increasing (k : nat) :
  forall i, 0 <= i -> i + Z.of_nat k <= INT_MAX + 1 ->
  ForallOrdPairs (fun x y => cmp_rank x y < 0 /\ 0 < cmp_rank y x)
    (map plain_rank (zseq i k)).
Proof.
  induction k; intros i Hi Hk; cbn [zseq map]; constructor.
  - apply Forall_forall. intros y Hy. apply in_map_iff in Hy.
    destruct Hy as [j [<- Hj]]. apply zseq_In in Hj.
    assert (dlt (of_int i) (of_int j) = true) as Hlt
      by (apply of_int_lt; lia).
    pose proof (dlt_not_dle _ _ Hlt) as Hle.
    assert (dlt (of_int j) (of_int i) = false) as Hgt.
    { unfold dlt, dle, SFltb, SFleb in *.
      destruct (SFcompare (of_int j) (of_int i)) as [[]|]; congruence. }
    unfold cmp_rank, plain_rank, dgt, dlt in *. cbn [src dst].
    rewrite Hlt, Hgt. lia.
  - apply IHk; lia.
Qed.

(** With windows of width zero the order of the ranks does not depend
    on the sorting algorithm: the ranks as they were filled are their
    only permutation that is sorted for [cmp_rank]. *)
Lemma plain_ranks_any_sort (n : Z) (sorted : list Map) :
  0 <= n <= INT_MAX ->
  Permutation sorted (map plain_rank (zseq 0 (Z.to_nat n))) ->
  ForallOrdPairs (fun x y => cmp_rank x y <= 0) sorted ->
  map src sorted = zseq 0 (Z.to_nat n).
Proof.
  intros Hn P S.
  rewrite (sorted_perm_unique cmp_rank _
             (plain_ranks_increasing (Z.to_nat n) 0 ltac:(lia) ltac:(lia))
             sorted P S).
  rewrite map_map. cbn [plain_rank src]. apply map_id.
Qed.

Lemma rank_window_zero (o : options) (n : Z) (w : double) (g : rng) :
  0 <= n <= INT_MAX -> SFeqb w d0 = true ->
  fst (rank o n false w g) = zseq 0 (Z.to_nat n).
Proof.
  intros Hn Hw. destruct (is_zero w Hw) as [s ->]. unfold rank.
  pose proof (rank_fill_window_zero o n s (Z.to_nat n) (proj2 Hn) 0
                (srand48 (seed o))) as H.
  destruct (rank_fill o n false (S754_zero s) (Z.to_nat n) 0
              (srand48 (seed o))) as [ranks g1].
  cbn [fst] in *. rewrite H by lia.
  rewrite qsort_sorted_id by (apply plain_ranks_sorted; lia).
  rewrite map_map. cbn [plain_rank src]. apply map_id.
Qed.

Lemma zseq_nth (k : nat) (i : Z) (j : nat) (d : Z) :
  (j < k)%nat -> nth j (zseq i k) d = i + Z.of_nat j.
Proof.
  intros H. apply nth_error_nth. now apply zseq_nth_error.
Qed.

(** ** Parser: the loops end *)

Lemma chr_range (a : ascii) : 0 <= chr a <= 255.
Proof.
  unfold chr. pose proof (N_ascii_bounded a) as H. lia.
Qed.

Lemma chr_not_EOF (a : ascii) : (chr a =? EOF) = false.
Proof. pose proof (chr_range a). apply Z.eqb_neq. unfold EOF. lia. Qed.

Lemma space_not_EOF (ch : Z) : space ch = true -> (ch =? EOF) = false.
Proof.
  unfold space, EOF. change (chr " ") with 32. change (chr nl) with 10.
  rewrite !orb_true_iff, !Z.eqb_eq. intros H. apply Z.eqb_neq. lia.
Qed.

Lemma next_char_pending (file : list ascii) (lineno : Z) :
  (pending (fst (fst (next_char file lineno)))
     (snd (fst (next_char file lineno))) <= List.length file)%nat.
Proof.
  destruct file as [|a file]; cbn; [lia|].
  unfold pending. rewrite chr_not_EOF. lia.
Qed.

Lemma skip_comment_pending (file : list ascii) :
  forall lineno,
  (pending (fst (fst (skip_comment file lineno)))
     (snd (fst (skip_comment file lineno))) <= List.length file)%nat.
Proof.
  induction file as [|a file IH]; intros lineno; cbn [skip_comment].
  - cbn. lia.
  - destruct (chr a =? chr nl).
    + cbn [fst snd]. unfold pending. rewrite chr_not_EOF. cbn. lia.
    + specialize (IH (bump (chr a) lineno)). cbn [List.length]. lia.
Qed.

Lemma parse_number_pending (e1 e2 : string) (file : list ascii) :
  forall n lineno v ch file' lineno',
    parse_number e1 e2 n file lineno = Ok (v, ch, file', lineno') ->
    (pending ch file' <= List.length file)%nat.
Proof.
  induction file as [|a file IH]; intros n lineno v ch file' lineno' H;
    cbn [parse_number] in H.
  - inversion H; subst. cbn. lia.
  - cbv zeta in H. destruct (isdigit (chr a)).
    + destruct (INT_MAX / 10 <? n); [discriminate|].
      destruct (int_sub INT_MAX (int_sub (chr a) (chr "0")) <? int_mul n 10);
        [discriminate|].
      apply IH in H. cbn [List.length]. lia.
    + inversion H; subst. unfold pending. rewrite chr_not_EOF. cbn. lia.
Qed.

Lemma parse_number_clean (e1 e2 : string) (file : list ascii) :
  forall n lineno, parse_number e1 e2 n file lineno <> Err out_of_fuel.
Proof.
  induction file as [|a file IH]; intros n lineno; cbn [parse_number].
  - discriminate.
  - cbv zeta. destruct (isdigit (chr a)); [|discriminate].
    destruct (INT_MAX / 10 <? n); [discriminate|].
    destruct (int_sub INT_MAX (int_sub (chr a) (chr "0")) <? int_mul n 10);
      [discriminate|].
    apply IH.
Qed.

Lemma parse_sign_clean (ch : Z) (file : list ascii) (lineno : Z) :
  parse_sign ch file lineno <> Err out_of_fuel.
Proof.
  unfold parse_sign. destruct (ch =? chr "-").
  - destruct (next_char file lineno) as [[c f] l].
    destruct (negb (isdigit c)); [discriminate|].
    destruct (c =? chr "0"); discriminate.
  - destruct (negb (isdigit ch)); discriminate.
Qed.

Lemma parse_sign_length (ch : Z) (file : list ascii) (lineno : Z)
    (sign ch' : Z) (file' : list ascii) (lineno' : Z) :
  parse_sign ch file lineno = Ok (sign, ch', file', lineno') ->
  (List.length file' <= List.length file)%nat.
Proof.
  unfold parse_sign. destruct (ch =? chr "-").
  - destruct file as [|a file]; cbn [next_char].
    + destruct (negb (isdigit EOF)); [discriminate|].
      destruct (EOF =? chr "0"); [discriminate|].
      intros H; inversion H; subst. lia.
    + destruct (negb (isdigit (chr a))); [discriminate|].
      destruct (chr a =? chr "0"); [discriminate|].
      intros H; inversion H; subst. cbn. lia.
  - destruct (negb (isdigit ch)); [discriminate|].
    intros H; inversion H; subst. lia.
Qed.

Lemma parse_clauses_total (fuel : nat) (mv spec : Z) :
  forall ch file lineno nc cls lits,
    (pending ch file < fuel)%nat ->
    parse_clauses fuel mv spec ch file lineno nc cls lits
    <> Err out_of_fuel.
Proof.
  induction fuel as [|fuel IH]; intros ch file lineno nc cls lits Hf;
    [lia|]. cbn [parse_clauses].
  destruct (space ch) eqn:Hsp.
  { pose proof (next_char_pending file lineno) as Hp.
    destruct (next_char file lineno) as [[ch1 f1] l1]. cbn [fst snd] in Hp.
    apply IH. unfold pending in Hf at 1.
    rewrite (space_not_EOF ch Hsp) in Hf. lia. }
  destruct (ch =? EOF) eqn:Heof.
  { destruct (negb (Z.of_nat (List.length lits) =? 0)); [discriminate|].
    destruct (nc <? spec); discriminate. }
  unfold pending in Hf at 1. rewrite Heof in Hf.
  destruct (ch =? chr "c").
  { pose proof (skip_comment_pending file lineno) as Hp.
    destruct (skip_comment file lineno) as [[ch1 f1] l1]. cbn [fst snd] in Hp.
    apply IH. lia. }
  pose proof (parse_sign_clean ch file lineno) as Hsc.
  destruct (parse_sign ch file lineno) as [[[[sign ch1] f1] l1]|e] eqn:Hs;
    [|congruence].
  apply parse_sign_length in Hs.
  destruct (negb (isdigit ch1)); [discriminate|].
  pose proof (parse_number_clean "variable way too large"
                "variable too large" f1 (int_sub ch1 (chr "0")) l1) as Hnc.
  destruct (parse_number _ _ (int_sub ch1 (chr "0")) f1 l1)
    as [[[[idx ch2] f2] l2]|e] eqn:Hn; [|congruence].
  apply parse_number_pending in Hn.
  destruct (idx >? mv); [discriminate|].
  destruct (negb (space ch2) && negb (ch2 =? chr "c") && negb (ch2 =? EOF)).
  { destruct (isprint ch2); discriminate. }
  destruct (nc =? spec); [discriminate|].
  destruct (negb (int_mul sign idx =? 0)).
  - apply IH. lia.
  - destruct (negb (nc <? spec)); [discriminate|]. apply IH. lia.
Qed.

Lemma skip_header_comment_spec (file : list ascii) :
  forall lineno,
    match skip_header_comment file lineno with
    | Ok (file', _) => (List.length file' < List.length file)%nat
    | Err e => e <> out_of_fuel
    end.
Proof.
  induction file as [|a file IH]; intros lineno; cbn [skip_header_comment].
  - discriminate.
  - destruct (chr a =? chr nl).
    + cbn. lia.
    + specialize (IH (bump (chr a) lineno)).
      destruct (skip_header_comment file (bump (chr a) lineno))
        as [[f l]|e]; cbn [List.length]; [lia | assumption].
Qed.

Lemma parse_preamble_total (fuel : nat) :
  forall file lineno,
    (List.length file < fuel)%nat ->
    parse_preamble fuel file lineno <> Err out_of_fuel.
Proof.
  induction fuel as [|fuel IH]; intros file lineno Hf; [lia|].
  cbn [parse_preamble]. destruct file as [|a file]; cbn [next_char].
  - discriminate.
  - rewrite chr_not_EOF.
    destruct (chr a =? chr "p"); [discriminate|].
    destruct (chr a =? chr "c").
    + pose proof (skip_header_comment_spec file (bump (chr a) lineno)) as H.
      destruct (skip_header_comment file (bump (chr a) lineno))
        as [[f l]|e]; [|congruence].
      apply IH. cbn [List.length] in Hf. lia.
    + destruct (isprint (chr a)); discriminate.
Qed.

Lemma parse_keyword_clean (kw : list ascii) :
  forall file lineno, parse_keyword kw file lineno <> Err out_of_fuel.
Proof.
  induction kw as [|k kw IH]; intros file lineno; cbn [parse_keyword].
  - discriminate.
  - destruct (next_char file lineno) as [[ch f] l].
    destruct (negb (ch =? chr k)); [discriminate | apply IH].
Qed.

Lemma header_rest_clean (file : list ascii) :
  forall ch lineno, header_rest ch file lineno <> Err out_of_fuel.
Proof.
  induction file as [|a file IH]; intros ch lineno; cbn [header_rest];
    (destruct (ch =? chr nl); [discriminate|]);
    (destruct (negb (space ch)); [discriminate|]).
  - discriminate.
  - apply IH.
Qed.

(** [parse] returns a CNF or reports an error of the source: the bounds
    given to its loops are never used up. *)
Lemma parse_total (file : list ascii) : parse file <> Err out_of_fuel.
Proof.
  unfold parse.
  pose proof (parse_preamble_total (S (List.length file)) file 1
                (Nat.lt_succ_diag_r _)) as H0.
  destruct (parse_preamble _ file 1) as [[f0 l0]|e]; [|congruence].
  pose proof (parse_keyword_clean (list_ascii_of_string " cnf ") f0 l0) as H1.
  destruct (parse_keyword _ f0 l0) as [[f1 l1]|e]; [|congruence].
  destruct (next_char f1 l1) as [[ch2 f2] l2].
  destruct (negb (isdigit ch2)); [discriminate|].
  pose proof (parse_number_clean "variable number way too large"
                "variable number too large" f2 (int_sub ch2 (chr "0")) l2)
    as H2.
  destruct (parse_number _ _ (int_sub ch2 (chr "0")) f2 l2)
    as [[[[mv ch3] f3] l3]|e]; [|congruence].
  destruct (negb (ch3 =? chr " ")); [discriminate|].
  destruct (next_char f3 l3) as [[ch4 f4] l4].
  destruct (negb (isdigit ch4)); [discriminate|].
  pose proof (parse_number_clean "clause number way too large"
                "clause number too large" f4 (int_sub ch4 (chr "0")) l4)
    as H3.
  destruct (parse_number _ _ (int_sub ch4 (chr "0")) f4 l4)
    as [[[[spec ch5] f5] l5]|e]; [|congruence].
  pose proof (header_rest_clean f5 ch5 l5) as H4.
  destruct (header_rest ch5 f5 l5) as [[f6 l6]|e]; [|congruence].
  pose proof (next_char_pending f6 l6) as H5.
  destruct (next_char f6 l6) as [[ch7 f7] l7] eqn:E. cbn [fst snd] in H5.
  apply parse_clauses_total.
  destruct f6 as [|a f6]; cbn [next_char] in E; inversion E; subst.
  - cbn. lia.
  - unfold pending. rewrite chr_not_EOF. cbn. lia.
Qed.

(** ** Parser: the clauses of a DIMACS text *)

Lemma runs_to_trans (r : result error cnf)
    (k1 k2 : nat -> Z -> result error cnf) :
  runs_to r k1 -> (forall fuel lineno, runs_to (k1 fuel lineno) k2) ->
  runs_to r k2.
Proof.
  intros [H|[fuel [lineno H]]] H2; [now left|].
  rewrite H. apply H2.
Qed.

Lemma digit_space (ch : Z) : 48 <= ch <= 57 -> space ch = false.
Proof.
  intros H. unfold space. change (chr " ") with 32. change (chr nl) with 10.
  rewrite !orb_false_iff, !Z.eqb_neq. lia.
Qed.

Lemma digit_neq (ch k : Z) : 48 <= ch <= 57 -> k < 48 \/ 57 < k ->
  (ch =? k) = false.
Proof. intros H Hk. apply Z.eqb_neq. lia. Qed.

Lemma blank_not_digit (a : ascii) : is_blank a -> isdigit (chr a) = false.
Proof.
  unfold is_blank, space, isdigit.
  change (chr " ") with 32. change (chr nl) with 10.
  change (chr "0") with 48. change (chr "9") with 57.
  rewrite !orb_true_iff, !Z.eqb_eq, andb_false_iff, !Z.leb_gt. lia.
Qed.

Lemma bump_digit (ch lineno : Z) : 48 <= ch <= 57 -> bump ch lineno = lineno.
Proof.
  intros H. unfold bump. change (chr nl) with 10.
  now rewrite digit_neq by lia.
Qed.

Lemma chr_inj (a b : ascii) : chr a = chr b -> a = b.
Proof.
  unfold chr. intros H.
  rewrite <- (ascii_N_embedding a), <- (ascii_N_embedding b).
  f_equal. lia.
Qed.

(** The first character of what separates two literals: a white space
    character or the ['c'] of a comment. *)
Lemma gaps_head (gs : list gap) (rest : list ascii) :
  gs <> [] -> Forall gap_ok gs ->
  exists a tl,
    gaps_text gs ++ rest = a :: tl /\
    isdigit (chr a) = false /\
    negb (space (chr a)) && negb (chr a =? chr "c") && negb (chr a =? EOF)
    = false.
Proof.
  intros Hne Hok. destruct gs as [|g gs]; [contradiction|].
  inversion Hok as [|? ? Hg _]; subst.
  unfold gaps_text. cbn [map List.concat]. destruct g as [b|body].
  - exists b. eexists. split; [reflexivity|]. cbn [gap_ok] in Hg. split.
    + now apply blank_not_digit.
    + unfold is_blank in Hg. now rewrite Hg.
  - exists "c"%char. eexists. split; [reflexivity|]. split; reflexivity.
Qed.

Lemma horner_ge (ds : list ascii) :
  Forall is_digit ds -> forall n, 0 <= n -> n <= horner n ds.
Proof.
  unfold horner. induction 1 as [|a ds Ha _ IH]; intros n Hn; cbn [fold_left].
  - lia.
  - unfold is_digit in Ha. specialize (IH (n * 10 + (chr a - 48))). lia.
Qed.

Lemma parse_number_digits (e1 e2 : string) (ds rest : list ascii) :
  Forall is_digit ds ->
  match rest with [] => True | a :: _ => isdigit (chr a) = false end ->
  forall n lineno, 0 <= n -> horner n ds <= INT_MAX ->
    parse_number e1 e2 n (ds ++ rest) lineno
    = let '(ch, file, lineno) := next_char rest lineno in
      Ok (horner n ds, ch, file, lineno).
Proof.
  intros Hds Hrest. induction Hds as [|a ds Ha Hds IH]; intros n lineno Hn Hv.
  - cbn [app horner fold_left]. destruct rest as [|a rest];
      cbn [parse_number next_char]; [reflexivity|].
    cbv zeta. now rewrite Hrest.
  - cbn [app parse_number]. cbv zeta. unfold is_digit in Ha.
    rewrite (proj2 (isdigit_range (chr a)) Ha).
    unfold horner in *. cbn [fold_left] in Hv.
    pose proof (horner_ge ds Hds (n * 10 + (chr a - 48))) as Hge.
    unfold horner in Hge.
    change (INT_MAX / 10) with 214748364.
    destruct (Z.ltb_spec 214748364 n); [unfold INT_MAX in *; lia|].
    rewrite digit_value by assumption.
    rewrite int_mul_small by (unfold INT_MAX; lia).
    rewrite int_sub_small by (unfold INT_MAX; lia).
    destruct (Z.ltb_spec (INT_MAX - (chr a - 48)) (n * 10));
      [unfold INT_MAX in *; lia|].
    rewrite int_add_small by (unfold INT_MAX in *; lia).
    rewrite bump_digit by assumption.
    rewrite IH by lia. reflexivity.
Qed.

Lemma skip_comment_body (body rest : list ascii) :
  Forall (fun a => a <> nl) body ->
  forall lineno, exists lineno',
    skip_comment (body ++ nl :: rest) lineno = (chr nl, rest, lineno').
Proof.
  induction 1 as [|a body Ha _ IH]; intros lineno; cbn [app skip_comment].
  - rewrite Z.eqb_refl. eauto.
  - destruct (Z.eqb_spec (chr a) (chr nl)) as [E|E].
    + apply chr_inj in E. contradiction.
    + apply IH.
Qed.

Section ClauseLoop.

Variables mv spec : Z.
Hypothesis mv_range : 0 <= mv <= INT_MAX.
Hypothesis spec_range : 0 <= spec <= INT_MAX.

Lemma skip_gaps (gs : list gap) (rest : list ascii) (nc : Z)
    (cls : list (list Z)) (lits : list Z) :
  Forall gap_ok gs ->
  forall fuel lineno,
    runs_to (clauses_from fuel mv spec (gaps_text gs ++ rest) lineno nc cls
               lits)
      (fun fuel lineno => clauses_from fuel mv spec rest lineno nc cls lits).
Proof.
  induction 1 as [|g gs Hg _ IH]; intros fuel lineno.
  - right. now exists fuel, lineno.
  - unfold gaps_text in *. cbn [map List.concat]. rewrite <- app_assoc.
    destruct g as [b|body]; cbn [gap_ok gap_text] in *.
    + unfold clauses_from at 1. cbn [app next_char].
      destruct fuel as [|fuel]; [now left|]. cbn [parse_clauses].
      unfold is_blank in Hg. rewrite Hg.
      apply (IH fuel (bump (chr b) lineno)).
    + unfold clauses_from at 1. cbn [app next_char]. rewrite <- app_assoc.
      cbn [app].
      destruct fuel as [|fuel]; [now left|]. cbn [parse_clauses].
      change (space (chr "c")) with false.
      change (chr "c" =? EOF) with false. rewrite Z.eqb_refl. cbv iota.
      destruct (skip_comment_body body (List.concat (map gap_text gs) ++ rest)
                  Hg (bump (chr "c") lineno)) as [l' ->].
      destruct fuel as [|fuel]; [now left|]. cbn [parse_clauses].
      change (space (chr nl)) with true. cbv iota.
      apply (IH fuel l').
Qed.

(** One literal of the file: the stack of literals grows by a literal
    that is not zero, and a zero closes the clause. *)
Lemma token_step (t : token) (rest : list ascii) (nc : Z)
    (cls : list (list Z)) (lits : list Z) :
  token_ok mv t -> 0 <= nc < spec ->
  forall fuel lineno,
    runs_to
      (clauses_from fuel mv spec (token_text t ++ rest) lineno nc cls lits)
      (fun fuel lineno =>
         if token_value t =? 0
         then clauses_from fuel mv spec rest lineno (nc + 1)
                (cls ++ [lits ++ [0]]) []
         else clauses_from fuel mv spec rest lineno nc cls
                (lits ++ [token_value t])).
Proof.
  intros [Hne Hds Hgne Hgs Hneg Hval] Hnc fuel lineno.
  destruct t as [neg ds gs]. cbn [negative digits gaps] in *.
  destruct ds as [|d0 ds]; [contradiction|].
  inversion Hds as [|? ? Hd0 Hds']; subst.
  unfold is_digit in Hd0.
  destruct (gaps_head gs rest Hgne Hgs) as [a [tl [Etl [Ha Hsep]]]].
  assert (Hnum : number_value (d0 :: ds) = horner (chr d0 - 48) ds)
    by reflexivity.
  rewrite Hnum in Hval.
  pose proof (horner_ge ds Hds' (chr d0 - 48)) as Hge.
  assert (Hstep : forall fuel lineno sign,
    sign = 1 \/ sign = -1 ->
    match parse_number "variable way too large" "variable too large"
            (chr d0 - 48) (ds ++ gaps_text gs ++ rest) lineno with
    | Err e => Err e
    | Ok (idx, ch, file, lineno) =>
        if idx >? mv then perr lineno "maximum variable index exceeded"
        else if negb (space ch) && negb (ch =? chr "c")
                && negb (ch =? EOF) then
          if isprint ch then
            perr lineno
              ("unexpected character '" ++ fmt_c ch ++ "' after literal")
          else
            perr lineno
              ("unexpected character after literal (code '"
               ++ fmt_d ch ++ "')")
        else if nc =? spec then perr lineno "too many clauses"
        else
          let lit := int_mul sign idx in
          if negb (lit =? 0) then
            parse_clauses fuel mv spec ch file lineno nc cls (lits ++ [lit])
          else
            let clause := lits ++ [0] in
            if negb (nc <? spec) then Err assertion_failed
            else
              parse_clauses fuel mv spec ch file lineno (int_add nc 1)
                (cls ++ [clause]) []
    end
    = if sign * horner (chr d0 - 48) ds =? 0
      then clauses_from fuel mv spec (gaps_text gs ++ rest) lineno (nc + 1)
             (cls ++ [lits ++ [0]]) []
      else clauses_from fuel mv spec (gaps_text gs ++ rest) lineno nc cls
             (lits ++ [sign * horner (chr d0 - 48) ds])).
  { intros fuel' lineno' sign Hsign. rewrite Etl.
    rewrite parse_number_digits; try assumption; try lia.
    cbn [app next_char]. unfold clauses_from. cbn [next_char].
    destruct (Z.gtb_spec (horner (chr d0 - 48) ds) mv); [lia|].
    rewrite Hsep.
    destruct (Z.eqb_spec nc spec); [lia|]. cbv zeta.
    rewrite int_mul_small by (unfold INT_MAX in *; destruct Hsign; subst; lia).
    destruct (Z.eqb_spec (sign * horner (chr d0 - 48) ds) 0); cbn [negb];
      [|reflexivity].
    destruct (Z.ltb_spec nc spec); [|lia]. cbn [negb].
    rewrite int_add_small by (unfold INT_MAX in *; lia). reflexivity. }
  assert (Hgaps : forall fuel lineno sign,
    runs_to
      (if sign * horner (chr d0 - 48) ds =? 0
       then clauses_from fuel mv spec (gaps_text gs ++ rest) lineno (nc + 1)
              (cls ++ [lits ++ [0]]) []
       else clauses_from fuel mv spec (gaps_text gs ++ rest) lineno nc cls
              (lits ++ [sign * horner (chr d0 - 48) ds]))
      (fun fuel lineno =>
         if sign * horner (chr d0 - 48) ds =? 0
         then clauses_from fuel mv spec rest lineno (nc + 1)
                (cls ++ [lits ++ [0]]) []
         else clauses_from fuel mv spec rest lineno nc cls
                (lits ++ [sign * horner (chr d0 - 48) ds]))).
  { intros fuel' lineno' sign.
    destruct (sign * horner (chr d0 - 48) ds =? 0);
      apply skip_gaps; assumption. }
  unfold token_value, token_text. cbn [negative digits gaps]. rewrite Hnum.
  destruct neg.
  - (* a negative literal *)
    specialize (Hneg eq_refl). cbn [hd] in Hneg.
    assert (chr d0 <> 48) as Hnz.
    { intros E. apply Hneg. apply chr_inj. exact E. }
    replace (- horner (chr d0 - 48) ds)
      with (-1 * horner (chr d0 - 48) ds) by lia.
    unfold clauses_from at 1. cbn [app next_char].
    destruct fuel as [|fuel]; [now left|]. cbn [parse_clauses].
    change (space (chr "-")) with false.
    change (chr "-" =? EOF) with false.
    change (chr "-" =? chr "c") with false. cbv iota.
    unfold parse_sign. rewrite Z.eqb_refl. rewrite <- !app_assoc.
    cbn [app next_char].
    rewrite (proj2 (isdigit_range (chr d0)) Hd0). cbn [negb].
    change (chr "0") with 48. destruct (Z.eqb_spec (chr d0) 48); [lia|].
    rewrite ?(proj2 (isdigit_range (chr d0)) Hd0). cbn [negb].
    rewrite bump_digit by assumption.
    change 48 with (chr "0") at 1. rewrite digit_value by assumption.
    rewrite (Hstep fuel _ (-1)) by auto. apply Hgaps.
  - (* a positive literal *)
    unfold clauses_from at 1. rewrite <- !app_assoc. cbn [app next_char].
    destruct fuel as [|fuel]; [now left|]. cbn [parse_clauses].
    rewrite (digit_space _ Hd0).
    rewrite (digit_neq _ EOF Hd0) by (unfold EOF; lia).
    rewrite (digit_neq _ (chr "c") Hd0) by (change (chr "c") with 99; lia).
    unfold parse_sign.
    rewrite (digit_neq _ (chr "-") Hd0) by (change (chr "-") with 45; lia).
    rewrite (proj2 (isdigit_range (chr d0)) Hd0). cbn [negb].
    rewrite ?(proj2 (isdigit_range (chr d0)) Hd0). cbn [negb].
    rewrite bump_digit by assumption.
    rewrite digit_value by assumption.
    rewrite (Hstep fuel _ 1) by auto.
    specialize (Hgaps fuel lineno 1). rewrite !Z.mul_1_l in *.
    exact Hgaps.
Qed.

Lemma literals_step (ts : list token) (rest : list ascii) (nc : Z)
    (cls : list (list Z)) :
  Forall (token_ok mv) ts -> Forall (fun t => token_value t <> 0) ts ->
  0 <= nc < spec ->
  forall lits fuel lineno,
    runs_to
      (clauses_from fuel mv spec (List.concat (map token_text ts) ++ rest)
         lineno nc cls lits)
      (fun fuel lineno =>
         clauses_from fuel mv spec rest lineno nc cls
           (lits ++ map token_value ts)).
Proof.
  intros Hok Hnz Hnc. induction Hok as [|t ts Ht _ IH];
    intros lits fuel lineno.
  - right. exists fuel, lineno. cbn [map List.concat app].
    now rewrite app_nil_r.
  - inversion Hnz as [|? ? Hv Hnz']; subst.
    cbn [map List.concat]. rewrite <- app_assoc.
    eapply runs_to_trans; [apply (token_step t _ nc cls lits Ht Hnc)|].
    intros fuel' lineno'. cbv beta.
    destruct (Z.eqb_spec (token_value t) 0); [contradiction|].
    replace (lits ++ token_value t :: map token_value ts)
      with ((lits ++ [token_value t]) ++ map token_value ts)
      by (now rewrite <- app_assoc).
    apply IH. assumption.
Qed.

(** One clause of the file. *)
Lemma block_step (b : block) (rest : list ascii) (nc : Z)
    (cls : list (list Z)) :
  block_ok mv b -> 0 <= nc < spec ->
  forall fuel lineno,
    runs_to
      (clauses_from fuel mv spec (block_text b ++ rest) lineno nc cls [])
      (fun fuel lineno =>
         clauses_from fuel mv spec rest lineno (nc + 1)
           (cls ++ [block_values b ++ [0]]) []).
Proof.
  intros [Hts Hnz Hend Hzero] Hnc fuel lineno.
  unfold block_text. rewrite <- app_assoc.
  eapply runs_to_trans;
    [apply (literals_step _ _ nc cls Hts Hnz Hnc [])|].
  intros fuel1 lineno1. cbv beta. cbn [app].
  eapply runs_to_trans;
    [apply (token_step (block_end b) rest nc cls _ Hend Hnc)|].
  intros fuel2 lineno2. cbv beta. rewrite Hzero. cbn [Z.eqb].
  right. now exists fuel2, lineno2.
Qed.

(** All the clauses of the file, to its end. *)
Lemma blocks_run (bs : list block) :
  Forall (block_ok mv) bs ->
  forall nc cls fuel lineno,
    0 <= nc -> nc + Z.of_nat (List.length bs) = spec ->
    let r := clauses_from fuel mv spec (List.concat (map block_text bs))
               lineno nc cls [] in
    r = Err out_of_fuel \/
    r = Ok {| max_var := mv; num_clauses := spec;
              clauses := cls ++ map (fun b => block_values b ++ [0]) bs |}.
Proof.
  induction 1 as [|b bs Hb _ IH]; intros nc cls fuel lineno Hnc Hlen r;
    subst r.
  - cbn [List.length] in Hlen. cbn [map List.concat].
    unfold clauses_from. cbn [next_char].
    destruct fuel as [|fuel]; [now left|]. right. cbn [parse_clauses].
    change (space EOF) with false. change (EOF =? EOF) with true.
    cbv iota. cbn [List.length Z.of_nat Z.eqb negb].
    destruct (Z.ltb_spec nc spec); [lia|].
    rewrite app_nil_r. f_equal. f_equal. lia.
  - cbn [List.length] in Hlen. rewrite Nat2Z.inj_succ in Hlen.
    cbn [map List.concat].
    destruct (block_step b (List.concat (map block_text bs)) nc cls Hb
                ltac:(lia) fuel lineno) as [E|[fuel' [lineno' E]]];
      [now left|].
    rewrite E.
    replace (cls ++ (block_values b ++ [0])
                 :: map (fun b => block_values b ++ [0]) bs)
      with ((cls ++ [block_values b ++ [0]])
            ++ map (fun b => block_values b ++ [0]) bs)
      by (now rewrite <- app_assoc).
    apply IH; lia.
Qed.

End ClauseLoop.

Lemma header_rest_nl (file : list ascii) (lineno : Z) :
  header_rest (chr nl) file lineno = Ok (file, lineno).
Proof. destruct file; reflexivity. Qed.

(** The parse of a DIMACS text: its clauses, each with its literals in
    the order of the text and its sentinel. *)
Lemma parse_dimacs (dv dc : list ascii) (lead : list gap) (bs : list block) :
  dv <> [] -> Forall is_digit dv -> number_value dv <= INT_MAX ->
  dc <> [] -> Forall is_digit dc ->
  number_value dc = Z.of_nat (List.length bs) -> number_value dc <= INT_MAX ->
  Forall gap_ok lead ->
  Forall (block_ok (number_value dv)) bs ->
  parse (dimacs_text dv dc lead bs)
  = Ok {| max_var := number_value dv; num_clauses := number_value dc;
          clauses := map (fun b => block_values b ++ [0]) bs |}.
Proof.
  intros Hdv Hv Hvmax Hdc Hc Hclen Hcmax Hlead Hbs.
  destruct dv as [|v0 dv]; [contradiction|].
  destruct dc as [|c0 dc]; [contradiction|].
  inversion Hv as [|? ? Hv0 Hv']; subst.
  inversion Hc as [|? ? Hc0 Hc']; subst.
  unfold is_digit in Hv0, Hc0.
  pose proof (horner_ge dv Hv' (chr v0 - 48)) as Hvge.
  pose proof (horner_ge dc Hc' (chr c0 - 48)) as Hcge.
  set (mv := number_value (v0 :: dv)) in *.
  set (spec := number_value (c0 :: dc)) in *.
  assert (Emv : mv = horner (chr v0 - 48) dv) by reflexivity.
  assert (Espec : spec = horner (chr c0 - 48) dc) by reflexivity.
  set (body := gaps_text lead ++ List.concat (map block_text bs)).
  assert (E : exists fuel lineno,
             parse (dimacs_text (v0 :: dv) (c0 :: dc) lead bs)
             = clauses_from fuel mv spec body lineno 0 [] []).
  { unfold parse, dimacs_text. fold body.
    change (text "p cnf ")
      with ["p"; " "; "c"; "n"; "f"; " "]%char.
    cbn [app]. cbn [parse_preamble next_char].
    change (chr "p" =? EOF) with false.
    change (chr "p" =? chr "p") with true. cbv iota.
    change (list_ascii_of_string " cnf ") with [" "; "c"; "n"; "f"; " "]%char.
    cbn [parse_keyword next_char].
    change (chr " " =? chr " ") with true.
    change (chr "c" =? chr "c") with true.
    change (chr "n" =? chr "n") with true.
    change (chr "f" =? chr "f") with true. cbn [negb]. cbv iota.
    cbn [next_char].
    rewrite (proj2 (isdigit_range (chr v0)) Hv0). cbn [negb].
    rewrite digit_value by assumption.
    rewrite (parse_number_digits _ _ dv (" "%char :: c0 :: dc ++ nl :: body)
               Hv' eq_refl) by lia.
    cbn [app next_char].
    change (chr " " =? chr " ") with true. cbn [negb]. cbv iota.
    rewrite (proj2 (isdigit_range (chr c0)) Hc0). cbn [negb].
    rewrite digit_value by assumption.
    rewrite (parse_number_digits _ _ dc (nl :: body) Hc' eq_refl) by lia.
    cbn [app next_char]. rewrite header_rest_nl.
    rewrite <- Emv, <- Espec.
    match goal with
    | |- context [next_char body ?L] =>
        exists (2 + List.length (snd (fst (next_char body L))))%nat, L
    end.
    unfold clauses_from.
    destruct (next_char body _) as [[ch f] l]. reflexivity. }
  destruct E as [fuel [lineno E]].
  assert (R : runs_to (clauses_from fuel mv spec body lineno 0 [] [])
                (fun fuel lineno =>
                   clauses_from fuel mv spec
                     (List.concat (map block_text bs)) lineno 0 [] [])).
  { apply skip_gaps; try assumption; unfold mv, spec; lia. }
  destruct R as [R|[fuel' [lineno' R]]].
  { exfalso. apply (parse_total (dimacs_text (v0 :: dv) (c0 :: dc) lead bs)).
    now rewrite E. }
  rewrite R in E.
  destruct (blocks_run mv spec ltac:(lia) ltac:(lia) bs Hbs 0 [] fuel'
              lineno' ltac:(lia) ltac:(lia)) as [B|B]; cbv zeta in B;
    rewrite B in E.
  - exfalso. now apply (parse_total _ E).
  - exact E.
Qed.

(** C5: what [parse] reports when clauses are missing.  With three
    clauses declared and one given, two clauses are missing and the
    message is ["1 clauses missing"]: the number in the message is the
    number of the clauses read.  With two declared and one given the
    number read and the number missing are both one. *)
Theorem missing_clauses_message :
  parse (line "p cnf 1 3" ++ line "1 0")
  = Err (parse_error 3 "1 clauses missing") /\
  parse (line "p cnf 1 2" ++ line "1 0")
  = Err (parse_error 3 "1 clause missing") /\
  parse (line "p cnf 1 5" ++ line "1 0" ++ line "-1 0" ++ line "0")
  = Err (parse_error 5 "3 clauses missing").
Proof. repeat split. Qed.

(** ** The generator is seeded by every call *)

Lemma rank_fill_state (o : options) (n : Z) (permute : bool) (width : double)
    (k : nat) :
  forall i g, snd (rank_fill o n permute width k i g) = Nat.iter k lcg g.
Proof.
  induction k; intros i g; cbn [rank_fill].
  - reflexivity.
  - unfold drand48. specialize (IHk (int_add i 1) (lcg g)).
    destruct (rank_fill o n permute width k (int_add i 1) (lcg g)).
    cbn [snd] in *. rewrite IHk. now rewrite <- Nat.iter_succ_r.
Qed.

Lemma rank_state (o : options) (n : Z) (permute : bool) (width : double)
    (g : rng) :
  snd (rank o n permute width g) = state_after (seed o) (Z.to_nat n).
Proof.
  unfold rank.
  pose proof (rank_fill_state o n permute width (Z.to_nat n) 0
                (srand48 (seed o))) as H.
  destruct (rank_fill o n permute width (Z.to_nat n) 0 (srand48 (seed o))).
  exact H.
Qed.

Section PrintFacts.

Variables VERSION GITID : string.
Variable fmt_g : double -> string.

(** C7. Two runs on the same file with the same options and the same
    seed write the same bytes, whatever the state of the generator when
    they start.  [rank] and [flip] seed the generator themselves: what
    they return, and the state in which they leave the generator, do not
    depend on the state in which they find it; so each of the three maps
    of [scramble] is what its call computes from any state of the
    generator, in whatever order the three calls are made. *)
Theorem scranfilize_deterministic (o : options) (file : list ascii)
    (g1 g2 : rng) :
  scranfilize VERSION GITID fmt_g o file g1
  = scranfilize VERSION GITID fmt_g o file g2 /\
  (forall n permute width,
     rank o n permute width g1 = rank o n permute width g2 /\
     snd (rank o n permute width g1) = state_after (seed o) (Z.to_nat n)) /\
  (forall max_var, flip o max_var g1 = flip o max_var g2) /\
  (forall c ga gb gc,
     fst (scramble o c g1)
     = {| variable_map :=
            fst (rank o (max_var c) (permute_variables o)
                   (variable_move_window o) ga);
          clause_map :=
            fst (rank o (num_clauses c) (permute_clauses o)
                   (clause_move_window o) gb);
          flipped := fst (flip o (max_var c) gc) |}).
Proof.
  split; [|split; [|split]].
  - unfold scranfilize. destruct (parse file) as [c|e]; [|reflexivity].
    pose proof (scramble_maps o c g1) as E1.
    pose proof (scramble_maps o c g2) as E2.
    destruct (scramble o c g1) as [m1 s1], (scramble o c g2) as [m2 s2].
    cbn [fst] in E1, E2. now rewrite E1, E2.
  - intros n permute width. split; [reflexivity | apply rank_state].
  - reflexivity.
  - intros c ga gb gc. rewrite scramble_maps. reflexivity.
Qed.

End PrintFacts.

Lemma rank_bijection_witness :
  Z.of_nat
    (List.length
       (fst (rank busy_options 5 true d0 0))) = 5 /\
  count_occ Z.eq_dec (fst (rank busy_options 5 true d0 0)) 3 = 1%nat.
Proof.
  pose proof (rank_bijection busy_options 5 true d0 0
                ltac:(unfold INT_MAX; lia)) as [H1 [H2 _]].
  split; [exact H1 | apply H2; lia].
Defined.

Lemma flip_selector_witness :
  flip plain_options 3 0 = ([false; false; false], srand48 0) /\
  fst (flip busy_options 3 0)
  = map (fun i => dle (draw 7 i) (literal_flip_probability busy_options))
      [0; 1; 2]%nat.
Proof.
  split.
  - exact (proj1 (flip_selector plain_options 3 0) eq_refl).
  - exact (f_equal fst
             (proj1 (proj2 (proj2 (flip_selector busy_options 3 0))
                       eq_refl eq_refl))).
Defined.

(** * Further properties of the program *)

(** ** The scrambled formula is the original one, renamed *)

Lemma literal_true_xorb (a : assignment) (lit : Z) :
  lit <> 0 -> literal_true a lit = xorb (lit <? 0) (a (Z.abs lit)).
Proof.
  intros H. unfold literal_true. destruct (Z.ltb_spec lit 0).
  - replace (Z.abs lit) with (- lit) by lia. reflexivity.
  - replace (Z.abs lit) with lit by lia. reflexivity.
Qed.

Lemma scrambled_literal_shape (o : options) (c : cnf) (m : maps) (src : Z) :
  maps_ok c m -> literal_ok (max_var c) src ->
  let idx := literal_index o (max_var c) src in
  let v := nth (Z.to_nat (idx - 1)) (variable_map m) 0 in
  let f := nth (Z.to_nat (idx - 1)) (flipped m) false in
  let dst := scrambled_literal o (max_var c) m src in
  1 <= idx <= max_var c /\ 0 <= v < max_var c /\
  index_of v (variable_map m) = idx - 1 /\
  Z.abs dst = v + 1 /\ (dst <? 0) = xorb (src <? 0) f.
Proof.
  intros [Pv _ _] Hsrc idx v f dst.
  pose proof (literal_index_range o _ src Hsrc) as Hidx. fold idx in Hidx.
  pose proof (perm_length _ _ Pv) as Hlv.
  pose proof (perm_nth_range _ _ (Z.to_nat (idx - 1)) Pv) as Hv. fold v in Hv.
  pose proof (index_of_nth _ (perm_NoDup _ _ Pv) (Z.to_nat (idx - 1))) as Hi.
  fold v in Hi.
  split; [assumption|]. split; [lia|]. split; [rewrite Hi; lia|].
  unfold dst, scrambled_literal. fold idx. fold v. fold f.
  destruct (xorb (src <? 0) f); split; lia.
Qed.

Lemma scrambled_literal_true (o : options) (c : cnf) (m : maps)
    (a : assignment) (src : Z) :
  maps_ok c m -> literal_ok (max_var c) src ->
  literal_true (scramble_assignment o (max_var c) m a)
    (scrambled_literal o (max_var c) m src)
  = literal_true a src.
Proof.
  intros Hm Hsrc.
  destruct (scrambled_literal_shape o c m src Hm Hsrc)
    as [Hidx [Hv [Hi [Habs Hneg]]]].
  rewrite literal_true_xorb by lia.
  rewrite (literal_true_xorb a src) by (destruct Hsrc; assumption).
  rewrite Hneg, Habs. unfold scramble_assignment.
  replace (nth (Z.to_nat (literal_index o (max_var c) src - 1))
             (variable_map m) 0 + 1 - 1)
    with (nth (Z.to_nat (literal_index o (max_var c) src - 1))
            (variable_map m) 0) by lia.
  rewrite Hi.
  replace (literal_index o (max_var c) src - 1 + 1 - 1)
    with (literal_index o (max_var c) src - 1) by lia.
  replace (literal_index o (max_var c) src - 1 + 1)
    with (literal_index o (max_var c) src) by lia.
  assert ((if reverse_variables o
           then max_var c + 1 - literal_index o (max_var c) src
           else literal_index o (max_var c) src) = Z.abs src) as ->.
  { unfold literal_index. destruct (reverse_variables o); lia. }
  destruct (src <? 0), (a (Z.abs src)),
    (nth (Z.to_nat (literal_index o (max_var c) src - 1)) (flipped m) false);
    reflexivity.
Qed.

Lemma unscrambled_literal_true (o : options) (c : cnf) (m : maps)
    (b : assignment) (src : Z) :
  maps_ok c m -> literal_ok (max_var c) src ->
  literal_true b (scrambled_literal o (max_var c) m src)
  = literal_true (unscramble_assignment o (max_var c) m b) src.
Proof.
  intros Hm Hsrc.
  destruct (scrambled_literal_shape o c m src Hm Hsrc)
    as [Hidx [Hv [Hi [Habs Hneg]]]].
  rewrite literal_true_xorb by lia.
  rewrite (literal_true_xorb _ src) by (destruct Hsrc; assumption).
  rewrite Hneg, Habs. unfold unscramble_assignment.
  fold (literal_index o (max_var c) src).
  destruct (src <? 0),
    (b (nth (Z.to_nat (literal_index o (max_var c) src - 1))
          (variable_map m) 0 + 1)),
    (nth (Z.to_nat (literal_index o (max_var c) src - 1)) (flipped m) false);
    reflexivity.
Qed.

Lemma forallb_map {A B : Type} (f : A -> B) (p : B -> bool) (l : list A) :
  forallb p (map f l) = forallb (fun x => p (f x)) l.
Proof. induction l; cbn [map forallb]; congruence. Qed.

Lemma existsb_map {A B : Type} (f : A -> B) (p : B -> bool) (l : list A) :
  existsb p (map f l) = existsb (fun x => p (f x)) l.
Proof. induction l; cbn [map existsb]; congruence. Qed.

Lemma forallb_ext_in {A : Type} (p q : A -> bool) (l : list A) :
  (forall x, In x l -> p x = q x) -> forallb p l = forallb q l.
Proof.
  induction l as [|x l IH]; intros H; cbn [forallb]; [reflexivity|].
  rewrite (H x) by now left. rewrite IH; [reflexivity|].
  intros y Hy. apply H. now right.
Qed.

Lemma existsb_ext_in {A : Type} (p q : A -> bool) (l : list A) :
  (forall x, In x l -> p x = q x) -> existsb p l = existsb q l.
Proof.
  induction l as [|x l IH]; intros H; cbn [existsb]; [reflexivity|].
  rewrite (H x) by now left. rewrite IH; [reflexivity|].
  intros y Hy. apply H. now right.
Qed.

Lemma forallb_perm {A : Type} (f : A -> bool) (l l' : list A) :
  Permutation l l' -> forallb f l = forallb f l'.
Proof.
  induction 1; cbn [forallb].
  - reflexivity.
  - now rewrite IHPermutation.
  - now rewrite !andb_assoc, (andb_comm (f y)).
  - congruence.
Qed.

(** The truth of the written clauses, from the truth of the clauses of
    the input, for two assignments that agree on every literal and its
    written literal. *)
Lemma scrambled_cnf_true (o : options) (c : cnf) (m : maps)
    (a b : assignment) :
  cnf_ok c -> maps_ok c m ->
  (forall src, literal_ok (max_var c) src ->
     literal_true b (scrambled_literal o (max_var c) m src)
     = literal_true a src) ->
  cnf_true b
    (map (scrambled_clause o c m) (zseq 0 (Z.to_nat (num_clauses c))))
  = cnf_true a (map literals_of (clauses c)).
Proof.
  intros Hc Hm Hlit. unfold cnf_true.
  pose proof (num_clauses_length c Hc) as Hlen.
  set (n := Z.to_nat (num_clauses c)).
  set (G := fun j => clause_true a
                       (literals_of (nth (Z.to_nat j) (clauses c) []))).
  transitivity (forallb G (map (clause_source o c m) (zseq 0 n))).
  - rewrite !forallb_map. apply forallb_ext_in.
    intros i Hi. apply zseq_In in Hi.
    unfold G, scrambled_clause, clause_true. rewrite existsb_map.
    apply existsb_ext_in. intros src Hsrc. apply Hlit.
    eapply (clause_literals_ok c _ src Hc); [|exact Hsrc].
    apply nth_In.
    pose proof (clause_source_range o c m i Hm). lia.
  - pose proof (clause_sources_perm o c m Hc Hm) as P. fold n in P.
    rewrite (forallb_perm G _ _ P), forallb_map.
    rewrite <- (map_nth_zseq (clauses c) []) at 1.
    rewrite forallb_map.
    replace (List.length (clauses c)) with n by lia. reflexivity.
Qed.

(** X1. The formula that is written is the formula that was read, up to
    the renaming: for every file that [parse] accepts and every
    combination of options, an assignment satisfies the clauses of the
    input exactly when its image under the renaming satisfies the
    written clauses, and an assignment satisfies the written clauses
    exactly when its image under the renaming back satisfies the clauses
    of the input.  So one formula is satisfiable exactly when the other
    one is. *)
Theorem scrambled_equisatisfiable (file : list ascii) (c : cnf)
    (o : options) (g : rng) :
  parse file = Ok c ->
  let m := fst (scramble o c g) in
  let original := map literals_of (clauses c) in
  exists out,
    emit o c m = Ok out /\
    (forall a,
       cnf_true (scramble_assignment o (max_var c) m a) out
       = cnf_true a original) /\
    (forall b,
       cnf_true b out
       = cnf_true (unscramble_assignment o (max_var c) m b) original) /\
    ((exists a, cnf_true a original = true) <->
     (exists b, cnf_true b out = true)).
Proof.
  intros H m original.
  destruct (parsed_maps file c o g H) as [Hc Hm]. fold m in Hm.
  eexists. split; [apply (emit_spec o c m Hc Hm)|].
  assert (Ha : forall a,
    cnf_true (scramble_assignment o (max_var c) m a)
      (map (scrambled_clause o c m) (zseq 0 (Z.to_nat (num_clauses c))))
    = cnf_true a original).
  { intros a. apply scrambled_cnf_true; try assumption.
    intros src Hsrc. now apply scrambled_literal_true. }
  assert (Hb : forall b,
    cnf_true b
      (map (scrambled_clause o c m) (zseq 0 (Z.to_nat (num_clauses c))))
    = cnf_true (unscramble_assignment o (max_var c) m b) original).
  { intros b. apply scrambled_cnf_true; try assumption.
    intros src Hsrc. now apply unscrambled_literal_true. }
  split; [exact Ha|]. split; [exact Hb|]. split.
  - intros [a Hsat]. eexists. rewrite Ha. exact Hsat.
  - intros [b Hsat]. eexists. rewrite <- Hb. exact Hsat.
Qed.

Lemma scrambled_equisatisfiable_witness :
  exists out,
    emit busy_options sample_cnf (fst (scramble busy_options sample_cnf 0))
    = Ok out /\
    ((exists a, cnf_true a [[1; -2; 3]; []; [-4; 4; 1]] = true) <->
     (exists b, cnf_true b out = true)).
Proof.
  destruct (scrambled_equisatisfiable sample_file sample_cnf busy_options 0
              sample_parsed) as [out [H1 [_ [_ H2]]]].
  exists out. split; assumption.
Defined.

(** ** Decimal numbers, written and read *)

Lemma text_app (s1 s2 : string) : text (s1 ++ s2) = text s1 ++ text s2.
Proof.
  unfold text. induction s1 as [|a s1 IH]; cbn; [reflexivity|].
  now rewrite IH.
Qed.

Lemma text_concat (l : list string) :
  text (String.concat "" l) = List.concat (map text l).
Proof.
  induction l as [|s l IH]; [reflexivity|].
  cbn [map List.concat]. rewrite <- IH.
  destruct l as [|s' l].
  - cbn. now rewrite app_nil_r.
  - change (String.concat "" (s :: s' :: l))
      with (s ++ String.concat "" (s' :: l))%string.
    apply text_app.
Qed.

Lemma uint_digits (d : Decimal.uint) :
  Forall is_digit (text (NilEmpty.string_of_uint d)).
Proof.
  induction d; cbn; constructor; try assumption; unfold is_digit; cbn; lia.
Qed.

Lemma horner_uint_acc (d : Decimal.uint) :
  forall acc,
    horner (Z.pos acc) (text (NilEmpty.string_of_uint d))
    = Z.pos (Pos.of_uint_acc d acc).
Proof.
  unfold horner. induction d; intros acc; cbn [NilEmpty.string_of_uint text
    list_ascii_of_string fold_left Pos.of_uint_acc];
    [reflexivity | ..];
    rewrite <- IHd; f_equal;
    match goal with
    | |- context [chr ?a] =>
        let v := eval vm_compute in (chr a) in change (chr a) with v
    end; lia.
Qed.

Lemma horner_uint (d : Decimal.uint) :
  horner 0 (text (NilEmpty.string_of_uint d)) = Z.of_N (Pos.of_uint d).
Proof.
  induction d; cbn [NilEmpty.string_of_uint text list_ascii_of_string
    Pos.of_uint]; [reflexivity | ..];
    try (unfold horner in *; cbn [fold_left]; exact IHd);
    unfold horner; cbn [fold_left Z.of_N];
    rewrite <- horner_uint_acc; reflexivity.
Qed.

Lemma nzhead_not_D0 (d d' : Decimal.uint) :
  Decimal.nzhead d <> Decimal.D0 d'.
Proof. induction d; cbn; try discriminate. assumption. Qed.

(** The decimal digits of a positive number do not start with a zero. *)
Lemma to_uint_head (p : positive) :
  exists a ds,
    text (NilEmpty.string_of_uint (Pos.to_uint p)) = a :: ds /\
    a <> "0"%char.
Proof.
  pose proof (DecimalPos.Unsigned.to_of (Pos.to_uint p)) as H.
  rewrite DecimalPos.Unsigned.of_to in H. cbn [N.to_uint] in H.
  pose proof (DecimalPos.Unsigned.to_uint_nonzero p) as Hz.
  pose proof (DecimalPos.Unsigned.to_uint_nonnil p) as Hn.
  destruct (Pos.to_uint p) as [|d|d|d|d|d|d|d|d|d|d];
    try (eexists; eexists; split; [reflexivity | discriminate]).
  - contradiction.
  - exfalso. unfold Decimal.unorm in H. cbn [Decimal.nzhead] in H.
    destruct (Decimal.nzhead d) eqn:E; try discriminate.
    + apply Hz. exact H.
    + apply (nzhead_not_D0 d d). rewrite E. congruence.
Qed.

Lemma fmt_d_zero : fmt_d 0 = "0"%string.
Proof. reflexivity. Qed.

Lemma fmt_d_pos (p : positive) :
  fmt_d (Z.pos p) = NilEmpty.string_of_uint (Pos.to_uint p).
Proof.
  unfold fmt_d. cbn [Z.to_int NilZero.string_of_int].
  unfold NilZero.string_of_uint.
  pose proof (DecimalPos.Unsigned.to_uint_nonnil p).
  destruct (Pos.to_uint p); try reflexivity. contradiction.
Qed.

Lemma fmt_d_neg (p : positive) :
  fmt_d (Z.neg p) = String "-" (fmt_d (Z.pos p)).
Proof.
  rewrite fmt_d_pos. unfold fmt_d. cbn [Z.to_int NilZero.string_of_int].
  unfold NilZero.string_of_uint.
  pose proof (DecimalPos.Unsigned.to_uint_nonnil p).
  destruct (Pos.to_uint p); try reflexivity. contradiction.
Qed.

(** What [%d] writes for an [int] that is not negative: digits, whose
    value is the [int], without a leading zero unless the [int] is
    zero. *)
Lemma fmt_d_digits (n : Z) :
  0 <= n ->
  text (fmt_d n) <> [] /\ Forall is_digit (text (fmt_d n)) /\
  number_value (text (fmt_d n)) = n /\
  (0 < n -> hd "0"%char (text (fmt_d n)) <> "0"%char).
Proof.
  intros Hn. destruct n as [|p|p]; [| |lia].
  - repeat split; try discriminate; try lia.
    repeat constructor; unfold is_digit; cbn; lia.
  - rewrite fmt_d_pos.
    destruct (to_uint_head p) as [a [ds [E Ha]]].
    split; [rewrite E; discriminate|]. split; [apply uint_digits|].
    split.
    + unfold number_value. rewrite horner_uint.
      now rewrite DecimalPos.Unsigned.of_to.
    + intros _. rewrite E. exact Ha.
Qed.

Lemma no_nl_app (s1 s2 : string) :
  no_nl (s1 ++ s2) = no_nl s1 && no_nl s2.
Proof. unfold no_nl. now rewrite text_app, forallb_app. Qed.

Lemma no_nl_Forall (s : string) :
  no_nl s = true -> Forall (fun a => a <> nl) (text s).
Proof.
  unfold no_nl. intros H. apply Forall_forall. intros a Ha.
  apply (proj1 (forallb_forall _ _) H) in Ha.
  intros ->. discriminate Ha.
Qed.

Lemma digits_no_nl (ds : list ascii) :
  Forall is_digit ds ->
  forallb (fun a => negb (Ascii.eqb a nl)) ds = true.
Proof.
  induction 1 as [|a ds Ha _ IH]; cbn [forallb]; [reflexivity|].
  rewrite IH, andb_true_r. unfold is_digit in Ha.
  destruct (Ascii.eqb_spec a nl) as [->|]; [cbn in Ha; lia | reflexivity].
Qed.

Lemma fmt_d_no_nl (n : Z) : no_nl (fmt_d n) = true.
Proof.
  unfold no_nl. destruct n as [|p|p].
  - reflexivity.
  - apply digits_no_nl. rewrite fmt_d_pos. apply uint_digits.
  - rewrite fmt_d_neg. cbn [text list_ascii_of_string forallb].
    change (list_ascii_of_string (fmt_d (Z.pos p)))
      with (text (fmt_d (Z.pos p))).
    rewrite digits_no_nl; [reflexivity|].
    rewrite fmt_d_pos. apply uint_digits.
Qed.

(** X2. What [%d] writes for an [int] from [0] to [INT_MAX] is read back
    by the loops of [parse] that read a number as the same [int]: its
    first character is a digit, and the loop, entered with the value of
    this digit on the digits that follow, returns the [int] and stops on
    the character behind the number. *)
Theorem written_number_read_back (e1 e2 : string) (n : Z)
    (rest : list ascii) (lineno : Z) :
  0 <= n <= INT_MAX ->
  match rest with [] => True | a :: _ => isdigit (chr a) = false end ->
  exists a ds,
    text (fmt_d n) = a :: ds /\ isdigit (chr a) = true /\
    parse_number e1 e2 (int_sub (chr a) (chr "0")) (ds ++ rest) lineno
    = let '(ch, file, lineno) := next_char rest lineno in
      Ok (n, ch, file, lineno).
Proof.
  intros Hn Hrest.
  destruct (fmt_d_digits n (proj1 Hn)) as [Hne [Hds [Hv _]]].
  destruct (text (fmt_d n)) as [|a ds]; [contradiction|].
  pose proof (Forall_inv Hds) as Ha.
  pose proof (Forall_inv_tail Hds) as Hds'.
  exists a, ds. split; [reflexivity|].
  split; [now apply isdigit_range|].
  unfold is_digit in Ha. rewrite digit_value by assumption.
  assert (horner (chr a - 48) ds = n) as E by exact Hv.
  rewrite parse_number_digits; try assumption; try lia.
  now rewrite E.
Qed.

Lemma written_number_read_back_witness :
  parse_number "" "" 2 (text "147483647" ++ [nl]) 1
  = Ok (2147483647, 10, [], 2).
Proof.
  destruct (written_number_read_back "" "" 2147483647 [nl] 1
              ltac:(unfold INT_MAX; lia) eq_refl) as [a [ds [E [_ H]]]].
  inversion E; subst. exact H.
Defined.

(** ** Comments in front of the header *)

Lemma parse_unfold (file : list ascii) :
  parse file
  = match parse_preamble (S (List.length file)) file 1 with
    | Err e => Err e
    | Ok (file, lineno) => parse_header file lineno
    end.
Proof. reflexivity. Qed.

Lemma skip_header_comment_body (body rest : list ascii) :
  Forall (fun a => a <> nl) body ->
  forall lineno, exists lineno',
    skip_header_comment (body ++ nl :: rest) lineno = Ok (rest, lineno').
Proof.
  induction 1 as [|a body Ha _ IH]; intros lineno;
    cbn [app skip_header_comment].
  - rewrite Z.eqb_refl. eauto.
  - destruct (Z.eqb_spec (chr a) (chr nl)) as [E|E].
    + apply chr_inj in E. contradiction.
    + apply IH.
Qed.

Lemma parse_preamble_comments (bodies : list (list ascii))
    (rest : list ascii) :
  Forall (Forall (fun a => a <> nl)) bodies ->
  forall fuel lineno, (List.length bodies < fuel)%nat ->
    exists lineno',
      parse_preamble fuel (comment_lines bodies ++ "p"%char :: rest) lineno
      = Ok (rest, lineno').
Proof.
  unfold comment_lines, gaps_text.
  induction 1 as [|body bodies Hb _ IH]; intros fuel lineno Hf;
    (destruct fuel as [|fuel]; [cbn in Hf; lia|]).
  - exists lineno. reflexivity.
  - cbn [map List.concat gap_text]. rewrite <- app_assoc.
    cbn [app parse_preamble next_char]. rewrite <- app_assoc. cbn [app].
    change (chr "c" =? EOF) with false.
    change (chr "c" =? chr "p") with false.
    change (chr "c" =? chr "c") with true. cbv iota.
    destruct (skip_header_comment_body body
                (List.concat (map gap_text (map Comment bodies))
                 ++ "p"%char :: rest) Hb (bump (chr "c") lineno))
      as [l' ->].
    apply IH. cbn [List.length] in Hf. lia.
Qed.

Lemma comment_lines_length (bodies : list (list ascii)) :
  (List.length bodies <= List.length (comment_lines bodies))%nat.
Proof.
  unfold comment_lines, gaps_text.
  induction bodies as [|b bodies IH]; cbn [map List.concat gap_text];
    [cbn; lia|].
  rewrite length_app. cbn [List.length]. lia.
Qed.

Lemma parse_header_total (file : list ascii) (lineno : Z) :
  parse_header file lineno <> Err out_of_fuel.
Proof.
  unfold parse_header.
  pose proof (parse_keyword_clean (list_ascii_of_string " cnf ") file lineno)
    as H1.
  destruct (parse_keyword _ file lineno) as [[f1 l1]|e]; [|congruence].
  destruct (next_char f1 l1) as [[ch2 f2] l2].
  destruct (negb (isdigit ch2)); [discriminate|].
  pose proof (parse_number_clean "variable number way too large"
                "variable number too large" f2 (int_sub ch2 (chr "0")) l2)
    as H2.
  destruct (parse_number _ _ (int_sub ch2 (chr "0")) f2 l2)
    as [[[[mv ch3] f3] l3]|e]; [|congruence].
  destruct (negb (ch3 =? chr " ")); [discriminate|].
  destruct (next_char f3 l3) as [[ch4 f4] l4].
  destruct (negb (isdigit ch4)); [discriminate|].
  pose proof (parse_number_clean "clause number way too large"
                "clause number too large" f4 (int_sub ch4 (chr "0")) l4)
    as H3.
  destruct (parse_number _ _ (int_sub ch4 (chr "0")) f4 l4)
    as [[[[spec ch5] f5] l5]|e]; [|congruence].
  pose proof (header_rest_clean f5 ch5 l5) as H4.
  destruct (header_rest ch5 f5 l5) as [[f6 l6]|e]; [|congruence].
  destruct (next_char f6 l6) as [[ch7 f7] l7] eqn:E.
  apply parse_clauses_total.
  destruct f6 as [|a f6]; cbn [next_char] in E; inversion E; subst.
  - cbn. lia.
  - unfold pending. rewrite chr_not_EOF. cbn. lia.
Qed.

(** The header and the clauses of a DIMACS text, from any line. *)
Lemma parse_header_dimacs (dv dc : list ascii) (lead : list gap)
    (bs : list block) (lineno : Z) :
  dv <> [] -> Forall is_digit dv -> number_value dv <= INT_MAX ->
  dc <> [] -> Forall is_digit dc ->
  number_value dc = Z.of_nat (List.length bs) -> number_value dc <= INT_MAX ->
  Forall gap_ok lead ->
  Forall (block_ok (number_value dv)) bs ->
  parse_header
    (text " cnf " ++ dv ++ [" "%char] ++ dc ++ [nl]
     ++ gaps_text lead ++ List.concat (map block_text bs)) lineno
  = Ok {| max_var := number_value dv; num_clauses := number_value dc;
          clauses := map (fun b => block_values b ++ [0]) bs |}.
Proof.
  intros Hdv Hv Hvmax Hdc Hc Hclen Hcmax Hlead Hbs.
  destruct dv as [|v0 dv]; [contradiction|].
  destruct dc as [|c0 dc]; [contradiction|].
  pose proof (Forall_inv Hv) as Hv0. pose proof (Forall_inv_tail Hv) as Hv'.
  pose proof (Forall_inv Hc) as Hc0. pose proof (Forall_inv_tail Hc) as Hc'.
  unfold is_digit in Hv0, Hc0.
  pose proof (horner_ge dv Hv' (chr v0 - 48)) as Hvge.
  pose proof (horner_ge dc Hc' (chr c0 - 48)) as Hcge.
  set (mv := number_value (v0 :: dv)) in *.
  set (spec := number_value (c0 :: dc)) in *.
  assert (Emv : mv = horner (chr v0 - 48) dv) by reflexivity.
  assert (Espec : spec = horner (chr c0 - 48) dc) by reflexivity.
  set (body := gaps_text lead ++ List.concat (map block_text bs)).
  set (file := text " cnf " ++ (v0 :: dv) ++ [" "%char] ++ (c0 :: dc)
               ++ [nl] ++ body).
  assert (E : exists fuel lineno',
             parse_header file lineno
             = clauses_from fuel mv spec body lineno' 0 [] []).
  { unfold parse_header, file.
    change (text " cnf ") with [" "; "c"; "n"; "f"; " "]%char.
    change (list_ascii_of_string " cnf ") with [" "; "c"; "n"; "f"; " "]%char.
    cbn [app]. cbn [parse_keyword next_char].
    change (chr " " =? chr " ") with true.
    change (chr "c" =? chr "c") with true.
    change (chr "n" =? chr "n") with true.
    change (chr "f" =? chr "f") with true. cbn [negb]. cbv iota.
    cbn [next_char].
    rewrite (proj2 (isdigit_range (chr v0)) Hv0). cbn [negb].
    rewrite digit_value by assumption.
    rewrite (parse_number_digits _ _ dv (" "%char :: c0 :: dc ++ nl :: body)
               Hv' eq_refl) by lia.
    cbn [app next_char].
    change (chr " " =? chr " ") with true. cbn [negb]. cbv iota.
    rewrite (proj2 (isdigit_range (chr c0)) Hc0). cbn [negb].
    rewrite digit_value by assumption.
    rewrite (parse_number_digits _ _ dc (nl :: body) Hc' eq_refl) by lia.
    cbn [app next_char]. rewrite header_rest_nl.
    rewrite <- Emv, <- Espec.
    match goal with
    | |- context [next_char body ?L] =>
        exists (2 + List.length (snd (fst (next_char body L))))%nat, L
    end.
    unfold clauses_from.
    destruct (next_char body _) as [[ch f] l]. reflexivity. }
  destruct E as [fuel [lineno' E]].
  assert (R : runs_to (clauses_from fuel mv spec body lineno' 0 [] [])
                (fun fuel lineno =>
                   clauses_from fuel mv spec
                     (List.concat (map block_text bs)) lineno 0 [] [])).
  { apply skip_gaps; try assumption; unfold mv, spec; lia. }
  destruct R as [R|[fuel' [lineno'' R]]].
  { exfalso. apply (parse_header_total file lineno). now rewrite E. }
  rewrite R in E.
  destruct (blocks_run mv spec ltac:(lia) ltac:(lia) bs Hbs 0 [] fuel'
              lineno'' ltac:(lia) ltac:(lia)) as [B|B]; cbv zeta in B;
    rewrite B in E.
  - exfalso. now apply (parse_header_total _ _ E).
  - exact E.
Qed.

(** A DIMACS text with lines of comment in front of its header. *)
Lemma parse_commented_dimacs (bodies : list (list ascii))
    (dv dc : list ascii) (lead : list gap) (bs : list block) :
  Forall (Forall (fun a => a <> nl)) bodies ->
  dv <> [] -> Forall is_digit dv -> number_value dv <= INT_MAX ->
  dc <> [] -> Forall is_digit dc ->
  number_value dc = Z.of_nat (List.length bs) -> number_value dc <= INT_MAX ->
  Forall gap_ok lead ->
  Forall (block_ok (number_value dv)) bs ->
  parse (comment_lines bodies ++ dimacs_text dv dc lead bs)
  = Ok {| max_var := number_value dv; num_clauses := number_value dc;
          clauses := map (fun b => block_values b ++ [0]) bs |}.
Proof.
  intros Hbodies Hdv Hv Hvmax Hdc Hc Hclen Hcmax Hlead Hbs.
  rewrite parse_unfold. unfold dimacs_text.
  change (text "p cnf ") with ("p"%char :: text " cnf ").
  rewrite <- (app_comm_cons (text " cnf ")).
  set (rest := text " cnf " ++ dv ++ [" "%char] ++ dc ++ [nl]
               ++ gaps_text lead ++ List.concat (map block_text bs)).
  destruct (parse_preamble_comments bodies rest Hbodies
              (S (List.length (comment_lines bodies ++ "p"%char :: rest))) 1)
    as [l' ->].
  { rewrite length_app. pose proof (comment_lines_length bodies). lia. }
  now apply parse_header_dimacs.
Qed.

(** ** What [print] writes is a DIMACS text *)

Lemma print_message_text (msg : string) :
  text (print_message msg)
  = gap_text (Comment (" "%char :: text msg)).
Proof.
  unfold print_message, newline. rewrite !text_app. reflexivity.
Qed.

Lemma banner_lines (VERSION GITID : string) (fmt_g : double -> string)
    (o : options) :
  banner VERSION GITID fmt_g o
  = String.concat ""
      (map print_message (banner_messages VERSION GITID fmt_g o)).
Proof.
  unfold banner, banner_messages.
  destruct (reverse_variables o), (reverse_clauses o),
    (permute_variables o), (permute_clauses o); reflexivity.
Qed.

Section Rewritten.

Variables VERSION GITID : string.
Variable fmt_g : double -> string.
Hypothesis VERSION_line : no_nl VERSION = true.
Hypothesis GITID_line : no_nl GITID = true.
Hypothesis fmt_g_line : forall x, no_nl (fmt_g x) = true.

Lemma banner_messages_lines (o : options) :
  Forall (fun msg => no_nl msg = true)
    (banner_messages VERSION GITID fmt_g o).
Proof.
  unfold banner_messages.
  destruct (reverse_variables o), (reverse_clauses o),
    (permute_variables o), (permute_clauses o), (absolute_windows o);
    cbn [app]; repeat constructor;
    rewrite ?no_nl_app, ?VERSION_line, ?GITID_line, ?fmt_g_line,
      ?fmt_d_no_nl; reflexivity.
Qed.

(** The banner is made of lines of comment. *)
Lemma banner_comments (o : options) :
  exists bodies,
    text (banner VERSION GITID fmt_g o) = comment_lines bodies /\
    Forall (Forall (fun a => a <> nl)) bodies.
Proof.
  exists (map (fun msg => " "%char :: text msg)
            (banner_messages VERSION GITID fmt_g o)).
  split.
  - rewrite banner_lines, text_concat.
    unfold comment_lines, gaps_text. rewrite !map_map. f_equal.
    apply map_ext. intros msg. apply print_message_text.
  - rewrite Forall_map.
    eapply Forall_impl; [|apply banner_messages_lines].
    intros msg H. constructor; [discriminate|]. now apply no_nl_Forall.
Qed.

End Rewritten.

Lemma fmt_d_sign (d : Z) :
  text (fmt_d d)
  = (if d <? 0 then ["-"%char] else []) ++ text (fmt_d (Z.abs d)).
Proof.
  destruct d as [|p|p]; reflexivity.
Qed.

Lemma print_clause_text_block (ds : list Z) :
  text (print_clause_text ds) = block_text (written_block ds).
Proof.
  unfold print_clause_text, block_text, written_block, newline.
  cbn [block_literals block_end].
  rewrite text_app, text_concat, !map_map. f_equal.
  f_equal. apply map_ext. intros d.
  unfold token_text, written_token. cbn [negative digits gaps].
  rewrite text_app, fmt_d_sign, <- app_assoc. reflexivity.
Qed.

Lemma written_token_ok (mv d : Z) :
  1 <= Z.abs d <= mv ->
  token_ok mv (written_token d) /\ token_value (written_token d) = d.
Proof.
  intros Hd.
  destruct (fmt_d_digits (Z.abs d) ltac:(lia)) as [Hne [Hds [Hv Hhd]]].
  split.
  - constructor; cbn [negative digits gaps written_token]; try assumption.
    + discriminate.
    + repeat constructor.
    + intros _. apply Hhd. lia.
    + lia.
  - unfold token_value. cbn [negative digits written_token]. rewrite Hv.
    destruct (Z.ltb_spec d 0); lia.
Qed.

Lemma written_block_ok (mv : Z) (ds : list Z) :
  0 <= mv -> Forall (fun d => 1 <= Z.abs d <= mv) ds ->
  block_ok mv (written_block ds) /\ block_values (written_block ds) = ds.
Proof.
  intros Hmv Hds. split.
  - constructor; cbn [block_literals block_end written_block].
    + rewrite Forall_map. eapply Forall_impl; [|exact Hds].
      intros d Hd. apply (written_token_ok mv d Hd).
    + rewrite Forall_map. eapply Forall_impl; [|exact Hds].
      intros d Hd. cbv beta in Hd.
      rewrite (proj2 (written_token_ok mv d Hd)). lia.
    + constructor; cbn [negative digits gaps]; try discriminate.
      * repeat constructor; unfold is_digit; cbn; lia.
      * repeat constructor.
      * cbn. lia.
    + reflexivity.
  - unfold block_values. cbn [block_literals written_block].
    rewrite map_map. rewrite <- (map_id ds) at 2.
    apply map_ext_in. intros d Hd.
    apply (written_token_ok mv d).
    apply (proj1 (Forall_forall _ _) Hds d Hd).
Qed.

(** The literals that [print] writes are variables of the formula, with
    a sign. *)
Lemma scrambled_clause_range (o : options) (c : cnf) (m : maps) (i : Z) :
  cnf_ok c -> maps_ok c m -> 0 <= i < num_clauses c ->
  Forall (fun d => 1 <= Z.abs d <= max_var c) (scrambled_clause o c m i).
Proof.
  intros Hc Hm Hi. unfold scrambled_clause. rewrite Forall_map.
  apply Forall_forall. intros src Hsrc.
  assert (literal_ok (max_var c) src) as Hok.
  { eapply (clause_literals_ok c _ src Hc); [|exact Hsrc].
    apply nth_In.
    pose proof (clause_source_range o c m i Hm Hi).
    pose proof (num_clauses_length c Hc). lia. }
  destruct (scrambled_literal_shape o c m src Hm Hok)
    as [_ [Hv [_ [Habs _]]]].
  lia.
Qed.

Lemma emitted_range (o : options) (c : cnf) (m : maps) :
  cnf_ok c -> maps_ok c m ->
  Forall (Forall (fun d => 1 <= Z.abs d <= max_var c))
    (map (scrambled_clause o c m) (zseq 0 (Z.to_nat (num_clauses c)))).
Proof.
  intros Hc Hm. rewrite Forall_map. apply Forall_forall.
  intros i Hi. apply zseq_In in Hi.
  apply scrambled_clause_range; try assumption. lia.
Qed.

Lemma print_header_text_dimacs (c : cnf) (out : list (list Z)) :
  text (print_header_text c
        ++ String.concat "" (map print_clause_text out))
  = dimacs_text (text (fmt_d (max_var c))) (text (fmt_d (num_clauses c))) []
      (map written_block out).
Proof.
  unfold print_header_text, dimacs_text, newline.
  rewrite !text_app, text_concat, !map_map. cbn [gaps_text map List.concat app].
  rewrite <- !app_assoc. f_equal. f_equal.
  change (text " ") with [" "%char]. change (text (String nl "")) with [nl].
  cbn [app]. do 4 f_equal.
  apply map_ext. intros ds. apply print_clause_text_block.
Qed.

Section Reparse.

Variables VERSION GITID : string.
Variable fmt_g : double -> string.
Hypothesis VERSION_line : no_nl VERSION = true.
Hypothesis GITID_line : no_nl GITID = true.
Hypothesis fmt_g_line : forall x, no_nl (fmt_g x) = true.

Lemma print_parsed (o : options) (c : cnf) (out : list (list Z)) :
  0 <= max_var c <= INT_MAX -> 0 <= num_clauses c <= INT_MAX ->
  Z.of_nat (List.length out) = num_clauses c ->
  Forall (Forall (fun d => 1 <= Z.abs d <= max_var c)) out ->
  parse (text (banner VERSION GITID fmt_g o ++ print_header_text c
               ++ String.concat "" (map print_clause_text out)))
  = Ok (written_cnf c out).
Proof.
  intros Hmv Hnc Hlen Hout.
  destruct (banner_comments VERSION GITID fmt_g VERSION_line GITID_line
              fmt_g_line o) as [bodies [Eb Hb]].
  rewrite text_app, Eb, print_header_text_dimacs.
  destruct (fmt_d_digits (max_var c) (proj1 Hmv)) as [Hv1 [Hv2 [Hv3 _]]].
  destruct (fmt_d_digits (num_clauses c) (proj1 Hnc)) as [Hc1 [Hc2 [Hc3 _]]].
  rewrite parse_commented_dimacs; try assumption.
  - unfold written_cnf. rewrite Hv3, Hc3. f_equal. f_equal.
    rewrite map_map. apply map_ext_in. intros ds Hds.
    rewrite (proj2 (written_block_ok (max_var c) ds (proj1 Hmv)
                      (proj1 (Forall_forall _ _) Hout ds Hds))).
    reflexivity.
  - lia.
  - rewrite Hc3, length_map. lia.
  - lia.
  - constructor.
  - rewrite Hv3, Forall_map. eapply Forall_impl; [|exact Hout].
    intros ds Hds. apply (written_block_ok (max_var c) ds (proj1 Hmv) Hds).
Qed.

(** X3. What the program writes is a file that the program reads: for
    every file that [parse] accepts and every combination of options
    (with a banner whose parts hold no new line), [parse] accepts the
    text that [print] writes, and returns the number of variables and of
    clauses of the input with the clauses that were written, each with
    its literals in the order in which they were written. *)
Theorem output_parses_back (file : list ascii) (c : cnf) (o : options)
    (g : rng) :
  parse file = Ok c ->
  let m := fst (scramble o c g) in
  exists out txt,
    emit o c m = Ok out /\
    scranfilize VERSION GITID fmt_g o file g = Ok txt /\
    parse (text txt) = Ok (written_cnf c out).
Proof.
  intros H m.
  destruct (parsed_maps file c o g H) as [Hc Hm]. fold m in Hm.
  pose proof (emit_spec o c m Hc Hm) as E.
  eexists. eexists. split; [exact E|].
  unfold scranfilize. rewrite H.
  destruct (scramble o c g) as [m' s] eqn:Es. cbn [fst] in m. subst m.
  unfold print. rewrite E. split; [reflexivity|].
  destruct Hc as [Hmv Hnc Hlen Hcls].
  apply print_parsed; try assumption.
  - rewrite length_map, zseq_length. lia.
  - apply emitted_range; [now constructor | assumption].
Qed.

End Reparse.

Lemma output_parses_back_witness :
  exists out txt,
    scranfilize "1.0" "0" (fun _ => "0"%string) busy_options sample_file 0
    = Ok txt /\
    parse (text txt) = Ok (written_cnf sample_cnf out).
Proof.
  destruct (output_parses_back "1.0" "0" (fun _ => "0"%string)
              eq_refl eq_refl (fun _ => eq_refl)
              sample_file sample_cnf busy_options 0 sample_parsed)
    as [out [txt [_ [H1 H2]]]].
  exists out, txt. split; assumption.
Defined.

(** ** Without scrambling, the formula comes back *)

Lemma plain_emit (c : cnf) (o : options) (g : rng) :
  cnf_ok c ->
  permute_variables o = false -> permute_clauses o = false ->
  reverse_variables o = false -> reverse_clauses o = false ->
  SFeqb (literal_flip_probability o) d0 = true ->
  SFeqb (variable_move_window o) d0 = true ->
  SFeqb (clause_move_window o) d0 = true ->
  emit o c (fst (scramble o c g)) = Ok (map literals_of (clauses c)).
Proof.
  intros Hok Hpv Hpc Hrv Hrc Hf Hv Hc.
  pose proof (scramble_ok o c g Hok) as Hm.
  set (m := fst (scramble o c g)) in *.
  pose proof (max_var_range c Hok) as Hmv.
  pose proof (num_clauses_range c Hok) as Hnc.
  pose proof (num_clauses_length c Hok) as Hlen.
  assert (variable_map m = zseq 0 (Z.to_nat (max_var c))) as Evm.
  { unfold m. rewrite scramble_maps. cbn [variable_map]. rewrite Hpv.
    now apply rank_window_zero. }
  assert (clause_map m = zseq 0 (Z.to_nat (num_clauses c))) as Ecm.
  { unfold m. rewrite scramble_maps. cbn [clause_map]. rewrite Hpc.
    now apply rank_window_zero. }
  assert (flipped m = repeat false (Z.to_nat (max_var c))) as Efl.
  { unfold m. rewrite scramble_maps. cbn [flipped]. unfold flip.
    destruct (is_zero _ Hf) as [s ->]. reflexivity. }
  rewrite (emit_spec o c m Hok Hm). f_equal.
  rewrite <- (map_nth_zseq (clauses c) []) at 1.
  rewrite map_map.
  replace (List.length (clauses c)) with (Z.to_nat (num_clauses c)) by lia.
  apply map_ext_in. intros i Hi. apply zseq_In in Hi.
  unfold scrambled_clause, clause_source. rewrite Hrc, Ecm.
  rewrite zseq_nth by lia.
  replace (0 + Z.of_nat (Z.to_nat i)) with i by lia.
  rewrite <- (map_id (literals_of _)) at 2.
  apply map_ext_in. intros src Hsrc.
  assert (literal_ok (max_var c) src) as [Hnz Hr].
  { eapply (clause_literals_ok c _ src Hok); [|exact Hsrc].
    apply nth_In. lia. }
  unfold scrambled_literal, literal_index. rewrite Hrv, Evm, Efl.
  rewrite zseq_nth by lia. rewrite nth_repeat, xorb_false_r.
  destruct (Z.ltb_spec src 0); lia.
Qed.

Lemma written_cnf_same (c : cnf) :
  cnf_ok c -> written_cnf c (map literals_of (clauses c)) = c.
Proof.
  intros [_ _ _ Hcls]. destruct c as [mv nc cls].
  unfold written_cnf. cbn [max_var num_clauses clauses] in *. f_equal.
  rewrite map_map. rewrite <- (map_id cls) at 2.
  apply map_ext_in. intros p Hp.
  destruct (proj1 (Forall_forall _ _) Hcls p Hp) as [lits [-> Hlits]].
  now rewrite (literals_of_app _ _ Hlits).
Qed.

Section PlainReparse.

Variables VERSION GITID : string.
Variable fmt_g : double -> string.
Hypothesis VERSION_line : no_nl VERSION = true.
Hypothesis GITID_line : no_nl GITID = true.
Hypothesis fmt_g_line : forall x, no_nl (fmt_g x) = true.

(** X4. Without [-p], [-P], [-r], [-R], with a flip probability of zero
    and windows of width zero, the program writes a file that [parse]
    reads as the CNF of its input: the same numbers of variables and
    clauses and the same clause arrays.  Comments and the layout of the
    input are what is lost. *)
Theorem plain_output_parses_to_input (file : list ascii) (c : cnf)
    (o : options) (g : rng) :
  parse file = Ok c ->
  permute_variables o = false -> permute_clauses o = false ->
  reverse_variables o = false -> reverse_clauses o = false ->
  SFeqb (literal_flip_probability o) d0 = true ->
  SFeqb (variable_move_window o) d0 = true ->
  SFeqb (clause_move_window o) d0 = true ->
  exists txt,
    scranfilize VERSION GITID fmt_g o file g = Ok txt /\
    parse (text txt) = Ok c.
Proof.
  intros H Hpv Hpc Hrv Hrc Hf Hv Hw.
  pose proof (parse_ok file c H) as Hc.
  pose proof (plain_emit c o g Hc Hpv Hpc Hrv Hrc Hf Hv Hw) as E.
  unfold scranfilize. rewrite H.
  destruct (scramble o c g) as [m s]. cbn [fst] in E.
  unfold print. rewrite E. eexists. split; [reflexivity|].
  destruct Hc as [Hmv Hnc Hlen Hcls].
  rewrite (print_parsed VERSION GITID fmt_g VERSION_line GITID_line
             fmt_g_line o c (map literals_of (clauses c)) Hmv Hnc).
  - f_equal. apply written_cnf_same. now constructor.
  - rewrite length_map. exact Hlen.
  - rewrite Forall_map. apply Forall_forall. intros p Hp.
    destruct (proj1 (Forall_forall _ _) Hcls p Hp) as [lits [-> Hlits]].
    rewrite (literals_of_app _ _ Hlits).
    eapply Forall_impl; [|exact Hlits].
    intros lit [Hnz Hr]. lia.
Qed.

End PlainReparse.

Lemma plain_output_parses_to_input_witness :
  exists txt,
    scranfilize "1.0" "0" (fun _ => "0"%string) plain_options sample_file 0
    = Ok txt /\
    parse (text txt) = Ok sample_cnf.
Proof.
  exact (plain_output_parses_to_input "1.0" "0" (fun _ => "0"%string)
           eq_refl eq_refl (fun _ => eq_refl)
           sample_file sample_cnf plain_options 0 sample_parsed
           eq_refl eq_refl eq_refl eq_refl eq_refl eq_refl eq_refl).
Defined.

(** ** Parser: errors *)

Lemma skip_header_comment_line (body rest : list ascii) :
  Forall (fun a => a <> nl) body ->
  forall lineno,
    skip_header_comment (body ++ nl :: rest) lineno
    = Ok (rest, int_add lineno 1).
Proof.
  induction 1 as [|a body Ha _ IH]; intros lineno;
    cbn [app skip_header_comment].
  - rewrite Z.eqb_refl. unfold bump. now rewrite Z.eqb_refl.
  - destruct (Z.eqb_spec (chr a) (chr nl)) as [E|E].
    + apply chr_inj in E. contradiction.
    + unfold bump at 1. destruct (Z.eqb_spec (chr a) (chr nl)); [lia|].
      apply IH.
Qed.

(** The lines of comment in front of the header are skipped, and
    counted. *)
Lemma parse_preamble_skip (bodies : list (list ascii)) (rest : list ascii) :
  Forall (Forall (fun a => a <> nl)) bodies ->
  forall fuel lineno,
    -2147483648 <= lineno ->
    lineno + Z.of_nat (List.length bodies) <= INT_MAX ->
    parse_preamble (List.length bodies + fuel) (comment_lines bodies ++ rest)
      lineno
    = parse_preamble fuel rest (lineno + Z.of_nat (List.length bodies)).
Proof.
  unfold comment_lines, gaps_text.
  induction 1 as [|body bodies Hb _ IH]; intros fuel lineno Hl Hmax.
  - cbn. now rewrite Z.add_0_r.
  - cbn [List.length] in *. rewrite Nat2Z.inj_succ in Hmax.
    cbn [map List.concat gap_text Nat.add]. rewrite <- app_assoc.
    cbn [app parse_preamble next_char]. rewrite <- app_assoc. cbn [app].
    change (chr "c" =? EOF) with false.
    change (chr "c" =? chr "p") with false.
    change (chr "c" =? chr "c") with true. cbv iota.
    change (bump (chr "c") lineno) with lineno.
    rewrite (skip_header_comment_line body _ Hb).
    rewrite int_add_small by (unfold INT_MAX in *; lia).
    rewrite IH by lia. f_equal. lia.
Qed.

Lemma parse_after_comments (bodies : list (list ascii)) (rest : list ascii) :
  Forall (Forall (fun a => a <> nl)) bodies ->
  1 + Z.of_nat (List.length bodies) <= INT_MAX ->
  exists fuel,
    (List.length rest < fuel)%nat /\
    parse (comment_lines bodies ++ rest)
    = match parse_preamble fuel rest (1 + Z.of_nat (List.length bodies)) with
      | Err e => Err e
      | Ok (file, lineno) => parse_header file lineno
      end.
Proof.
  intros Hb Hmax. rewrite parse_unfold.
  pose proof (comment_lines_length bodies) as Hlen.
  exists (S (List.length (comment_lines bodies ++ rest))
          - List.length bodies)%nat.
  rewrite length_app. split; [lia|].
  replace (S (List.length (comment_lines bodies) + List.length rest))
    with (List.length bodies
          + (S (List.length (comment_lines bodies) + List.length rest)
             - List.length bodies))%nat at 1 by lia.
  rewrite parse_preamble_skip; try assumption; [reflexivity | lia].
Qed.

(** X5. A file has to start with lines of comment or with its header:
    behind any number of comment lines, the end of the file or a
    character other than ['c'] and ['p'] (a space or an empty line, for
    one) is an error, reported with the number of the line on which it
    was read. *)
Theorem header_must_come_first (bodies : list (list ascii)) :
  Forall (Forall (fun a => a <> nl)) bodies ->
  1 + Z.of_nat (List.length bodies) < INT_MAX ->
  parse (comment_lines bodies)
  = Err (parse_error (1 + Z.of_nat (List.length bodies))
           "unexpected end-of-file before header") /\
  forall a rest,
    a <> "p"%char -> a <> "c"%char ->
    parse (comment_lines bodies ++ a :: rest)
    = Err (parse_error
             (if Ascii.eqb a nl then 2 + Z.of_nat (List.length bodies)
              else 1 + Z.of_nat (List.length bodies))
             (unexpected_character (chr a))).
Proof.
  intros Hb Hmax. split.
  - destruct (parse_after_comments bodies [] Hb ltac:(lia)) as [fuel [Hf E]].
    rewrite app_nil_r in E. rewrite E.
    destruct fuel as [|fuel]; [cbn in Hf; lia|]. reflexivity.
  - intros a rest Hp Hc.
    destruct (parse_after_comments bodies (a :: rest) Hb ltac:(lia))
      as [fuel [Hf E]].
    rewrite E. destruct fuel as [|fuel]; [cbn in Hf; lia|].
    cbn [parse_preamble next_char]. rewrite chr_not_EOF.
    destruct (Z.eqb_spec (chr a) (chr "p")) as [E1|_];
      [apply chr_inj in E1; contradiction|].
    destruct (Z.eqb_spec (chr a) (chr "c")) as [E1|_];
      [apply chr_inj in E1; contradiction|].
    assert (bump (chr a) (1 + Z.of_nat (List.length bodies))
            = if Ascii.eqb a nl then 2 + Z.of_nat (List.length bodies)
              else 1 + Z.of_nat (List.length bodies)) as ->.
    { unfold bump. destruct (Ascii.eqb_spec a nl) as [->|Hn].
      - rewrite Z.eqb_refl. rewrite int_add_small; unfold INT_MAX in *; lia.
      - destruct (Z.eqb_spec (chr a) (chr nl)) as [E1|_];
          [apply chr_inj in E1; contradiction | reflexivity]. }
    unfold unexpected_character. destruct (isprint (chr a)); reflexivity.
Qed.

Lemma header_must_come_first_witness :
  parse (comment_lines [text " a comment"] ++ nl :: text "p cnf 0 0")
  = Err (parse_error 3 "unexpected character (code '10')").
Proof.
  refine (proj2 (header_must_come_first [text " a comment"] _ _) nl
            (text "p cnf 0 0") _ _).
  - repeat constructor; discriminate.
  - cbn. unfold INT_MAX. lia.
  - discriminate.
  - discriminate.
Defined.

(** X6. The loops that read a number do not wrap around: from a value
    [n] of what was read, on digits followed by something else, they
    return the decimal value of the whole number when it is at most
    [INT_MAX], and report one of their two errors when it is larger. *)
Theorem number_is_exact_or_refused (e1 e2 : string) (ds rest : list ascii)
    (n lineno : Z) :
  Forall is_digit ds ->
  match rest with [] => True | a :: _ => isdigit (chr a) = false end ->
  0 <= n <= INT_MAX ->
  (horner n ds <= INT_MAX ->
   parse_number e1 e2 n (ds ++ rest) lineno
   = let '(ch, file, lineno) := next_char rest lineno in
     Ok (horner n ds, ch, file, lineno)) /\
  (INT_MAX < horner n ds ->
   parse_number e1 e2 n (ds ++ rest) lineno = Err (parse_error lineno e1) \/
   parse_number e1 e2 n (ds ++ rest) lineno = Err (parse_error lineno e2)).
Proof.
  intros Hds Hrest Hn. split.
  - intros Hv. apply parse_number_digits; try assumption. lia.
  - revert n Hn. induction Hds as [|a ds Ha Hds IH]; intros n Hn Hv.
    + unfold horner in Hv. cbn in Hv. lia.
    + cbn [app parse_number]. cbv zeta. unfold is_digit in Ha.
      rewrite (proj2 (isdigit_range (chr a)) Ha).
      rewrite bump_digit by assumption.
      change (INT_MAX / 10) with 214748364.
      destruct (Z.ltb_spec 214748364 n); [now left|].
      rewrite digit_value by assumption.
      rewrite int_mul_small by (unfold INT_MAX in *; lia).
      rewrite int_sub_small by (unfold INT_MAX; lia).
      destruct (Z.ltb_spec (INT_MAX - (chr a - 48)) (n * 10));
        [now right|].
      rewrite int_add_small by (unfold INT_MAX in *; lia).
      apply IH; [lia | exact Hv].
Qed.

Lemma number_is_exact_or_refused_witness :
  parse_number "way too large" "too large" 2 (text "147483648" ++ [nl]) 1
  = Err (parse_error 1 "way too large") \/
  parse_number "way too large" "too large" 2 (text "147483648" ++ [nl]) 1
  = Err (parse_error 1 "too large").
Proof.
  refine (proj2 (number_is_exact_or_refused "way too large" "too large"
                   (text "147483648") [nl] 2 1 _ eq_refl _) _).
  - repeat constructor; unfold is_digit; cbn; lia.
  - unfold INT_MAX. lia.
  - cbn. unfold INT_MAX. lia.
Defined.

Lemma parse_header_enter (dv dc body : list ascii) (lineno : Z) :
  header_number dv -> header_number dc ->
  exists fuel lineno',
    parse_header (text " cnf " ++ dv ++ [" "%char] ++ dc ++ [nl] ++ body)
      lineno
    = clauses_from fuel (number_value dv) (number_value dc) body lineno'
        0 [] [].
Proof.
  intros [Hdv [Hv Hvmax]] [Hdc [Hc Hcmax]].
  destruct dv as [|v0 dv]; [contradiction|].
  destruct dc as [|c0 dc]; [contradiction|].
  pose proof (Forall_inv Hv) as Hv0. pose proof (Forall_inv_tail Hv) as Hv'.
  pose proof (Forall_inv Hc) as Hc0. pose proof (Forall_inv_tail Hc) as Hc'.
  unfold is_digit in Hv0, Hc0.
  set (mv := number_value (v0 :: dv)) in *.
  set (spec := number_value (c0 :: dc)) in *.
  assert (Emv : mv = horner (chr v0 - 48) dv) by reflexivity.
  assert (Espec : spec = horner (chr c0 - 48) dc) by reflexivity.
  unfold parse_header.
  change (text " cnf ") with [" "; "c"; "n"; "f"; " "]%char.
  change (list_ascii_of_string " cnf ") with [" "; "c"; "n"; "f"; " "]%char.
  cbn [app]. cbn [parse_keyword next_char].
  change (chr " " =? chr " ") with true.
  change (chr "c" =? chr "c") with true.
  change (chr "n" =? chr "n") with true.
  change (chr "f" =? chr "f") with true. cbn [negb]. cbv iota.
  cbn [next_char].
  rewrite (proj2 (isdigit_range (chr v0)) Hv0). cbn [negb].
  rewrite digit_value by assumption.
  rewrite (parse_number_digits _ _ dv (" "%char :: c0 :: dc ++ nl :: body)
             Hv' eq_refl) by lia.
  cbn [app next_char].
  change (chr " " =? chr " ") with true. cbn [negb]. cbv iota.
  rewrite (proj2 (isdigit_range (chr c0)) Hc0). cbn [negb].
  rewrite digit_value by assumption.
  rewrite (parse_number_digits _ _ dc (nl :: body) Hc' eq_refl) by lia.
  cbn [app next_char]. rewrite header_rest_nl.
  rewrite <- Emv, <- Espec.
  match goal with
  | |- context [next_char body ?L] =>
      exists (2 + List.length (snd (fst (next_char body L))))%nat, L
  end.
  unfold clauses_from.
  destruct (next_char body _) as [[ch f] l]. reflexivity.
Qed.

(** Behind its head, a DIMACS text is read by the loop of the clauses. *)
Lemma parse_enter (bodies : list (list ascii)) (dv dc body : list ascii) :
  Forall (Forall (fun a => a <> nl)) bodies ->
  header_number dv -> header_number dc ->
  exists fuel lineno,
    parse (dimacs_head bodies dv dc ++ body)
    = clauses_from fuel (number_value dv) (number_value dc) body lineno
        0 [] [].
Proof.
  intros Hb Hdv Hdc. rewrite parse_unfold. unfold dimacs_head.
  rewrite <- !app_assoc.
  change (text "p cnf ") with ("p"%char :: text " cnf ").
  rewrite <- (app_comm_cons (text " cnf ")).
  set (rest := text " cnf " ++ dv ++ [" "%char] ++ dc ++ [nl] ++ body).
  destruct (parse_preamble_comments bodies rest Hb
              (S (List.length (comment_lines bodies ++ "p"%char :: rest))) 1)
    as [l' ->].
  { rewrite length_app. pose proof (comment_lines_length bodies). lia. }
  now apply parse_header_enter.
Qed.

Lemma runs_to_ends (msg : string) (r : result error cnf)
    (k : nat -> Z -> result error cnf) :
  runs_to r k -> (forall fuel lineno, ends_with msg (k fuel lineno)) ->
  ends_with msg r.
Proof.
  intros [H|[fuel [lineno H]]] Hk; [now left|]. rewrite H. apply Hk.
Qed.

(** A run of [parse] that can only end with the message [msg] ends with
    it. *)
Lemma parse_ends (msg : string) (file : list ascii) :
  ends_with msg (parse file) ->
  exists lineno, parse file = Err (parse_error lineno msg).
Proof.
  intros [H|H]; [|exact H]. exfalso. exact (parse_total file H).
Qed.

Section ClauseErrors.

Variables mv spec : Z.
Hypothesis mv_range : 0 <= mv <= INT_MAX.
Hypothesis spec_range : 0 <= spec <= INT_MAX.

Lemma blocks_step (bs : list block) (rest : list ascii) :
  Forall (block_ok mv) bs ->
  forall nc cls fuel lineno,
    0 <= nc -> nc + Z.of_nat (List.length bs) <= spec ->
    runs_to
      (clauses_from fuel mv spec (List.concat (map block_text bs) ++ rest)
         lineno nc cls [])
      (fun fuel lineno =>
         clauses_from fuel mv spec rest lineno
           (nc + Z.of_nat (List.length bs))
           (cls ++ map (fun b => block_values b ++ [0]) bs) []).
Proof.
  induction 1 as [|b bs Hb _ IH]; intros nc cls fuel lineno Hnc Hlen.
  - right. exists fuel, lineno. cbn [map List.concat app List.length].
    now rewrite app_nil_r, Z.add_0_r.
  - cbn [List.length] in *. rewrite Nat2Z.inj_succ in *.
    cbn [map List.concat]. rewrite <- app_assoc.
    eapply runs_to_trans;
      [apply (block_step mv spec mv_range spec_range b _ nc cls Hb);
       lia|].
    intros fuel' lineno'. cbv beta.
    replace (cls ++ (block_values b ++ [0])
                 :: map (fun b => block_values b ++ [0]) bs)
      with ((cls ++ [block_values b ++ [0]])
            ++ map (fun b => block_values b ++ [0]) bs)
      by (now rewrite <- app_assoc).
    replace (nc + Z.succ (Z.of_nat (List.length bs)))
      with (nc + 1 + Z.of_nat (List.length bs)) by lia.
    apply IH; lia.
Qed.

(** The loop of the clauses on a literal: its sign and its digits are
    read, and it goes on with [after_number]. *)
Lemma literal_read (neg : bool) (d0 : ascii) (ds rest : list ascii)
    (fuel : nat) (lineno nc : Z) (cls : list (list Z)) (lits : list Z) :
  Forall is_digit (d0 :: ds) ->
  (neg = true -> d0 <> "0"%char) ->
  number_value (d0 :: ds) <= INT_MAX ->
  match rest with [] => True | a :: _ => isdigit (chr a) = false end ->
  clauses_from (S fuel) mv spec (literal_text neg (d0 :: ds) ++ rest) lineno
    nc cls lits
  = let '(ch, file, lineno) := next_char rest lineno in
    after_number fuel mv spec (if neg then -1 else 1)
      (number_value (d0 :: ds)) ch file lineno nc cls lits.
Proof.
  intros Hds Hneg Hv Hrest.
  pose proof (Forall_inv Hds) as Hd0.
  pose proof (Forall_inv_tail Hds) as Hds'. unfold is_digit in Hd0.
  assert (Hnum : number_value (d0 :: ds) = horner (chr d0 - 48) ds)
    by reflexivity.
  rewrite Hnum in *.
  unfold literal_text, clauses_from. destruct neg.
  - specialize (Hneg eq_refl).
    assert (chr d0 <> 48) as Hnz.
    { intros E. apply Hneg. apply chr_inj. exact E. }
    cbn [app next_char parse_clauses].
    change (space (chr "-")) with false.
    change (chr "-" =? EOF) with false.
    change (chr "-" =? chr "c") with false. cbv iota.
    unfold parse_sign. rewrite Z.eqb_refl. cbn [next_char].
    rewrite (proj2 (isdigit_range (chr d0)) Hd0). cbn [negb].
    change (chr "0") with 48. destruct (Z.eqb_spec (chr d0) 48); [lia|].
    rewrite ?(proj2 (isdigit_range (chr d0)) Hd0). cbn [negb].
    rewrite bump_digit by assumption.
    change 48 with (chr "0") at 1. rewrite digit_value by assumption.
    rewrite parse_number_digits; try assumption; try lia.
    destruct (next_char rest _) as [[ch f] l]. reflexivity.
  - cbn [app next_char parse_clauses].
    rewrite (digit_space _ Hd0).
    rewrite (digit_neq _ EOF Hd0) by (unfold EOF; lia).
    rewrite (digit_neq _ (chr "c") Hd0) by (change (chr "c") with 99; lia).
    unfold parse_sign.
    rewrite (digit_neq _ (chr "-") Hd0) by (change (chr "-") with 45; lia).
    rewrite (proj2 (isdigit_range (chr d0)) Hd0). cbn [negb].
    rewrite ?(proj2 (isdigit_range (chr d0)) Hd0). cbn [negb].
    rewrite bump_digit by assumption.
    rewrite digit_value by assumption.
    rewrite parse_number_digits; try assumption; try lia.
    destruct (next_char rest _) as [[ch f] l]. reflexivity.
Qed.

End ClauseErrors.

(** ** Parser: what the loop of the clauses refuses *)

Lemma number_value_nonneg (ds : list ascii) :
  Forall is_digit ds -> 0 <= number_value ds.
Proof. intros H. apply (horner_ge ds H 0). lia. Qed.

Lemma clauses_from_O (mv spec : Z) (T : list ascii) (lineno nc : Z)
    (cls : list (list Z)) (lits : list Z) :
  clauses_from 0 mv spec T lineno nc cls lits = Err out_of_fuel.
Proof.
  unfold clauses_from. now destruct (next_char T lineno) as [[ch f] l].
Qed.

(** A text is refused with the message [msg] when, behind a good prefix
    of it, the loop of the clauses can only end with [msg]. *)
Lemma refused_behind_prefix (msg : string) (bodies : list (list ascii))
    (dv dc : list ascii) (lead : list gap) (bs : list block)
    (ts : list token) (tail : list ascii) :
  prefix_ok bodies dv dc lead bs ts ->
  (forall fuel lineno,
     ends_with msg
       (clauses_from fuel (number_value dv) (number_value dc) tail lineno
          (Z.of_nat (List.length bs))
          (map (fun b => block_values b ++ [0]) bs)
          (map token_value ts))) ->
  exists lineno,
    parse (dimacs_prefix bodies dv dc lead bs ts ++ tail)
    = Err (parse_error lineno msg).
Proof.
  intros [Hb Hdv Hdc Hlead Hbs Hts Hnz Hcount] Htail.
  apply parse_ends. unfold dimacs_prefix. rewrite <- !app_assoc.
  destruct (parse_enter bodies dv dc
              (gaps_text lead ++ List.concat (map block_text bs)
               ++ List.concat (map token_text ts) ++ tail) Hb Hdv Hdc)
    as [fuel [lineno ->]].
  set (mv := number_value dv) in *. set (spec := number_value dc) in *.
  assert (Hmv : 0 <= mv <= INT_MAX).
  { destruct Hdv as [_ [H1 H2]]. split; [now apply number_value_nonneg|].
    exact H2. }
  assert (Hspec : 0 <= spec <= INT_MAX).
  { destruct Hdc as [_ [H1 H2]]. split; [now apply number_value_nonneg|].
    exact H2. }
  apply runs_to_ends with
    (k := fun fuel lineno =>
            clauses_from fuel mv spec tail lineno
              (Z.of_nat (List.length bs))
              (map (fun b => block_values b ++ [0]) bs)
              (map token_value ts)); [|exact Htail].
  eapply runs_to_trans; [apply (skip_gaps mv spec); assumption|].
  intros fuel1 lineno1. cbv beta.
  eapply runs_to_trans.
  { apply (blocks_step mv spec Hmv Hspec bs _ Hbs 0 []); [lia|].
    destruct ts; lia. }
  intros fuel2 lineno2. cbv beta. cbn [app]. rewrite Z.add_0_l.
  destruct ts as [|t ts].
  - right. now exists fuel2, lineno2.
  - apply (literals_step mv spec Hmv Hspec (t :: ts) tail _ _ Hts Hnz).
    lia.
Qed.

Lemma ends_literal_sep (rest : list ascii) (lineno : Z) :
  ends_literal rest ->
  (match rest with [] => True | a :: _ => isdigit (chr a) = false end) /\
  let ch := fst (fst (next_char rest lineno)) in
  negb (space ch) && negb (ch =? chr "c") && negb (ch =? EOF) = false.
Proof.
  destruct rest as [|a rest]; cbn [ends_literal next_char fst].
  - intros _. split; [exact I|reflexivity].
  - intros [H| ->].
    + split; [now apply blank_not_digit|].
      unfold is_blank in H. now rewrite H.
    + split; reflexivity.
Qed.

(** X10: where a literal must start, a character that is no digit and no
    ['-'] is refused, a ['-'] must be followed by a digit, and this digit
    is not ['0']: a negative zero is never read. *)
Theorem literal_start_refused (bodies : list (list ascii))
    (dv dc : list ascii) (lead : list gap) (bs : list block)
    (ts : list token) (rest : list ascii) :
  prefix_ok bodies dv dc lead bs ts ->
  (forall a, ~ is_blank a -> a <> "c"%char -> a <> "-"%char ->
     ~ is_digit a ->
     exists lineno,
       parse (dimacs_prefix bodies dv dc lead bs ts ++ a :: rest)
       = Err (parse_error lineno "expected digit or '-'")) /\
  (match rest with [] => True | b :: _ => ~ is_digit b end ->
   exists lineno,
     parse (dimacs_prefix bodies dv dc lead bs ts ++ "-"%char :: rest)
     = Err (parse_error lineno "expected digit after '-'")) /\
  (exists lineno,
     parse (dimacs_prefix bodies dv dc lead bs ts
            ++ "-"%char :: "0"%char :: rest)
     = Err (parse_error lineno "expected non-zer digit after '-'")).
Proof.
  intros Hp. split; [|split].
  - intros a Hblank Hc Hminus Hdigit.
    apply refused_behind_prefix; [exact Hp|]. intros fuel lineno.
    destruct fuel as [|fuel]; [left; apply clauses_from_O|]. right.
    unfold clauses_from. cbn [next_char parse_clauses].
    unfold is_blank in Hblank.
    destruct (space (chr a)); [now contradiction Hblank|].
    rewrite chr_not_EOF.
    destruct (Z.eqb_spec (chr a) (chr "c")) as [E|_];
      [apply chr_inj in E; contradiction|].
    unfold parse_sign.
    destruct (Z.eqb_spec (chr a) (chr "-")) as [E|_];
      [apply chr_inj in E; contradiction|].
    destruct (isdigit (chr a)) eqn:E;
      [exfalso; apply Hdigit; now apply isdigit_range|].
    cbn [negb]. now eexists.
  - intros Hrest.
    apply refused_behind_prefix; [exact Hp|]. intros fuel lineno.
    destruct fuel as [|fuel]; [left; apply clauses_from_O|]. right.
    unfold clauses_from. cbn [next_char parse_clauses].
    change (space (chr "-")) with false.
    change (chr "-" =? EOF) with false.
    change (chr "-" =? chr "c") with false. cbv iota.
    unfold parse_sign. rewrite Z.eqb_refl.
    destruct rest as [|b rest]; cbn [next_char].
    + change (isdigit EOF) with false. cbn [negb]. now eexists.
    + destruct (isdigit (chr b)) eqn:E;
        [exfalso; apply Hrest; now apply isdigit_range|].
      cbn [negb]. now eexists.
  - apply refused_behind_prefix; [exact Hp|]. intros fuel lineno.
    destruct fuel as [|fuel]; [left; apply clauses_from_O|]. right.
    unfold clauses_from. cbn [next_char parse_clauses].
    change (space (chr "-")) with false.
    change (chr "-" =? EOF) with false.
    change (chr "-" =? chr "c") with false. cbv iota.
    unfold parse_sign. rewrite Z.eqb_refl. cbn [next_char].
    change (isdigit (chr "0")) with true. cbn [negb].
    rewrite Z.eqb_refl. now eexists.
Qed.

Lemma literal_start_refused_witness :
  (forall a, ~ is_blank a -> a <> "c"%char -> a <> "-"%char ->
     ~ is_digit a ->
     exists lineno,
       parse (text ("p cnf 1 1" ++ String nl "1 ") ++ a :: text " 0")
       = Err (parse_error lineno "expected digit or '-'")) /\
  (match text " 0" with [] => True | b :: _ => ~ is_digit b end ->
   exists lineno,
     parse (text ("p cnf 1 1" ++ String nl "1 - 0"))
     = Err (parse_error lineno "expected digit after '-'")) /\
  (exists lineno,
     parse (text ("p cnf 1 1" ++ String nl "1 -0 0"))
     = Err (parse_error lineno "expected non-zer digit after '-'")).
Proof.
  apply (literal_start_refused [] (text "1") (text "1") [] []
           [plain_token false "1"] (text " 0")).
  split; cbn; repeat constructor; try discriminate;
    unfold is_digit, is_blank; cbn; try lia; try reflexivity.
Defined.

(** X11: behind the digits of a literal whose variable the header
    allows, a character that is no white space and no ['c'] is refused:
    two literals are never read from digits that touch. *)
Theorem literal_end_refused (bodies : list (list ascii))
    (dv dc : list ascii) (lead : list gap) (bs : list block)
    (ts : list token) (neg : bool) (d0 a : ascii) (ds rest : list ascii) :
  prefix_ok bodies dv dc lead bs ts ->
  Forall is_digit (d0 :: ds) ->
  (neg = true -> d0 <> "0"%char) ->
  number_value (d0 :: ds) <= number_value dv ->
  ~ is_digit a -> ~ is_blank a -> a <> "c"%char ->
  exists lineno,
    parse (dimacs_prefix bodies dv dc lead bs ts
           ++ literal_text neg (d0 :: ds) ++ a :: rest)
    = Err (parse_error lineno (unexpected_after_literal (chr a))).
Proof.
  intros Hp Hds Hneg Hv Hdigit Hblank Hc.
  apply refused_behind_prefix; [exact Hp|]. intros fuel lineno.
  destruct Hp as [_ [_ [Hdv Hmax]] _ _ _ _ _ _].
  destruct fuel as [|fuel]; [left; apply clauses_from_O|]. right.
  assert (Ea : isdigit (chr a) = false).
  { destruct (isdigit (chr a)) eqn:E; [|reflexivity].
    exfalso. apply Hdigit. now apply isdigit_range. }
  rewrite (literal_read (number_value dv) (number_value dc));
    try assumption; [|lia].
  cbn [next_char]. unfold after_number, unexpected_after_literal.
  destruct (Z.gtb_spec (number_value (d0 :: ds)) (number_value dv)); [lia|].
  unfold is_blank in Hblank.
  destruct (space (chr a)); [now contradiction Hblank|].
  destruct (Z.eqb_spec (chr a) (chr "c")) as [E|_];
    [apply chr_inj in E; contradiction|].
  rewrite chr_not_EOF. cbn [negb andb].
  destruct (isprint (chr a)); now eexists.
Qed.

Lemma literal_end_refused_witness :
  exists lineno,
    parse (text ("p cnf 2 1" ++ String nl "1-2 0"))
    = Err (parse_error lineno "unexpected character '-' after literal").
Proof.
  apply (literal_end_refused [] (text "2") (text "1") [] [] [] false
           "1"%char "-"%char [] (text "2 0")).
  - split; cbn; repeat constructor; try discriminate;
      unfold is_digit, is_blank; cbn; try lia; try reflexivity.
  - repeat constructor; unfold is_digit; cbn; lia.
  - discriminate.
  - cbn. lia.
  - unfold is_digit. cbn. lia.
  - unfold is_blank. cbn. discriminate.
  - discriminate.
Defined.

(** ** Command line *)

(** The constants of [valid] and of [init] are the doubles nearest to
    their decimals: each decimal is within half a unit of the last place
    of its double. *)
Lemma decimal_constants_nearest :
  (2 * 5503284107318959 - 1) * 2 ^ 445 < 10 ^ 150
    < (2 * 5503284107318959 + 1) * 2 ^ 445 /\
  (2 * 7371020360979573 - 1) * 10 ^ 150 < 2 ^ 552
    < (2 * 7371020360979573 + 1) * 10 ^ 150 /\
  (2 * 5764607523034235 - 1) * 100 < 2 ^ 60
    < (2 * 5764607523034235 + 1) * 100.
Proof. repeat split; reflexivity. Qed.

(** X12: [valid] accepts zero, a NaN, and the doubles of ordinary size,
    negative ones too; it refuses the infinities and every other
    double. *)
Theorem valid_ordinary_size (f : double) :
  valid f =
  match f with
  | S754_zero _ | S754_nan => true
  | S754_infinity _ => false
  | S754_finite _ _ _ => ordinary_size f
  end.
Proof.
  destruct f as [s|s| |s m e]; try reflexivity;
    try (destruct s; reflexivity).
  unfold valid, ordinary_size, dlt, dgt, dle, dneg, SFltb, SFleb, d0,
    d1e150, d1e_150.
  destruct s; cbn [SFabs SFopp SFcompare negb];
    rewrite ?Pos.compare_cont_spec; cbn [Pos.switch_Eq];
    rewrite ?(Z.compare_antisym e 446), ?(Z.compare_antisym e (-551)),
      ?(Pos.compare_antisym m 5503284107318959),
      ?(Pos.compare_antisym m 7371020360979573);
    destruct (Z.compare_spec e 446) as [E1|E1|E1];
    destruct (Z.compare_spec e (-551)) as [E2|E2|E2]; try lia;
    cbn [CompOpp andb orb negb];
    try destruct (Pos.compare m 5503284107318959);
    try destruct (Pos.compare m 7371020360979573); reflexivity.
Qed.

Lemma hash_seed_range (clock pid : Z) : 0 <= hash_seed clock pid < 2 ^ 32.
Proof.
  unfold hash_seed, uint64.
  set (tmp := ((_ + _) mod 2 ^ 64)).
  assert (Htmp : 0 <= tmp < 2 ^ 64) by (apply Z.mod_pos_bound; lia).
  assert (Hlo : 0 <= Z.land tmp 4294967295 < 2 ^ 32).
  { change 4294967295 with (Z.ones 32). rewrite Z.land_ones by lia.
    apply Z.mod_pos_bound. lia. }
  assert (Hhi : 0 <= Z.shiftr tmp 32 < 2 ^ 32).
  { rewrite Z.shiftr_div_pow2 by lia. split.
    - apply Z.div_pos; lia.
    - apply Z.div_lt_upper_bound; [lia|].
      change (2 ^ 32 * 2 ^ 32) with (2 ^ 64). lia. }
  split.
  - apply Z.lxor_nonneg. lia.
  - destruct (Z.eq_dec (Z.lxor (Z.land tmp 4294967295) (Z.shiftr tmp 32)) 0)
      as [->|Hnz]; [lia|].
    apply Z.log2_lt_pow2.
    + assert (0 <= Z.lxor (Z.land tmp 4294967295) (Z.shiftr tmp 32))
        by (apply Z.lxor_nonneg; lia).
      lia.
    + eapply Z.le_lt_trans; [apply Z.log2_lxor; lia|].
      apply Z.max_lub_lt.
      * destruct (Z.eq_dec (Z.land tmp 4294967295) 0) as [->|?];
          [cbn; lia|]. apply Z.log2_lt_pow2; lia.
      * destruct (Z.eq_dec (Z.shiftr tmp 32) 0) as [->|?];
          [cbn; lia|]. apply Z.log2_lt_pow2; lia.
Qed.

Section InitFacts.

Variables VERSION GITID : string.
Variable fmt_g : double -> string.
Variable atol : string -> Z.
Variable atof : string -> double.
Variables clock pid : Z.

(** The loop of [init] never stores a probability above one. *)
Lemma init_args_probability (n : nat) :
  forall args s s',
    (List.length args <= n)%nat ->
    dgt (literal_flip_probability (opts s)) d1 = false ->
    init_args VERSION atol atof args s = Done s' ->
    dgt (literal_flip_probability (opts s')) d1 = false.
Proof.
  induction n as [|n IH]; intros args s s' Hlen Hinv H.
  - destruct args; [|cbn in Hlen; lia]. cbn in H. now inversion H; subst.
  - destruct args as [|arg args]; [cbn in H; now inversion H; subst|].
    cbn [List.length] in Hlen. cbn [init_args] in H.
    repeat match type of H with
    | (if ?c then _ else _) = _ => destruct c eqn:?
    | match ?l with [] => _ | _ :: _ => _ end = _ =>
        destruct l; cbn [List.length] in Hlen
    | match ?o with Some _ => _ | None => _ end = _ => destruct o
    | (let seed := _ in _) = _ => cbv zeta in H
    end; try discriminate;
    (eapply IH in H; [exact H|lia|]); cbn; try assumption.
    match goal with
    | E : negb _ || dgt _ d1 = false |- _ =>
        apply orb_false_iff in E; apply E
    end.
Qed.

Lemma init_defaults_flags (o : options) :
  let o' := init_defaults clock pid o in
  permute_variables o' = permute_variables o /\
  permute_clauses o' = permute_clauses o /\
  reverse_variables o' = reverse_variables o /\
  reverse_clauses o' = reverse_clauses o /\
  absolute_windows o' = absolute_windows o.
Proof.
  unfold init_defaults.
  repeat match goal with
  | |- context [if ?c then _ else _] => destruct c; cbn
  end; auto.
Qed.

(** X13: the options with which [init] returns.  The seed is not
    negative; the probability of a flip is not below zero and not above
    one; no window is below zero; variables are not both permuted and
    reversed, clauses neither, and nothing is permuted with absolute
    windows. *)
Theorem init_settles_options (args : list string) (s : settings)
    (out : string) :
  init VERSION GITID fmt_g atol atof clock pid args = Done (s, out) ->
  0 <= seed (opts s) /\
  dlt (literal_flip_probability (opts s)) d0 = false /\
  dgt (literal_flip_probability (opts s)) d1 = false /\
  dlt (variable_move_window (opts s)) d0 = false /\
  dlt (clause_move_window (opts s)) d0 = false /\
  (permute_variables (opts s) = true ->
   reverse_variables (opts s) = false /\ absolute_windows (opts s) = false) /\
  (permute_clauses (opts s) = true ->
   reverse_clauses (opts s) = false /\ absolute_windows (opts s) = false).
Proof.
  unfold init. intros H.
  destruct (init_args VERSION atol atof args initial_settings) as [s0| |]
    eqn:Eargs; try discriminate.
  destruct (init_conflict (opts s0)) eqn:Ec; [discriminate|].
  inversion H; subst; clear H. cbn [with_opts opts].
  pose proof (init_args_probability (List.length args) args
                initial_settings s0 (le_n _) eq_refl Eargs) as Hp.
  pose proof (init_defaults_flags (opts s0)) as Hf. cbv zeta in Hf.
  destruct Hf as [F1 [F2 [F3 [F4 F5]]]]. rewrite F1, F2, F3, F4, F5.
  pose proof (hash_seed_range clock pid) as Hh.
  refine (conj _ (conj _ (conj _ (conj _ (conj _ (conj _ _)))))).
  - unfold init_defaults.
    destruct (Z.ltb_spec (seed (opts s0)) 0);
      destruct (dlt (literal_flip_probability _) d0),
        (dlt (variable_move_window _) d0), (dlt (clause_move_window _) d0);
      cbn; lia.
  - unfold init_defaults.
    repeat match goal with
    | |- context [if ?c then _ else _] => destruct c eqn:?; cbn
    end; first [assumption | reflexivity].
  - unfold init_defaults.
    repeat match goal with
    | |- context [if ?c then _ else _] => destruct c eqn:?; cbn
    end; first [assumption | reflexivity].
  - unfold init_defaults.
    repeat match goal with
    | |- context [if ?c then _ else _] => destruct c eqn:?; cbn
    end; first [assumption | reflexivity].
  - unfold init_defaults.
    repeat match goal with
    | |- context [if ?c then _ else _] => destruct c eqn:?; cbn
    end; first [assumption | reflexivity].
  - unfold init_conflict in Ec. intros Hpv. rewrite Hpv in Ec.
    destruct (reverse_variables (opts s0)); [discriminate|].
    destruct (dge (variable_move_window (opts s0)) d0); [discriminate|].
    destruct (absolute_windows (opts s0)); [discriminate|]. now split.
  - unfold init_conflict in Ec. intros Hpc. rewrite Hpc in Ec.
    destruct (permute_variables (opts s0) && reverse_variables (opts s0));
      [discriminate|].
    destruct (permute_variables (opts s0)
              && dge (variable_move_window (opts s0)) d0); [discriminate|].
    destruct (permute_variables (opts s0) && absolute_windows (opts s0));
      [discriminate|].
    destruct (reverse_clauses (opts s0)); [discriminate|].
    destruct (dge (clause_move_window (opts s0)) d0); [discriminate|].
    destruct (absolute_windows (opts s0)); [discriminate|]. now split.
Qed.

End InitFacts.

Lemma init_settles_options_witness :
  exists s out,
    init "1.0" "0" (fun _ => "0"%string) (fun _ => 7) (fun _ => d0_01) 0 0
      ["-s"%string; "7"%string; "-P"%string; "-f"%string; "0.01"%string;
       "in.cnf"%string] = Done (s, out) /\
    0 <= seed (opts s) /\
    dlt (literal_flip_probability (opts s)) d0 = false /\
    dgt (literal_flip_probability (opts s)) d1 = false /\
    dlt (variable_move_window (opts s)) d0 = false /\
    dlt (clause_move_window (opts s)) d0 = false /\
    (permute_variables (opts s) = true ->
     reverse_variables (opts s) = false /\
     absolute_windows (opts s) = false) /\
    (permute_clauses (opts s) = true ->
     reverse_clauses (opts s) = false /\ absolute_windows (opts s) = false).
Proof.
  eexists. eexists. split; [vm_compute; reflexivity|].
  eapply (init_settles_options "1.0" "0" (fun _ => "0"%string) (fun _ => 7)
            (fun _ => d0_01) 0 0
            ["-s"%string; "7"%string; "-P"%string; "-f"%string;
             "0.01"%string; "in.cnf"%string]).
  vm_compute. reflexivity.
Defined.

(** ** Compressed files *)

Lemma string_length_app (s t : string) :
  String.length (s ++ t) = (String.length s + String.length t)%nat.
Proof. induction s as [|a s IH]; cbn; [reflexivity|now rewrite IH]. Qed.

Lemma substring_all (s : string) : substring 0 (String.length s) s = s.
Proof. induction s as [|a s IH]; cbn; [reflexivity|now rewrite IH]. Qed.

Lemma substring_app_tail (pre s : string) :
  substring (String.length pre) (String.length s) (pre ++ s) = s.
Proof.
  induction pre as [|a pre IH]; cbn; [apply substring_all|exact IH].
Qed.

(** A string is what is in front of its position [n] and what follows. *)
Lemma substring_split (n : nat) :
  forall s, (n <= String.length s)%nat ->
    s = (substring 0 n s ++ substring n (String.length s - n) s)%string /\
    String.length (substring 0 n s) = n.
Proof.
  induction n as [|n IH]; intros s Hn.
  - rewrite Nat.sub_0_r, substring_all. destruct s; cbn; auto.
  - destruct s as [|a s]; cbn in Hn; [lia|].
    destruct (IH s ltac:(lia)) as [E L]. cbn. rewrite L. split; [|reflexivity].
    f_equal. exact E.
Qed.

(** X14: [is_suffix] holds of the paths that end with the suffix and are
    longer than it: a file whose whole name is the suffix is not taken
    for a compressed file. *)
Theorem is_suffix_proper (path suffix : string) :
  is_suffix path suffix = true <->
  exists stem, stem <> ""%string /\ path = (stem ++ suffix)%string.
Proof.
  unfold is_suffix. rewrite andb_true_iff, Nat.ltb_lt, String.eqb_eq. split.
  - intros [Hlen Hsub].
    destruct (substring_split (String.length path - String.length suffix)
                path ltac:(lia)) as [E L].
    replace (String.length path
             - (String.length path - String.length suffix))%nat
      with (String.length suffix) in E by lia.
    rewrite Hsub in E.
    exists (substring 0 (String.length path - String.length suffix) path).
    split; [|exact E].
    intros E0. rewrite E0 in L. cbn in L. lia.
  - intros [stem [Hne ->]]. rewrite string_length_app.
    assert (0 < String.length stem)%nat
      by (destruct stem; [contradiction|cbn; lia]).
    split; [lia|].
    replace (String.length stem + String.length suffix
             - String.length suffix)%nat
      with (String.length stem) by lia.
    apply substring_app_tail.
Qed.

(** X15: the command that [open_pipe] writes fits the bytes that it
    allocates, its terminating zero included, whatever the path; and it
    is the command of the format with the path in the place of [%s]. *)
Theorem open_pipe_fits (path cmd : string) (allocated : nat) :
  open_original (Some path) = Pipe cmd allocated ->
  (String.length cmd + 1 <= allocated)%nat /\
  exists tool rest,
    cmd = (tool ++ " " ++ path ++ rest)%string /\
    In (tool, rest)
      [("xz -c -d", ""); ("bzip2 -c -d", ""); ("gzip -c -d", "");
       ("7z x -so", " 2>/dev/null")]%string.
Proof.
  unfold open_original, open_pipe.
  assert (L : forall s, String.length (s ++ "") = String.length s).
  { intros s. rewrite string_length_app. cbn. lia. }
  assert (N : forall s, (s ++ "")%string = s).
  { induction s as [|a s IH]; cbn; [reflexivity|now rewrite IH]. }
  repeat match goal with
  | |- context [if ?c then _ else _] => destruct c
  end; intros H; inversion H; subst; clear H; cbn [sprintf].
  - split; [cbn; rewrite L; lia|].
    exists "xz -c -d"%string, ""%string. split; [reflexivity|]. cbn. auto.
  - split; [cbn; rewrite L; lia|].
    exists "bzip2 -c -d"%string, ""%string. split; [reflexivity|].
    cbn. auto.
  - split; [cbn; rewrite L; lia|].
    exists "gzip -c -d"%string, ""%string. split; [reflexivity|].
    cbn. auto.
  - split; [cbn; rewrite string_length_app; cbn; lia|].
    exists "7z x -so"%string, " 2>/dev/null"%string.
    split; [reflexivity|]. cbn. auto 6.
Qed.

Lemma open_pipe_fits_witness :
  (String.length "gzip -c -d sat.cnf.gz" + 1 <= 23)%nat /\
  exists tool rest,
    "gzip -c -d sat.cnf.gz"%string
    = (tool ++ " " ++ "sat.cnf.gz" ++ rest)%string /\
    In (tool, rest)
      [("xz -c -d", ""); ("bzip2 -c -d", ""); ("gzip -c -d", "");
       ("7z x -so", " 2>/dev/null")]%string.
Proof.
  apply (open_pipe_fits "sat.cnf.gz" "gzip -c -d sat.cnf.gz" 23).
  reflexivity.
Defined.

(** ** Reversal *)

(** X16: what [-r] and [-R] do by themselves.  Without [-p] and [-P],
    with a flip probability of zero and windows of width zero, [-R]
    writes the clauses of the input in the reverse order, and [-r]
    writes the variable [max_var + 1 - v] for the variable [v], with the
    sign of the literal kept; the literals of a clause keep their
    order. *)
Theorem reversal_alone (file : list ascii) (c : cnf) (o : options)
    (g : rng) :
  parse file = Ok c ->
  permute_variables o = false -> permute_clauses o = false ->
  SFeqb (literal_flip_probability o) d0 = true ->
  SFeqb (variable_move_window o) d0 = true ->
  SFeqb (clause_move_window o) d0 = true ->
  emit o c (fst (scramble o c g))
  = Ok ((if reverse_clauses o then @rev (list Z) else fun l => l)
          (map (fun p =>
                  map (if reverse_variables o then mirrored (max_var c)
                       else fun src => src)
                    (literals_of p))
             (clauses c))).
Proof.
  intros H Hpv Hpc Hf Hv Hc.
  destruct (parsed_maps file c o g H) as [Hok Hm].
  set (m := fst (scramble o c g)) in *.
  pose proof (max_var_range c Hok) as Hmv.
  pose proof (num_clauses_range c Hok) as Hnc.
  pose proof (num_clauses_length c Hok) as Hlen.
  assert (variable_map m = zseq 0 (Z.to_nat (max_var c))) as Evm.
  { unfold m. rewrite scramble_maps. cbn [variable_map]. rewrite Hpv.
    now apply rank_window_zero. }
  assert (clause_map m = zseq 0 (Z.to_nat (num_clauses c))) as Ecm.
  { unfold m. rewrite scramble_maps. cbn [clause_map]. rewrite Hpc.
    now apply rank_window_zero. }
  assert (flipped m = repeat false (Z.to_nat (max_var c))) as Efl.
  { unfold m. rewrite scramble_maps. cbn [flipped]. unfold flip.
    destruct (is_zero _ Hf) as [s ->]. reflexivity. }
  set (F := fun p : list Z =>
              map (if reverse_variables o then mirrored (max_var c)
                   else fun src => src) (literals_of p)).
  assert (HF : forall p, In p (clauses c) ->
            map (scrambled_literal o (max_var c) m) (literals_of p) = F p).
  { intros p Hp. unfold F. apply map_ext_in. intros src Hsrc.
    destruct (clause_literals_ok c p src Hok Hp Hsrc) as [Hnz Hr].
    unfold scrambled_literal, literal_index, mirrored. rewrite Evm, Efl.
    rewrite nth_repeat, xorb_false_r.
    destruct (reverse_variables o); rewrite zseq_nth by lia;
      destruct (Z.ltb_spec src 0); lia. }
  rewrite (emit_spec o c m Hok Hm). f_equal.
  replace (Z.to_nat (num_clauses c)) with (List.length (clauses c)) by lia.
  destruct (reverse_clauses o) eqn:Hrc.
  - rewrite <- map_rev.
    rewrite <- (map_nth_zseq (rev (clauses c)) []) at 1.
    rewrite map_map, length_rev.
    apply map_ext_in. intros i Hi. apply zseq_In in Hi.
    unfold scrambled_clause, clause_source. rewrite Hrc, Ecm.
    rewrite zseq_nth by lia.
    rewrite rev_nth by lia.
    replace (Z.to_nat (num_clauses c - 1 - (0 + Z.of_nat (Z.to_nat i))))
      with (List.length (clauses c) - S (Z.to_nat i))%nat by lia.
    apply HF. apply nth_In. lia.
  - rewrite <- (map_nth_zseq (clauses c) []) at 2.
    rewrite map_map.
    apply map_ext_in. intros i Hi. apply zseq_In in Hi.
    unfold scrambled_clause, clause_source. rewrite Hrc, Ecm.
    rewrite zseq_nth by lia.
    replace (Z.to_nat (0 + Z.of_nat (Z.to_nat i))) with (Z.to_nat i) by lia.
    apply HF. apply nth_In. lia.
Qed.

Lemma reversal_alone_witness :
  emit (set_reverse_clauses true (set_reverse_variables true plain_options))
    sample_cnf
    (fst (scramble
            (set_reverse_clauses true
               (set_reverse_variables true plain_options)) sample_cnf 0))
  = Ok [[-1; 1; 4]; []; [4; -3; 2]].
Proof.
  exact (reversal_alone sample_file sample_cnf
           (set_reverse_clauses true
              (set_reverse_variables true plain_options)) 0
           sample_parsed eq_refl eq_refl eq_refl eq_refl eq_refl).
Defined.

(** X17: with a flip probability of one or more, and nothing else that
    scrambles, every literal of the input is written negated: the
    clauses and their literals keep their order. *)
Theorem full_flip_negates (file : list ascii) (c : cnf) (o : options)
    (g : rng) :
  parse file = Ok c ->
  permute_variables o = false -> permute_clauses o = false ->
  reverse_variables o = false -> reverse_clauses o = false ->
  dge (literal_flip_probability o) d1 = true ->
  SFeqb (variable_move_window o) d0 = true ->
  SFeqb (clause_move_window o) d0 = true ->
  emit o c (fst (scramble o c g))
  = Ok (map (fun p => map Z.opp (literals_of p)) (clauses c)).
Proof.
  intros H Hpv Hpc Hrv Hrc Hf Hv Hc.
  destruct (parsed_maps file c o g H) as [Hok Hm].
  set (m := fst (scramble o c g)) in *.
  pose proof (max_var_range c Hok) as Hmv.
  pose proof (num_clauses_range c Hok) as Hnc.
  pose proof (num_clauses_length c Hok) as Hlen.
  assert (variable_map m = zseq 0 (Z.to_nat (max_var c))) as Evm.
  { unfold m. rewrite scramble_maps. cbn [variable_map]. rewrite Hpv.
    now apply rank_window_zero. }
  assert (clause_map m = zseq 0 (Z.to_nat (num_clauses c))) as Ecm.
  { unfold m. rewrite scramble_maps. cbn [clause_map]. rewrite Hpc.
    now apply rank_window_zero. }
  assert (flipped m = repeat true (Z.to_nat (max_var c))) as Efl.
  { unfold m. rewrite scramble_maps. cbn [flipped]. unfold flip.
    rewrite (dge_d1_not_dle_d0 _ Hf). now rewrite Hf. }
  rewrite (emit_spec o c m Hok Hm). f_equal.
  replace (Z.to_nat (num_clauses c)) with (List.length (clauses c)) by lia.
  rewrite <- (map_nth_zseq (clauses c) []) at 2.
  rewrite map_map.
  apply map_ext_in. intros i Hi. apply zseq_In in Hi.
  unfold scrambled_clause, clause_source. rewrite Hrc, Ecm.
  rewrite zseq_nth by lia.
  replace (Z.to_nat (0 + Z.of_nat (Z.to_nat i))) with (Z.to_nat i) by lia.
  apply map_ext_in. intros src Hsrc.
  assert (literal_ok (max_var c) src) as [Hnz Hr].
  { eapply (clause_literals_ok c _ src Hok); [|exact Hsrc].
    apply nth_In. lia. }
  unfold scrambled_literal, literal_index. rewrite Hrv, Evm, Efl.
  rewrite zseq_nth by lia.
  rewrite (nth_indep _ false true) by (rewrite repeat_length; lia).
  rewrite nth_repeat, xorb_true_r.
  destruct (Z.ltb_spec src 0); cbn [negb]; lia.
Qed.

Lemma full_flip_negates_witness :
  emit (set_literal_flip_probability d1 plain_options) sample_cnf
    (fst (scramble (set_literal_flip_probability d1 plain_options)
            sample_cnf 0))
  = Ok [[-1; 2; -3]; []; [4; -4; -1]].
Proof.
  exact (full_flip_negates sample_file sample_cnf
           (set_literal_flip_probability d1 plain_options) 0
           sample_parsed eq_refl eq_refl eq_refl eq_refl eq_refl eq_refl
           eq_refl).
Defined.

(** ** Parser: the end of the header *)

Lemma header_rest_unfold (ch : Z) (file : list ascii) (lineno : Z) :
  header_rest ch file lineno
  = if ch =? chr nl then Ok (file, lineno)
    else if negb (space ch) then
      perr lineno "expected white space before new line"
    else
      match file with
      | [] => perr lineno "expected white space before new line"
      | a :: file' => header_rest (chr a) file' (bump (chr a) lineno)
      end.
Proof. destruct file; reflexivity. Qed.

Lemma bump_other (a : ascii) (lineno : Z) :
  a <> nl -> bump (chr a) lineno = lineno.
Proof.
  intros H. unfold bump.
  destruct (Z.eqb_spec (chr a) (chr nl)) as [E|_]; [|reflexivity].
  apply chr_inj in E. contradiction.
Qed.

(** White space without a new line, and then the end of the file or a
    character that is no white space: [header_rest] reports an error on
    the line of the header. *)
Lemma header_rest_refuses (pad tail : list ascii) (lineno : Z) :
  Forall (fun a => is_blank a /\ a <> nl) pad ->
  match tail with [] => True | a :: _ => ~ is_blank a end ->
  (let '(ch, file, lineno) := next_char (pad ++ tail) lineno in
   header_rest ch file lineno)
  = Err (parse_error lineno "expected white space before new line").
Proof.
  intros Hpad Htail. induction Hpad as [|b pad [Hb Hnl] _ IH].
  - destruct tail as [|a tail]; [reflexivity|].
    cbn [app next_char]. rewrite header_rest_unfold.
    unfold is_blank in Htail.
    assert (a <> nl) as Ha by (intros ->; apply Htail; reflexivity).
    rewrite (bump_other a lineno Ha).
    destruct (Z.eqb_spec (chr a) (chr nl)) as [E|_];
      [apply chr_inj in E; contradiction|].
    destruct (space (chr a)); [now contradiction Htail|]. reflexivity.
  - cbn [app next_char]. rewrite (bump_other b lineno Hnl).
    rewrite header_rest_unfold.
    destruct (Z.eqb_spec (chr b) (chr nl)) as [E|_];
      [apply chr_inj in E; contradiction|].
    unfold is_blank in Hb. rewrite Hb. cbn [negb].
    destruct (pad ++ tail) as [|a f] eqn:E; [reflexivity|].
    cbn [next_char] in IH. exact IH.
Qed.

(** X19: the line of the header has to end with a new line.  Behind the
    two numbers of the header and white space, the end of the file or a
    character that is no white space is refused with "expected white
    space before new line", on the line of the header: a file that is
    only a header without its new line is not read. *)
Theorem header_line_must_end (bodies : list (list ascii))
    (dv dc pad tail : list ascii) :
  Forall (Forall (fun a => a <> nl)) bodies ->
  1 + Z.of_nat (List.length bodies) <= INT_MAX ->
  header_number dv -> header_number dc ->
  Forall (fun a => is_blank a /\ a <> nl) pad ->
  match tail with
  | [] => True
  | a :: _ => ~ is_blank a /\ (pad = [] -> ~ is_digit a)
  end ->
  parse (comment_lines bodies ++ text "p cnf " ++ dv ++ [" "%char] ++ dc
         ++ pad ++ tail)
  = Err (parse_error (1 + Z.of_nat (List.length bodies))
           "expected white space before new line").
Proof.
  intros Hb Hmax [Hdv [Hv Hvmax]] [Hdc [Hc Hcmax]] Hpad Htail.
  destruct (parse_after_comments bodies
              (text "p cnf " ++ dv ++ [" "%char] ++ dc ++ pad ++ tail)
              Hb Hmax) as [fuel [Hf ->]].
  destruct fuel as [|fuel]; [cbn in Hf; lia|].
  set (l := 1 + Z.of_nat (List.length bodies)).
  change (text "p cnf ") with ("p"%char :: text " cnf ").
  rewrite <- app_comm_cons. cbn [parse_preamble next_char].
  change (chr "p" =? EOF) with false. rewrite Z.eqb_refl. cbv iota.
  change (bump (chr "p") l) with l.
  destruct dv as [|v0 dv]; [contradiction|].
  destruct dc as [|c0 dc]; [contradiction|].
  pose proof (Forall_inv Hv) as Hv0. pose proof (Forall_inv_tail Hv) as Hv'.
  pose proof (Forall_inv Hc) as Hc0. pose proof (Forall_inv_tail Hc) as Hc'.
  unfold is_digit in Hv0, Hc0.
  assert (Emv : number_value (v0 :: dv) = horner (chr v0 - 48) dv)
    by reflexivity.
  assert (Espec : number_value (c0 :: dc) = horner (chr c0 - 48) dc)
    by reflexivity.
  rewrite Emv in Hvmax. rewrite Espec in Hcmax.
  unfold parse_header.
  change (text " cnf ") with [" "; "c"; "n"; "f"; " "]%char.
  change (list_ascii_of_string " cnf ") with [" "; "c"; "n"; "f"; " "]%char.
  cbn [app]. cbn [parse_keyword next_char].
  change (chr " " =? chr " ") with true.
  change (chr "c" =? chr "c") with true.
  change (chr "n" =? chr "n") with true.
  change (chr "f" =? chr "f") with true. cbn [negb]. cbv iota.
  change (bump (chr " ") l) with l. change (bump (chr "c") l) with l.
  change (bump (chr "n") l) with l. change (bump (chr "f") l) with l.
  cbn [next_char].
  rewrite (proj2 (isdigit_range (chr v0)) Hv0). cbn [negb].
  rewrite digit_value by assumption.
  rewrite (bump_digit _ _ Hv0).
  rewrite (parse_number_digits _ _ dv
             (" "%char :: c0 :: dc ++ pad ++ tail) Hv' eq_refl) by lia.
  cbn [next_char]. change (bump (chr " ") l) with l.
  change (chr " " =? chr " ") with true. cbn [negb]. cbv iota.
  rewrite (proj2 (isdigit_range (chr c0)) Hc0). cbn [negb].
  rewrite digit_value by assumption.
  rewrite (bump_digit _ _ Hc0).
  assert (Hrest : match pad ++ tail with
                  | [] => True
                  | a :: _ => isdigit (chr a) = false
                  end).
  { destruct pad as [|b pad].
    - destruct tail as [|a tail]; [exact I|].
      cbn [app]. destruct Htail as [_ Hd].
      destruct (isdigit (chr a)) eqn:E; [|reflexivity].
      exfalso. apply (Hd eq_refl). now apply isdigit_range.
    - cbn [app]. apply blank_not_digit. exact (proj1 (Forall_inv Hpad)). }
  rewrite (parse_number_digits _ _ dc (pad ++ tail) Hc' Hrest) by lia.
  change (bump (chr " ") l) with l.
  assert (R := header_rest_refuses pad tail l Hpad).
  destruct (next_char (pad ++ tail) l) as [[ch f] l'].
  rewrite R; [reflexivity|].
  destruct tail; [exact I|apply Htail].
Qed.

Lemma header_line_must_end_witness :
  parse (text "p cnf 0 0")
  = Err (parse_error 1 "expected white space before new line").
Proof.
  apply (header_line_must_end [] (text "0") (text "0") [] []).
  - constructor.
  - cbn. unfold INT_MAX. lia.
  - repeat split; try discriminate; repeat constructor;
      unfold is_digit; cbn; unfold INT_MAX; lia.
  - repeat split; try discriminate; repeat constructor;
      unfold is_digit; cbn; unfold INT_MAX; lia.
  - constructor.
  - exact I.
Defined.

(** ** Parser: the files that are accepted *)

Lemma zeros_nonneg (vals : list Z) : 0 <= zeros vals.
Proof. induction vals as [|v vals IH]; cbn; [lia|]. destruct (v =? 0); lia. Qed.

Lemma pending_zero (vals : list Z) :
  forall lits, pending_values vals lits = [] -> lits <> [] ->
    1 <= zeros vals.
Proof.
  induction vals as [|v vals IH]; intros lits H Hne; cbn in *.
  - contradiction.
  - pose proof (zeros_nonneg vals). destruct (v =? 0); [lia|].
    specialize (IH _ H). cbn in IH.
    assert (lits ++ [v] <> []) by (destruct lits; discriminate).
    specialize (IH H1). lia.
Qed.

(** When as many clauses are closed as are declared and no literal is
    left open, there was room for each literal. *)
Lemma room_of_zeros (spec : Z) (vals : list Z) :
  forall nc lits, nc + zeros vals <= spec ->
    pending_values vals lits = [] -> room spec nc vals.
Proof.
  induction vals as [|v vals IH]; intros nc lits Hz Hp; cbn in *;
    [exact I|].
  pose proof (zeros_nonneg vals).
  destruct (v =? 0).
  - split; [lia|]. apply (IH _ []); [lia|assumption].
  - assert (1 <= zeros vals).
    { apply (pending_zero vals _ Hp). destruct lits; discriminate. }
    split; [lia|]. apply (IH _ (lits ++ [v])); [lia|assumption].
Qed.

Lemma ends_literal_gaps (gs : list gap) (rest : list ascii) :
  Forall gap_ok gs -> (gs = [] -> ends_literal rest) ->
  ends_literal (gaps_text gs ++ rest).
Proof.
  intros Hgs Hrest. destruct gs as [|g gs]; [now apply Hrest|].
  unfold gaps_text. cbn [map List.concat].
  pose proof (Forall_inv Hgs) as Hg.
  destruct g as [b|body]; cbn [gap_text gap_ok app ends_literal] in *.
  - now left.
  - now right.
Qed.

Lemma skip_comment_end (body : list ascii) :
  Forall (fun a => a <> nl) body ->
  forall lineno, exists lineno',
    skip_comment body lineno = (EOF, [], lineno').
Proof.
  induction 1 as [|a body Ha _ IH]; intros lineno; cbn [skip_comment].
  - eauto.
  - destruct (Z.eqb_spec (chr a) (chr nl)) as [E|E].
    + apply chr_inj in E. contradiction.
    + apply IH.
Qed.

Section AcceptedFiles.

Variables mv spec : Z.
Hypothesis mv_range : 0 <= mv <= INT_MAX.
Hypothesis spec_range : 0 <= spec <= INT_MAX.

(** One literal of a file, with or without something behind it. *)
Lemma token_run (t : token) (rest : list ascii) (nc : Z)
    (cls : list (list Z)) (lits : list Z) :
  token_wf mv t -> (gaps t = [] -> ends_literal rest) -> 0 <= nc < spec ->
  forall fuel lineno,
    runs_to
      (clauses_from fuel mv spec (token_text t ++ rest) lineno nc cls lits)
      (fun fuel lineno =>
         if token_value t =? 0
         then clauses_from fuel mv spec rest lineno (nc + 1)
                (cls ++ [lits ++ [0]]) []
         else clauses_from fuel mv spec rest lineno nc cls
                (lits ++ [token_value t])).
Proof.
  intros [Hne Hds Hgs Hneg Hval] Hsep Hnc fuel lineno.
  destruct t as [neg ds gs]. cbn [negative digits gaps] in *.
  destruct ds as [|d0 ds]; [contradiction|]. cbn [hd] in Hneg.
  pose proof (number_value_nonneg _ Hds) as Hnn.
  unfold token_text, token_value. cbn [negative digits gaps].
  rewrite app_assoc. fold (literal_text neg (d0 :: ds)).
  rewrite <- app_assoc.
  destruct fuel as [|fuel]; [left; apply clauses_from_O|].
  pose proof (ends_literal_gaps gs rest Hgs Hsep) as He.
  destruct (ends_literal_sep _ lineno He) as [Hnd Hs].
  rewrite (literal_read mv spec) by (try assumption; lia).
  assert (Hk : forall fuel lineno nc cls lits,
            (let '(ch, file, lineno) :=
               next_char (gaps_text gs ++ rest) lineno in
             parse_clauses fuel mv spec ch file lineno nc cls lits)
            = clauses_from fuel mv spec (gaps_text gs ++ rest) lineno nc cls
                lits) by reflexivity.
  destruct (next_char (gaps_text gs ++ rest) lineno) as [[ch f] l] eqn:E.
  cbn [fst] in Hs. specialize (Hk fuel lineno). rewrite E in Hk.
  unfold after_number.
  destruct (Z.gtb_spec (number_value (d0 :: ds)) mv); [lia|].
  rewrite Hs. destruct (Z.eqb_spec nc spec); [lia|]. cbv zeta.
  rewrite int_mul_small by (unfold INT_MAX in *; destruct neg; lia).
  replace ((if neg then -1 else 1) * number_value (d0 :: ds))
    with (if neg then - number_value (d0 :: ds) else number_value (d0 :: ds))
    by (destruct neg; lia).
  set (v := if neg then - number_value (d0 :: ds)
            else number_value (d0 :: ds)).
  destruct (Z.eqb_spec v 0); cbn [negb].
  - destruct (Z.ltb_spec nc spec); [|lia]. cbn [negb].
    rewrite int_add_small by (unfold INT_MAX in *; lia).
    rewrite Hk. apply (skip_gaps mv spec). assumption.
  - rewrite Hk. apply (skip_gaps mv spec). assumption.
Qed.

Lemma tokens_separated_rest (t : token) (toks : list token)
    (rest : list ascii) :
  (toks <> [] -> gaps t <> []) -> (toks = [] -> ends_literal rest) ->
  gaps t = [] -> ends_literal (tokens_text toks ++ rest).
Proof.
  intros H1 H2 Hg. destruct toks as [|t' toks].
  - now apply H2.
  - exfalso. apply H1; [discriminate|assumption].
Qed.

(** The literals of a file, one after the other. *)
Lemma tokens_run (toks : list token) (rest : list ascii) :
  Forall (token_wf mv) toks -> separated toks ->
  ends_literal rest ->
  forall nc cls lits fuel lineno,
    0 <= nc -> room spec nc (map token_value toks) ->
    runs_to
      (clauses_from fuel mv spec (tokens_text toks ++ rest) lineno nc cls
         lits)
      (fun fuel lineno =>
         clauses_from fuel mv spec rest lineno
           (nc + zeros (map token_value toks))
           (cls ++ clauses_of_values (map token_value toks) lits)
           (pending_values (map token_value toks) lits)).
Proof.
  intros Hok. induction Hok as [|t toks Ht _ IH];
    intros Hsep Hrest nc cls lits fuel lineno Hnc Hroom.
  - right. exists fuel, lineno. cbn. now rewrite Z.add_0_r, app_nil_r.
  - cbn [separated] in Hsep. destruct Hsep as [Hs1 Hs2].
    cbn [map room] in Hroom. destruct Hroom as [Hlt Hroom].
    unfold tokens_text in *. cbn [map List.concat]. rewrite <- app_assoc.
    eapply runs_to_trans.
    { apply (token_run t _ nc cls lits Ht); [|lia].
      intros Hg. apply (tokens_separated_rest t toks rest Hs1); auto. }
    intros fuel' lineno'. cbv beta.
    cbn [clauses_of_values pending_values zeros].
    destruct (Z.eqb_spec (token_value t) 0).
    + replace (nc + (1 + zeros (map token_value toks)))
        with (nc + 1 + zeros (map token_value toks)) by lia.
      replace (cls ++ (lits ++ [0])
                   :: clauses_of_values (map token_value toks) [])
        with ((cls ++ [lits ++ [0]])
              ++ clauses_of_values (map token_value toks) [])
        by (now rewrite <- app_assoc).
      apply IH; auto; lia.
    + replace (nc + (0 + zeros (map token_value toks)))
        with (nc + zeros (map token_value toks)) by lia.
      apply IH; auto.
Qed.

(** The end of a file, when the clauses are all read. *)
Lemma tail_run (tail : list ascii) (cls : list (list Z)) :
  tail_ok tail ->
  forall fuel lineno,
    let r := clauses_from fuel mv spec tail lineno spec cls [] in
    r = Err out_of_fuel \/
    r = Ok {| max_var := mv; num_clauses := spec; clauses := cls |}.
Proof.
  intros Htail fuel lineno r. subst r.
  assert (Hend : forall fuel lineno,
            parse_clauses fuel mv spec EOF [] lineno spec cls []
            = Err out_of_fuel \/
            parse_clauses fuel mv spec EOF [] lineno spec cls []
            = Ok {| max_var := mv; num_clauses := spec; clauses := cls |}).
  { intros [|f] l; [now left|]. right. cbn [parse_clauses].
    change (space EOF) with false. change (EOF =? EOF) with true.
    cbv iota. cbn [List.length Z.of_nat Z.eqb negb].
    now rewrite Z.ltb_irrefl. }
  destruct tail as [|a body].
  - unfold clauses_from. cbn [next_char]. apply Hend.
  - destruct Htail as [-> Hbody].
    unfold clauses_from. cbn [next_char].
    destruct fuel as [|fuel]; [now left|]. cbn [parse_clauses].
    change (space (chr "c")) with false.
    change (chr "c" =? EOF) with false. rewrite Z.eqb_refl. cbv iota.
    destruct (skip_comment_end body Hbody (bump (chr "c") lineno))
      as [l' ->].
    apply Hend.
Qed.

End AcceptedFiles.

Lemma tail_ends_literal (tail : list ascii) : tail_ok tail -> ends_literal tail.
Proof. destruct tail as [|a body]; [auto|]. intros [-> _]. now right. Qed.

(** White space up to the new line of the header. *)
Lemma header_rest_pad (pad body : list ascii) (lineno : Z) :
  Forall (fun a => is_blank a /\ a <> nl) pad ->
  exists lineno',
    (let '(ch, file, lineno) := next_char (pad ++ nl :: body) lineno in
     header_rest ch file lineno) = Ok (body, lineno').
Proof.
  intros Hpad. revert lineno.
  induction Hpad as [|b pad [Hb Hnl] _ IH]; intros lineno.
  - cbn [app next_char]. rewrite header_rest_nl. eauto.
  - cbn [app next_char]. rewrite header_rest_unfold.
    destruct (Z.eqb_spec (chr b) (chr nl)) as [E|_];
      [apply chr_inj in E; contradiction|].
    unfold is_blank in Hb. rewrite Hb. cbn [negb].
    destruct (IH (bump (chr b) lineno)) as [l' E].
    destruct (pad ++ nl :: body) as [|a f] eqn:Ef;
      [destruct pad; discriminate|].
    cbn [next_char] in E. eauto.
Qed.

Lemma pad_not_digit (pad body : list ascii) :
  Forall (fun a => is_blank a /\ a <> nl) pad ->
  match pad ++ nl :: body with
  | [] => True
  | a :: _ => isdigit (chr a) = false
  end.
Proof.
  intros Hpad. destruct pad as [|b pad]; cbn [app]; [reflexivity|].
  apply blank_not_digit. exact (proj1 (Forall_inv Hpad)).
Qed.

(** Behind its header, a DIMACS file is read by the loop of the
    clauses. *)
Lemma parse_enter_pad (bodies : list (list ascii))
    (dv dc pad body : list ascii) :
  Forall (Forall (fun a => a <> nl)) bodies ->
  header_number dv -> header_number dc ->
  Forall (fun a => is_blank a /\ a <> nl) pad ->
  exists fuel lineno,
    parse (comment_lines bodies ++ text "p cnf " ++ dv ++ [" "%char] ++ dc
           ++ pad ++ [nl] ++ body)
    = clauses_from fuel (number_value dv) (number_value dc) body lineno
        0 [] [].
Proof.
  intros Hb [Hdv [Hv Hvmax]] [Hdc [Hc Hcmax]] Hpad.
  rewrite parse_unfold.
  change (text "p cnf ") with ("p"%char :: text " cnf ").
  rewrite <- (app_comm_cons (text " cnf ")).
  set (rest := text " cnf " ++ dv ++ [" "%char] ++ dc ++ pad ++ [nl] ++ body).
  destruct (parse_preamble_comments bodies rest Hb
              (S (List.length (comment_lines bodies ++ "p"%char :: rest))) 1)
    as [l ->].
  { rewrite length_app. pose proof (comment_lines_length bodies). lia. }
  subst rest.
  destruct dv as [|v0 dv]; [contradiction|].
  destruct dc as [|c0 dc]; [contradiction|].
  pose proof (Forall_inv Hv) as Hv0. pose proof (Forall_inv_tail Hv) as Hv'.
  pose proof (Forall_inv Hc) as Hc0. pose proof (Forall_inv_tail Hc) as Hc'.
  unfold is_digit in Hv0, Hc0.
  set (mv := number_value (v0 :: dv)) in *.
  set (spec := number_value (c0 :: dc)) in *.
  assert (Emv : mv = horner (chr v0 - 48) dv) by reflexivity.
  assert (Espec : spec = horner (chr c0 - 48) dc) by reflexivity.
  unfold parse_header.
  change (text " cnf ") with [" "; "c"; "n"; "f"; " "]%char.
  change (list_ascii_of_string " cnf ") with [" "; "c"; "n"; "f"; " "]%char.
  cbn [app]. cbn [parse_keyword next_char].
  change (chr " " =? chr " ") with true.
  change (chr "c" =? chr "c") with true.
  change (chr "n" =? chr "n") with true.
  change (chr "f" =? chr "f") with true. cbn [negb]. cbv iota.
  cbn [next_char].
  rewrite (proj2 (isdigit_range (chr v0)) Hv0). cbn [negb].
  rewrite digit_value by assumption.
  rewrite (parse_number_digits _ _ dv
             (" "%char :: c0 :: dc ++ pad ++ nl :: body) Hv' eq_refl) by lia.
  cbn [app next_char].
  change (chr " " =? chr " ") with true. cbn [negb]. cbv iota.
  rewrite (proj2 (isdigit_range (chr c0)) Hc0). cbn [negb].
  rewrite digit_value by assumption.
  rewrite (parse_number_digits _ _ dc (pad ++ nl :: body) Hc'
             (pad_not_digit pad body Hpad)) by lia.
  rewrite <- Emv, <- Espec.
  match goal with
  | |- context [next_char (pad ++ nl :: body) ?L] =>
      destruct (header_rest_pad pad body L Hpad) as [l' R];
      destruct (next_char (pad ++ nl :: body) L) as [[ch f] l2]
  end.
  rewrite R.
  exists (2 + List.length (snd (fst (next_char body l'))))%nat, l'.
  unfold clauses_from.
  destruct (next_char body l') as [[ch' f'] l3]. reflexivity.
Qed.

(** A DIMACS file is accepted when its literals close as many clauses as
    its header declares and leave none open; its clauses are those of its
    literals. *)
Lemma parse_dimacs_file (bodies : list (list ascii)) (dv dc pad : list ascii)
    (lead : list gap) (toks : list token) (tail : list ascii) :
  dimacs_file_ok bodies dv dc pad lead toks tail ->
  zeros (map token_value toks) = number_value dc ->
  pending_values (map token_value toks) [] = [] ->
  parse (dimacs_file bodies dv dc pad lead toks tail)
  = Ok {| max_var := number_value dv; num_clauses := number_value dc;
          clauses := clauses_of_values (map token_value toks) [] |}.
Proof.
  intros [Hb Hdv Hdc Hpad Hlead Htoks Hsep Htail] Hz Hp.
  set (mv := number_value dv) in *. set (spec := number_value dc) in *.
  assert (Hmv : 0 <= mv <= INT_MAX).
  { destruct Hdv as [_ [H1 H2]]. split; [now apply number_value_nonneg|].
    exact H2. }
  assert (Hspec : 0 <= spec <= INT_MAX).
  { destruct Hdc as [_ [H1 H2]]. split; [now apply number_value_nonneg|].
    exact H2. }
  pose proof (parse_total (dimacs_file bodies dv dc pad lead toks tail))
    as Htotal.
  unfold dimacs_file in *.
  destruct (parse_enter_pad bodies dv dc pad
              (gaps_text lead ++ tokens_text toks ++ tail) Hb Hdv Hdc Hpad)
    as [fuel [lineno E]].
  rewrite E in *. fold mv in Htotal |- *. fold spec in Htotal |- *.
  destruct (skip_gaps mv spec lead (tokens_text toks ++ tail) 0 [] []
              Hlead fuel lineno) as [R|[f1 [l1 R]]];
    [congruence|]. rewrite R in *.
  destruct (tokens_run mv spec Hmv Hspec toks tail Htoks Hsep
              (tail_ends_literal tail Htail) 0 [] [] f1 l1
              ltac:(lia))
    as [R2|[f2 [l2 R2]]].
  { apply (room_of_zeros spec _ 0 []); [lia|assumption]. }
  { congruence. }
  rewrite R2 in *. rewrite Hp, Z.add_0_l, Hz in *. cbn [app] in *.
  destruct (tail_run mv spec tail
              (clauses_of_values (map token_value toks) []) Htail f2 l2)
    as [R3|R3]; [congruence|exact R3].
Qed.

(** ** Parser: every accepted file is a DIMACS file *)

Lemma reading_next (T : list ascii) (lineno : Z) :
  reading T (fst (fst (next_char T lineno))) (snd (fst (next_char T lineno))).
Proof. destruct T; cbn; auto. Qed.

Lemma skip_header_comment_inv (file : list ascii) :
  forall lineno rest lineno',
    skip_header_comment file lineno = Ok (rest, lineno') ->
    exists body,
      Forall (fun a => a <> nl) body /\ file = body ++ nl :: rest.
Proof.
  induction file as [|a file IH]; intros lineno rest lineno' H;
    cbn [skip_header_comment] in H; [discriminate|].
  destruct (Z.eqb_spec (chr a) (chr nl)) as [E|E].
  - apply chr_inj in E. subst a. inversion H; subst.
    exists []. split; [constructor|reflexivity].
  - destruct (IH _ _ _ H) as [body [Hb ->]].
    exists (a :: body). split; [|reflexivity].
    constructor; [|assumption]. intros ->. now apply E.
Qed.

Lemma parse_preamble_inv (fuel : nat) :
  forall file lineno rest lineno',
    parse_preamble fuel file lineno = Ok (rest, lineno') ->
    exists bodies,
      Forall (Forall (fun a => a <> nl)) bodies /\
      file = comment_lines bodies ++ "p"%char :: rest.
Proof.
  induction fuel as [|fuel IH]; intros file lineno rest lineno' H;
    cbn [parse_preamble] in H; [discriminate|].
  destruct file as [|a file]; cbn [next_char] in H.
  - change (EOF =? EOF) with true in H. discriminate.
  - rewrite chr_not_EOF in H.
    destruct (Z.eqb_spec (chr a) (chr "p")) as [E|_].
    + apply chr_inj in E. subst a. inversion H; subst.
      exists []. split; [constructor|reflexivity].
    + destruct (Z.eqb_spec (chr a) (chr "c")) as [E|_].
      * apply chr_inj in E. subst a.
        destruct (skip_header_comment file _) as [[f l]|e] eqn:Es;
          [|discriminate].
        apply skip_header_comment_inv in Es. destruct Es as [body [Hb ->]].
        destruct (IH _ _ _ _ H) as [bodies [Hbs ->]].
        exists (body :: bodies). split; [now constructor|].
        unfold comment_lines, gaps_text. cbn [map List.concat gap_text].
        rewrite <- !app_assoc. cbn [app]. now rewrite <- app_assoc.
      * destruct (isprint (chr a)); discriminate.
Qed.

Lemma parse_keyword_inv (kw : list ascii) :
  forall file lineno rest lineno',
    parse_keyword kw file lineno = Ok (rest, lineno') -> file = kw ++ rest.
Proof.
  induction kw as [|k kw IH]; intros file lineno rest lineno' H;
    cbn [parse_keyword] in H.
  - now inversion H.
  - destruct file as [|a file]; cbn [next_char] in H.
    + destruct (Z.eqb_spec EOF (chr k)) as [E|_]; [|discriminate].
      pose proof (chr_not_EOF k) as Hk. apply Z.eqb_neq in Hk.
      now contradiction Hk.
    + destruct (Z.eqb_spec (chr a) (chr k)) as [E|_]; [|discriminate].
      apply chr_inj in E. subst a. cbn [negb] in H.
      cbn [app]. f_equal. exact (IH _ _ _ _ H).
Qed.

Lemma parse_number_inv (e1 e2 : string) (file : list ascii) :
  forall n lineno v ch file' lineno',
    0 <= n <= INT_MAX ->
    parse_number e1 e2 n file lineno = Ok (v, ch, file', lineno') ->
    exists ds rest,
      file = ds ++ rest /\ Forall is_digit ds /\ v = horner n ds /\
      reading rest ch file' /\
      match rest with [] => True | a :: _ => isdigit (chr a) = false end.
Proof.
  induction file as [|a file IH]; intros n lineno v ch file' lineno' Hn H;
    cbn [parse_number] in H.
  - inversion H; subst. exists [], []. cbn. repeat split; constructor.
  - cbv zeta in H. destruct (isdigit (chr a)) eqn:Hd.
    + apply isdigit_range in Hd.
      destruct (Z.ltb_spec (INT_MAX / 10) n); [discriminate|].
      change (INT_MAX / 10) with 214748364 in *.
      rewrite digit_value in H by assumption.
      rewrite int_mul_small in H by (unfold INT_MAX; lia).
      rewrite int_sub_small in H by (unfold INT_MAX; lia).
      destruct (Z.ltb_spec (INT_MAX - (chr a - 48)) (n * 10));
        [discriminate|].
      rewrite int_add_small in H by (unfold INT_MAX in *; lia).
      apply IH in H; [|unfold INT_MAX in *; lia].
      destruct H as [ds [rest [-> [Hds [-> [Hr Hnd]]]]]].
      exists (a :: ds), rest. repeat split; auto.
    + inversion H; subst. exists [], (a :: file').
      cbn [app reading horner fold_left]. repeat split; auto.
Qed.

Lemma header_rest_inv (T : list ascii) :
  forall ch file lineno rest lineno',
    reading T ch file ->
    header_rest ch file lineno = Ok (rest, lineno') ->
    exists pad,
      Forall (fun a => is_blank a /\ a <> nl) pad /\ T = pad ++ nl :: rest.
Proof.
  induction T as [|a T IH]; intros ch file lineno rest lineno' Hr H;
    cbn [reading] in Hr; destruct Hr as [-> ->];
    rewrite header_rest_unfold in H.
  - change (EOF =? chr nl) with false in H.
    change (space EOF) with false in H. discriminate.
  - destruct (Z.eqb_spec (chr a) (chr nl)) as [E|E].
    + apply chr_inj in E. subst a. inversion H; subst.
      exists []. split; [constructor|reflexivity].
    + destruct (space (chr a)) eqn:Hs; cbn [negb] in H; [|discriminate].
      destruct T as [|b T]; [discriminate|].
      apply (IH (chr b) T) in H; [|cbn; auto].
      destruct H as [pad [Hpad ->]].
      exists (a :: pad). split; [|reflexivity].
      constructor; [|assumption]. split; [exact Hs|].
      intros ->. now apply E.
Qed.

Lemma skip_comment_inv (T : list ascii) :
  forall lineno ch file lineno',
    skip_comment T lineno = (ch, file, lineno') ->
    (ch = chr nl /\ exists body,
       Forall (fun a => a <> nl) body /\ T = body ++ nl :: file) \/
    (ch = EOF /\ file = [] /\ Forall (fun a => a <> nl) T).
Proof.
  induction T as [|a T IH]; intros lineno ch file lineno' H;
    cbn [skip_comment] in H.
  - inversion H; subst. right. repeat split. constructor.
  - destruct (Z.eqb_spec (chr a) (chr nl)) as [E|E].
    + apply chr_inj in E. subst a. inversion H; subst. left.
      split; [reflexivity|]. exists []. split; [constructor|reflexivity].
    + assert (a <> nl) as Ha by (intros ->; now apply E).
      destruct (IH _ _ _ _ H) as [[-> [body [Hb ->]]]|[-> [-> Hb]]].
      * left. split; [reflexivity|]. exists (a :: body).
        split; [now constructor|reflexivity].
      * right. repeat split. now constructor.
Qed.

Lemma token_head (mv : Z) (t : token) (rest : list ascii) :
  token_wf mv t ->
  exists a tl, token_text t ++ rest = a :: tl /\
               (a = "-"%char \/ is_digit a).
Proof.
  intros [Hne Hds _ _ _]. destruct t as [neg ds gs].
  cbn [digits] in *. unfold token_text. cbn [negative digits gaps].
  destruct neg; cbn [app].
  - eauto.
  - destruct ds as [|d ds]; [contradiction|]. cbn [app].
    exists d. eexists. split; [reflexivity|]. right. exact (Forall_inv Hds).
Qed.

Section AcceptedInv.

Variables mv spec : Z.
Hypothesis spec_range : 0 <= spec <= INT_MAX.

Lemma end_inv (fuel : nat) (lineno nc : Z) (cls : list (list Z))
    (lits : list Z) (c : cnf) :
  0 <= nc <= spec ->
  parse_clauses fuel mv spec EOF [] lineno nc cls lits = Ok c ->
  lits = [] /\ nc = spec /\
  c = {| max_var := mv; num_clauses := spec; clauses := cls |}.
Proof.
  intros Hnc H. destruct fuel as [|fuel]; [discriminate|].
  cbn [parse_clauses] in H.
  change (space EOF) with false in H. change (EOF =? EOF) with true in H.
  cbv iota in H.
  destruct lits as [|x lits]; [|cbn in H; discriminate].
  cbn [List.length Z.of_nat Z.eqb negb] in H.
  destruct (Z.ltb_spec nc spec); [discriminate|].
  assert (nc = spec) by lia. subst nc. inversion H. auto.
Qed.

(** What the loop of the clauses accepts is white space and comments,
    then literals, each with what follows it, and the end of the file;
    what it returns are the clauses of these literals. *)
Lemma clauses_inv (fuel : nat) :
  forall T ch file lineno nc cls lits c,
    reading T ch file -> 0 <= nc <= spec ->
    parse_clauses fuel mv spec ch file lineno nc cls lits = Ok c ->
    exists lead toks tail,
      T = gaps_text lead ++ tokens_text toks ++ tail /\
      Forall gap_ok lead /\ Forall (token_wf mv) toks /\
      separated toks /\ tail_ok tail /\
      nc + zeros (map token_value toks) = spec /\
      pending_values (map token_value toks) lits = [] /\
      c = {| max_var := mv; num_clauses := spec;
             clauses := cls ++ clauses_of_values (map token_value toks)
                                 lits |}.
Proof.
  induction fuel as [fuel IH] using lt_wf_ind.
  intros T ch file lineno nc cls lits c Hr Hnc H.
  destruct T as [|a T]; cbn [reading] in Hr; destruct Hr as [-> ->].
  { (* the end of the file *)
    destruct (end_inv _ _ _ _ _ _ Hnc H) as [-> [-> ->]].
    exists [], [], []. cbn. rewrite app_nil_r.
    repeat split; auto; lia. }
  destruct fuel as [|fuel]; [discriminate|]. cbn [parse_clauses] in H.
  destruct (space (chr a)) eqn:Hsp.
  { (* a white space character *)
    pose proof (reading_next T lineno) as Hr.
    destruct (next_char T lineno) as [[ch' f'] l']. cbn [fst snd] in Hr.
    destruct (IH fuel ltac:(lia) _ _ _ _ _ _ _ _ Hr Hnc H)
      as [lead [toks [tail [-> [H1 [H2 [H3 [H4 [H5 [H6 ->]]]]]]]]]].
    exists (Blank a :: lead), toks, tail.
    repeat split; auto; try (constructor; [exact Hsp|assumption]). }
  rewrite chr_not_EOF in H.
  destruct (Z.eqb_spec (chr a) (chr "c")) as [E|Hc].
  { (* a comment *)
    apply chr_inj in E. subst a.
    destruct (skip_comment T lineno) as [[ch' f'] l'] eqn:Es.
    destruct (skip_comment_inv _ _ _ _ _ Es)
      as [[-> [body [Hb ->]]]|[-> [-> Hb]]].
    - destruct fuel as [|fuel]; [discriminate|]. cbn [parse_clauses] in H.
      change (space (chr nl)) with true in H. cbv iota in H.
      pose proof (reading_next f' l') as Hr.
      destruct (next_char f' l') as [[ch2 f2] l2]. cbn [fst snd] in Hr.
      destruct (IH fuel ltac:(lia) _ _ _ _ _ _ _ _ Hr Hnc H)
        as [lead [toks [tail [-> [H1 [H2 [H3 [H4 [H5 [H6 ->]]]]]]]]]].
      exists (Comment body :: lead), toks, tail.
      split.
      { unfold gaps_text. cbn [map List.concat gap_text].
        rewrite <- !app_assoc. cbn [app]. now rewrite <- app_assoc. }
      split; [constructor; assumption|].
      repeat split; auto.
    - destruct (end_inv _ _ _ _ _ _ Hnc H) as [-> [-> ->]].
      exists [], [], ("c"%char :: T). cbn. rewrite app_nil_r.
      repeat split; auto; lia. }
  (* a literal *)
  destruct (parse_sign (chr a) T lineno) as [[[[sign ch1] f1] l1]|e] eqn:Esg;
    [|discriminate].
  assert (Hlit : exists neg d0,
            a :: T = literal_text neg [d0] ++ f1 /\ ch1 = chr d0 /\
            is_digit d0 /\ sign = (if neg then -1 else 1) /\
            (neg = true -> d0 <> "0"%char)).
  { unfold parse_sign in Esg.
    destruct (Z.eqb_spec (chr a) (chr "-")) as [E|E].
    - apply chr_inj in E. subst a.
      destruct T as [|d0 T]; cbn [next_char] in Esg;
        [change (isdigit EOF) with false in Esg; discriminate|].
      destruct (isdigit (chr d0)) eqn:Hd; cbn [negb] in Esg;
        [|discriminate].
      destruct (Z.eqb_spec (chr d0) (chr "0")) as [E0|E0]; [discriminate|].
      inversion Esg; subst. exists true, d0.
      repeat split; auto; try (now apply isdigit_range).
      intros _ ->. now apply E0.
    - destruct (isdigit (chr a)) eqn:Hd; cbn [negb] in Esg; [|discriminate].
      inversion Esg; subst. exists false, a.
      repeat split; auto; try (now apply isdigit_range). discriminate. }
  destruct Hlit as [neg [d0 [ET [-> [Hd0 [-> Hneg]]]]]].
  unfold is_digit in Hd0.
  rewrite (proj2 (isdigit_range (chr d0)) Hd0) in H. cbn [negb] in H.
  rewrite digit_value in H by assumption.
  destruct (parse_number _ _ (chr d0 - 48) f1 l1)
    as [[[[idx ch2] f2] l2]|e] eqn:En; [|discriminate].
  assert (Hidx : chr d0 - 48 <= idx <= INT_MAX).
  { eapply parse_number_range; [|exact En]. unfold INT_MAX. lia. }
  apply parse_number_inv in En; [|unfold INT_MAX; lia].
  destruct En as [ds [rest [-> [Hds [-> [Hr Hnd]]]]]].
  change (horner (chr d0 - 48) ds) with (number_value (d0 :: ds)) in *.
  set (nv := number_value (d0 :: ds)) in *.
  destruct (Z.gtb_spec nv mv); [discriminate|].
  destruct (negb (space ch2) && negb (ch2 =? chr "c") && negb (ch2 =? EOF))
    eqn:Hsep; [destruct (isprint ch2); discriminate|].
  destruct (Z.eqb_spec nc spec); [discriminate|]. cbv zeta in H.
  rewrite int_mul_small in H by (unfold INT_MAX in *; destruct neg; lia).
  set (t0 := fun gs => {| negative := neg; digits := d0 :: ds; gaps := gs |}).
  assert (Hval : forall gs, token_value (t0 gs)
                            = (if neg then -1 else 1) * nv).
  { intros gs. unfold token_value, t0. cbn [negative digits].
    fold nv. destruct neg; lia. }
  assert (Hwf : forall gs, Forall gap_ok gs -> token_wf mv (t0 gs)).
  { intros gs Hgs. split; cbn [digits gaps negative hd]; auto.
    - discriminate.
    - constructor; assumption. }
  assert (Hfin : forall lead toks tail c' nc' cls' lits',
    rest = gaps_text lead ++ tokens_text toks ++ tail ->
    Forall gap_ok lead -> Forall (token_wf mv) toks -> separated toks ->
    tail_ok tail ->
    nc' + zeros (map token_value toks) = spec ->
    pending_values (map token_value toks) lits' = [] ->
    (nc' + zeros (map token_value toks)
     = nc + zeros (map token_value (t0 lead :: toks))) ->
    pending_values (map token_value toks) lits'
    = pending_values (map token_value (t0 lead :: toks)) lits ->
    cls' ++ clauses_of_values (map token_value toks) lits'
    = cls ++ clauses_of_values (map token_value (t0 lead :: toks)) lits ->
    c' = {| max_var := mv; num_clauses := spec;
            clauses := cls' ++ clauses_of_values (map token_value toks)
                                  lits' |} ->
    exists lead toks tail,
      a :: T = gaps_text lead ++ tokens_text toks ++ tail /\
      Forall gap_ok lead /\ Forall (token_wf mv) toks /\
      separated toks /\ tail_ok tail /\
      nc + zeros (map token_value toks) = spec /\
      pending_values (map token_value toks) lits = [] /\
      c' = {| max_var := mv; num_clauses := spec;
              clauses := cls ++ clauses_of_values (map token_value toks)
                                  lits |}).
  { intros lead toks tail c' nc' cls' lits' -> H1 H2 H3 H4 H5 H6 E1 E2 E3 ->.
    exists [], (t0 lead :: toks), tail.
    split.
    { rewrite ET. unfold tokens_text, t0, token_text, literal_text.
      cbn [map List.concat negative digits gaps gaps_text app].
      rewrite <- !app_assoc. cbn [app]. now rewrite <- !app_assoc. }
    split; [constructor|]. split; [constructor; auto|].
    split.
    { cbn [separated]. split; [|assumption].
      intros Hne. cbn [gaps t0]. intros ->.
      destruct toks as [|t' toks]; [contradiction|].
      destruct (token_head mv t' (List.concat (map token_text toks) ++ tail)
                  (Forall_inv H2)) as [b [tl [Eb Hb]]].
      unfold tokens_text, gaps_text in Hr. cbn [map List.concat app] in Hr.
      rewrite <- app_assoc, Eb in Hr. cbn [reading] in Hr.
      destruct Hr as [-> _].
      destruct Hb as [->|Hb]; [discriminate Hsep|].
      unfold is_digit in Hb. rewrite (digit_space _ Hb) in Hsep.
      rewrite (digit_neq _ (chr "c") Hb) in Hsep
        by (change (chr "c") with 99; lia).
      rewrite chr_not_EOF in Hsep. discriminate. }
    split; [assumption|]. split; [lia|]. split; [congruence|].
    now rewrite E3. }
  destruct (Z.eqb_spec ((if neg then -1 else 1) * nv) 0) as [Ez|Ez];
    cbn [negb] in H.
  - destruct (Z.ltb_spec nc spec); [|lia]. cbn [negb] in H.
    rewrite int_add_small in H by (unfold INT_MAX in *; lia).
    assert (Hnc' : 0 <= nc + 1 <= spec) by lia.
    destruct (IH fuel ltac:(lia) _ _ _ _ _ _ _ _ Hr Hnc' H)
      as [lead [toks [tail [E [G1 [G2 [G3 [G4 [G5 [G6 Ec]]]]]]]]]].
    apply (Hfin lead toks tail c (nc + 1) (cls ++ [lits ++ [0]]) []);
      auto; cbn [map zeros pending_values clauses_of_values];
      rewrite (Hval lead);
      (destruct (Z.eqb_spec ((if neg then -1 else 1) * nv) 0);
       [|contradiction]); try lia; try reflexivity.
    now rewrite <- app_assoc.
  - destruct (IH fuel ltac:(lia) _ _ _ _ _ _ _ _ Hr Hnc H)
      as [lead [toks [tail [E [G1 [G2 [G3 [G4 [G5 [G6 Ec]]]]]]]]]].
    apply (Hfin lead toks tail c nc cls
             (lits ++ [(if neg then -1 else 1) * nv]));
      auto; cbn [map zeros pending_values clauses_of_values];
      rewrite (Hval lead);
      (destruct (Z.eqb_spec ((if neg then -1 else 1) * nv) 0);
       [contradiction|]); try lia; reflexivity.
Qed.

End AcceptedInv.

(** Every file that [parse] accepts is a DIMACS file whose literals close
    as many clauses as its header declares and leave none open, and what
    [parse] returns are the two numbers of the header and the clauses of
    the literals. *)
Lemma parse_inv (file : list ascii) (c : cnf) :
  parse file = Ok c ->
  exists bodies dv dc pad lead toks tail,
    file = dimacs_file bodies dv dc pad lead toks tail /\
    dimacs_file_ok bodies dv dc pad lead toks tail /\
    zeros (map token_value toks) = number_value dc /\
    pending_values (map token_value toks) [] = [] /\
    c = {| max_var := number_value dv; num_clauses := number_value dc;
           clauses := clauses_of_values (map token_value toks) [] |}.
Proof.
  unfold parse. intros H.
  destruct (parse_preamble _ file 1) as [[f0 l0]|e] eqn:E0; [|discriminate].
  apply parse_preamble_inv in E0. destruct E0 as [bodies [Hb ->]].
  destruct (parse_keyword _ f0 l0) as [[f1 l1]|e] eqn:E1; [|discriminate].
  apply parse_keyword_inv in E1. subst f0.
  destruct f1 as [|v0 f2]; cbn [next_char] in H;
    [change (isdigit EOF) with false in H; discriminate|].
  destruct (isdigit (chr v0)) eqn:Hv0; cbn [negb] in H; [|discriminate].
  apply isdigit_range in Hv0. rewrite digit_value in H by assumption.
  destruct (parse_number _ _ (chr v0 - 48) f2 _)
    as [[[[mv ch3] f3] l3]|e] eqn:Emv; [|discriminate].
  assert (Hmv : chr v0 - 48 <= mv <= INT_MAX).
  { eapply parse_number_range; [|exact Emv]. unfold INT_MAX. lia. }
  apply parse_number_inv in Emv; [|unfold INT_MAX; lia].
  destruct Emv as [dv [rest3 [-> [Hdv [-> [Hr3 _]]]]]].
  destruct (Z.eqb_spec ch3 (chr " ")) as [->|]; cbn [negb] in H;
    [|discriminate].
  destruct rest3 as [|sp rest3]; cbn [reading] in Hr3;
    destruct Hr3 as [Esp ->]; [discriminate Esp|].
  apply chr_inj in Esp. subst sp.
  destruct rest3 as [|c0 f4]; cbn [next_char] in H;
    [change (isdigit EOF) with false in H; discriminate|].
  destruct (isdigit (chr c0)) eqn:Hc0; cbn [negb] in H; [|discriminate].
  apply isdigit_range in Hc0. rewrite digit_value in H by assumption.
  destruct (parse_number _ _ (chr c0 - 48) f4 _)
    as [[[[spec ch5] f5] l5]|e] eqn:Espec; [|discriminate].
  assert (Hspec : chr c0 - 48 <= spec <= INT_MAX).
  { eapply parse_number_range; [|exact Espec]. unfold INT_MAX. lia. }
  apply parse_number_inv in Espec; [|unfold INT_MAX; lia].
  destruct Espec as [dc [rest5 [-> [Hdc [-> [Hr5 _]]]]]].
  destruct (header_rest ch5 f5 l5) as [[f6 l6]|e] eqn:Eh; [|discriminate].
  destruct (header_rest_inv _ _ _ _ _ _ Hr5 Eh) as [pad [Hpad ->]].
  pose proof (reading_next f6 l6) as Hr.
  destruct (next_char f6 l6) as [[ch7 f7] l7]. cbn [fst snd] in Hr.
  change (horner (chr v0 - 48) dv) with (number_value (v0 :: dv)) in *.
  change (horner (chr c0 - 48) dc) with (number_value (c0 :: dc)) in *.
  assert (Rspec : 0 <= number_value (c0 :: dc) <= INT_MAX) by lia.
  assert (Rnc : 0 <= 0 <= number_value (c0 :: dc)) by lia.
  destruct (clauses_inv (number_value (v0 :: dv)) (number_value (c0 :: dc))
              Rspec _ _ _ _ _ 0 [] [] c Hr Rnc H)
    as [lead [toks [tail [-> [H1 [H2 [H3 [H4 [H5 [H6 ->]]]]]]]]]].
  exists bodies, (v0 :: dv), (c0 :: dc), pad, lead, toks, tail.
  split.
  { unfold dimacs_file.
    change (text "p cnf ") with ("p"%char :: list_ascii_of_string " cnf ").
    reflexivity. }
  split.
  { split; auto.
    - split; [discriminate|]. split; [now constructor|lia].
    - split; [discriminate|]. split; [now constructor|lia]. }
  split; [lia|]. split; [assumption|]. reflexivity.
Qed.

(** The literals of a sequence that leaves no clause open are the
    literals of its clauses, each clause followed by its zero. *)
Lemma values_blocks (vals : list Z) :
  forall lits,
    Forall (fun lit => lit <> 0) lits ->
    pending_values vals lits = [] ->
    exists cls,
      Forall (Forall (fun lit => lit <> 0)) cls /\
      lits ++ vals = List.concat (map (fun l => l ++ [0]) cls) /\
      clauses_of_values vals lits = map (fun l => l ++ [0]) cls /\
      zeros vals = Z.of_nat (List.length cls).
Proof.
  induction vals as [|v vals IH]; intros lits Hl Hp;
    cbn [pending_values clauses_of_values zeros] in *.
  - subst lits. exists []. repeat split. constructor.
  - destruct (Z.eqb_spec v 0) as [->|Hv].
    + destruct (IH [] ltac:(constructor) Hp) as [cls [H1 [H2 [H3 H4]]]].
      exists (lits :: cls). cbn [map List.concat List.length Z.of_nat].
      split; [now constructor|]. split.
      { cbn [app] in H2. rewrite <- H2, <- app_assoc. reflexivity. }
      split; [now rewrite H3|]. rewrite H4. lia.
    + assert (Forall (fun lit => lit <> 0) (lits ++ [v])) as Hl'.
      { apply Forall_app. split; [assumption|]. now constructor. }
      destruct (IH _ Hl' Hp) as [cls [H1 [H2 [H3 H4]]]].
      exists cls. split; [assumption|]. split.
      { rewrite <- H2, <- app_assoc. reflexivity. }
      split; [assumption|]. lia.
Qed.

Lemma values_of_clause (l : list Z) (rest : list Z) :
  Forall (fun lit => lit <> 0) l ->
  forall lits,
    clauses_of_values (l ++ 0 :: rest) lits
    = (lits ++ l ++ [0]) :: clauses_of_values rest [] /\
    pending_values (l ++ 0 :: rest) lits = pending_values rest [] /\
    zeros (l ++ 0 :: rest) = 1 + zeros rest.
Proof.
  induction 1 as [|x l Hx _ IH]; intros lits;
    cbn [app clauses_of_values pending_values zeros].
  - cbn. repeat split.
  - destruct (Z.eqb_spec x 0); [contradiction|].
    destruct (IH (lits ++ [x])) as [E1 [E2 E3]].
    rewrite E1, E2, E3, <- app_assoc. repeat split.
Qed.

(** The clauses of the literals of clauses, each followed by its zero,
    are these clauses with their sentinels. *)
Lemma blocks_values (cls : list (list Z)) :
  Forall (Forall (fun lit => lit <> 0)) cls ->
  clauses_of_values (List.concat (map (fun l => l ++ [0]) cls)) []
  = map (fun l => l ++ [0]) cls /\
  pending_values (List.concat (map (fun l => l ++ [0]) cls)) [] = [] /\
  zeros (List.concat (map (fun l => l ++ [0]) cls))
  = Z.of_nat (List.length cls).
Proof.
  induction 1 as [|l cls Hl _ [IH1 [IH2 IH3]]].
  - repeat split.
  - cbn [map List.concat List.length]. rewrite <- app_assoc. cbn [app].
    destruct (values_of_clause l
                (List.concat (map (fun l => l ++ [0]) cls)) Hl [])
      as [E1 [E2 E3]].
    rewrite E1, E2, E3, IH1, IH2, IH3. cbn [app].
    repeat split. lia.
Qed.

(** Every file that [parse] accepts is a DIMACS file; its literals are
    those of as many clauses as its header declares, each followed by its
    zero, and [parse] returns the two numbers of the header and these
    clauses with their sentinels. *)
Lemma accepted_file (file : list ascii) (c : cnf) :
  parse file = Ok c ->
  exists bodies dv dc pad lead toks tail cls,
    file = dimacs_file bodies dv dc pad lead toks tail /\
    dimacs_file_ok bodies dv dc pad lead toks tail /\
    map token_value toks = List.concat (map (fun l => l ++ [0]) cls) /\
    Forall (Forall (fun lit => lit <> 0)) cls /\
    Z.of_nat (List.length cls) = number_value dc /\
    c = {| max_var := number_value dv; num_clauses := number_value dc;
           clauses := map (fun l => l ++ [0]) cls |}.
Proof.
  intros H.
  destruct (parse_inv file c H)
    as [bodies [dv [dc [pad [lead [toks [tail [E [Hok [Hz [Hp ->]]]]]]]]]]].
  destruct (values_blocks _ [] ltac:(constructor) Hp)
    as [cls [H1 [H2 [H3 H4]]]].
  exists bodies, dv, dc, pad, lead, toks, tail, cls.
  cbn [app] in H2. rewrite H3.
  split; [assumption|]. split; [assumption|]. split; [assumption|].
  split; [assumption|]. split; [lia|reflexivity].
Qed.

(** And every such DIMACS file is accepted. *)
Lemma dimacs_file_accepted (bodies : list (list ascii))
    (dv dc pad : list ascii) (lead : list gap) (toks : list token)
    (tail : list ascii) (cls : list (list Z)) :
  dimacs_file_ok bodies dv dc pad lead toks tail ->
  map token_value toks = List.concat (map (fun l => l ++ [0]) cls) ->
  Forall (Forall (fun lit => lit <> 0)) cls ->
  Z.of_nat (List.length cls) = number_value dc ->
  parse (dimacs_file bodies dv dc pad lead toks tail)
  = Ok {| max_var := number_value dv; num_clauses := number_value dc;
          clauses := map (fun l => l ++ [0]) cls |}.
Proof.
  intros Hok Hv Hcls Hlen.
  destruct (blocks_values cls Hcls) as [E1 [E2 E3]].
  rewrite <- E1, <- Hv.
  apply parse_dimacs_file; [assumption| |]; rewrite Hv; [lia|assumption].
Qed.

(** ** The literals that are stored *)

Lemma literals_of_sentinel (l : list Z) :
  Forall (fun lit => lit <> 0) l -> literals_of (l ++ [0]) = l.
Proof.
  induction 1 as [|x l Hx _ IH]; cbn [literals_of app].
  - reflexivity.
  - destruct (Z.eqb_spec x 0); [contradiction|]. now rewrite IH.
Qed.

Lemma literals_of_sentinels (cls : list (list Z)) :
  Forall (Forall (fun lit => lit <> 0)) cls ->
  map literals_of (map (fun l => l ++ [0]) cls) = cls.
Proof.
  intros H. rewrite map_map. rewrite <- (map_id cls) at 2.
  apply map_ext_in. intros l Hl.
  apply literals_of_sentinel. exact (proj1 (Forall_forall _ _) H l Hl).
Qed.

(** C8. The zero that ends a clause in the file is not a literal of the
    stored clause: in every CNF that [parse] returns, each clause array
    is a list of literals, none of them zero, followed by the sentinel.
    And for every DIMACS text (literals with or without sign, with or
    without leading zeros, separated by white space and comments),
    [parse] stores for each clause the values of the literals written
    before its zero, in their order: nothing is removed, reordered or
    merged.

    This holds of every file that [parse] accepts, and of no other.  A
    file is accepted exactly when it is a DIMACS file: lines of comment,
    the header, white space up to its new line, and literals, each
    followed by white space or comments, where nothing has to follow the
    last literal and the end of the file may end a last comment; the
    literals are those of as many clauses as the header declares, each
    clause followed by its zero.  What [parse] stores are these clauses:
    the literals of the file are the literals of the stored clauses, in
    their order, with a zero of the file for each sentinel. *)
Theorem parse_stores_literals :
  (forall file c, parse file = Ok c ->
     Forall (fun p => exists lits,
                 p = lits ++ [0] /\ literals_of p = lits /\
                 Forall (fun lit => lit <> 0) lits) (clauses c)) /\
  (forall dv dc lead bs,
     dv <> [] -> Forall is_digit dv -> number_value dv <= INT_MAX ->
     dc <> [] -> Forall is_digit dc ->
     number_value dc = Z.of_nat (List.length bs) ->
     number_value dc <= INT_MAX ->
     Forall gap_ok lead ->
     Forall (block_ok (number_value dv)) bs ->
     exists c,
       parse (dimacs_text dv dc lead bs) = Ok c /\
       clauses c = map (fun b => block_values b ++ [0]) bs /\
       map literals_of (clauses c) = map block_values bs) /\
  (forall file c, parse file = Ok c ->
     exists bodies dv dc pad lead toks tail cls,
       file = dimacs_file bodies dv dc pad lead toks tail /\
       dimacs_file_ok bodies dv dc pad lead toks tail /\
       map token_value toks = List.concat (map (fun l => l ++ [0]) cls) /\
       Forall (Forall (fun lit => lit <> 0)) cls /\
       Z.of_nat (List.length cls) = number_value dc /\
       max_var c = number_value dv /\
       num_clauses c = number_value dc /\
       clauses c = map (fun l => l ++ [0]) cls /\
       map literals_of (clauses c) = cls) /\
  (forall bodies dv dc pad lead toks tail cls,
     dimacs_file_ok bodies dv dc pad lead toks tail ->
     map token_value toks = List.concat (map (fun l => l ++ [0]) cls) ->
     Forall (Forall (fun lit => lit <> 0)) cls ->
     Z.of_nat (List.length cls) = number_value dc ->
     exists c,
       parse (dimacs_file bodies dv dc pad lead toks tail) = Ok c /\
       max_var c = number_value dv /\
       num_clauses c = number_value dc /\
       clauses c = map (fun l => l ++ [0]) cls /\
       map literals_of (clauses c) = cls).
Proof.
  split; [|split; [|split]].
  - intros file c H. apply parse_ok in H. destruct H as [_ _ _ H].
    apply Forall_forall. intros p Hp.
    destruct (proj1 (Forall_forall _ _) H p Hp) as [lits [-> Hlits]].
    exists lits. split; [reflexivity|]. split.
    + apply (literals_of_app _ _ Hlits).
    + apply Forall_forall. intros lit Hlit.
      apply (proj1 (Forall_forall _ _) Hlits lit Hlit).
  - intros dv dc lead bs Hdv Hv Hvmax Hdc Hc Hclen Hcmax Hlead Hbs.
    eexists. split; [now apply parse_dimacs|]. cbn [clauses].
    split; [reflexivity|].
    rewrite map_map. apply map_ext_in. intros b Hb.
    destruct (proj1 (Forall_forall _ _) Hbs b Hb) as [_ Hnz _ _].
    apply literals_of_sentinel. unfold block_values.
    rewrite Forall_map. exact Hnz.
  - intros file c H.
    destruct (accepted_file file c H)
      as [bodies [dv [dc [pad [lead [toks [tail [cls
            [E [Hok [Hv [Hcls [Hlen ->]]]]]]]]]]]]].
    exists bodies, dv, dc, pad, lead, toks, tail, cls.
    cbn [max_var num_clauses clauses].
    repeat (split; [first [assumption | reflexivity]|]).
    now apply literals_of_sentinels.
  - intros bodies dv dc pad lead toks tail cls Hok Hv Hcls Hlen.
    eexists. split; [now apply (dimacs_file_accepted _ _ _ _ _ _ _ cls)|].
    cbn [max_var num_clauses clauses].
    repeat (split; [reflexivity|]).
    now apply literals_of_sentinels.
Qed.

(** The file of three lines [c x], [p cnf 1 2 ] and [1 -1 01 0], each
    ended by a carriage return and a new line but the first, and of a last
    line [0] that the end of the file ends. *)
Lemma parse_stores_literals_witness :
  exists c,
    parse (text "c x" ++ [nl] ++ text "p cnf 1 2 " ++ [cr; nl]
           ++ text "1 -1 01 0" ++ [cr; nl] ++ text "0") = Ok c /\
    max_var c = 1 /\ num_clauses c = 2 /\
    clauses c = [[1; -1; 1; 0]; [0]] /\
    map literals_of (clauses c) = [[1; -1; 1]; []].
Proof.
  refine (proj2 (proj2 (proj2 parse_stores_literals))
            [text " x"] (text "1") (text "2") [" "%char; cr] []
            [plain_token false "1"; plain_token true "1";
             plain_token false "01";
             {| negative := false; digits := text "0";
                gaps := [Blank cr; Blank nl] |};
             {| negative := false; digits := text "0"; gaps := [] |}]
            [] [[1; -1; 1]; []] _ eq_refl _ eq_refl).
  - split.
    + repeat constructor; discriminate.
    + repeat split; try discriminate; repeat constructor;
        unfold is_digit; cbn; unfold INT_MAX; lia.
    + repeat split; try discriminate; repeat constructor;
        unfold is_digit; cbn; unfold INT_MAX; lia.
    + repeat constructor; try discriminate; reflexivity.
    + constructor.
    + repeat constructor; cbn; try discriminate;
        unfold is_digit, is_blank; cbn; try lia; try reflexivity.
    + cbn. repeat split; intros H; try discriminate; now contradiction H.
    + exact I.
  - repeat constructor; discriminate.
Defined.

(** ** The text that is written *)

Lemma string_app_assoc (a b c : string) :
  ((a ++ b) ++ c)%string = (a ++ (b ++ c))%string.
Proof. induction a as [|x a IH]; cbn; [reflexivity|now rewrite IH]. Qed.

Section Written.

Variables VERSION GITID : string.
Variable fmt_g : double -> string.

(** What [print] writes is the banner, the header with the two numbers of
    the CNF, and the line of each clause that [emit] returns. *)
Lemma print_text (o : options) (c : cnf) (m : maps) (out : list (list Z)) :
  emit o c m = Ok out ->
  print VERSION GITID fmt_g o c m
  = Ok (banner VERSION GITID fmt_g o
        ++ header_line (max_var c) (num_clauses c)
        ++ String.concat "" (map clause_line out))%string.
Proof. intros E. unfold print. now rewrite E. Qed.

Lemma scranfilize_print (o : options) (file : list ascii) (c : cnf)
    (g : rng) :
  parse file = Ok c ->
  scranfilize VERSION GITID fmt_g o file g
  = print VERSION GITID fmt_g o c (fst (scramble o c g)).
Proof.
  intros H. unfold scranfilize. rewrite H.
  now destruct (scramble o c g) as [m s].
Qed.

(** The written text, read again, when no part of the banner holds a new
    line. *)
Lemma written_text_parsed (o : options) (c : cnf) (m : maps) :
  cnf_ok c -> maps_ok c m ->
  no_nl VERSION = true -> no_nl GITID = true ->
  (forall x, no_nl (fmt_g x) = true) ->
  parse (text (banner VERSION GITID fmt_g o
               ++ header_line (max_var c) (num_clauses c)
               ++ String.concat ""
                    (map clause_line
                       (map (scrambled_clause o c m)
                          (zseq 0 (Z.to_nat (num_clauses c)))))))
  = Ok (written_cnf c
          (map (scrambled_clause o c m) (zseq 0 (Z.to_nat (num_clauses c))))).
Proof.
  intros Hc Hm HV HG Hg.
  destruct Hc as [Hmv Hnc Hlen Hcls].
  apply (print_parsed VERSION GITID fmt_g HV HG Hg o c); try assumption.
  - rewrite length_map, zseq_length. lia.
  - apply emitted_range; [now constructor | assumption].
Qed.

(** C1. For every CNF that [parse] returns and every combination of
    options, [print] writes one clause per clause of the input: the
    source clauses of the output positions are a permutation of the
    clause indices, and undoing the variable map, the flips and the
    reversal on the clause written at a position gives back the literals
    of its source clause, in their order and with their signs.  So the
    written clauses, undone, are the clauses of the input up to their
    order: no literal is added and none is lost.

    The clauses [out] of which this is said are the clauses of the text
    that the program writes: the text is the banner, the header with the
    two numbers of the input, and one line for each clause of [out], with
    its literals in decimal and its zero; and when no part of the banner
    holds a new line, [parse] reads from this text the two numbers of the
    input and the clauses [out]. *)
Theorem scrambled_is_renaming (file : list ascii) (c : cnf) (o : options)
    (g : rng) :
  parse file = Ok c ->
  let m := fst (scramble o c g) in
  let n := Z.to_nat (num_clauses c) in
  let sources := map (clause_source o c m) (zseq 0 n) in
  exists out txt,
    emit o c m = Ok out /\
    List.length out = n /\
    Permutation sources (zseq 0 n) /\
    map (map (unscramble_literal o (max_var c) m)) out
    = map (fun j => literals_of (nth (Z.to_nat j) (clauses c) [])) sources /\
    Permutation (map (map (unscramble_literal o (max_var c) m)) out)
      (map literals_of (clauses c)) /\
    print VERSION GITID fmt_g o c m = Ok txt /\
    scranfilize VERSION GITID fmt_g o file g = Ok txt /\
    txt = (banner VERSION GITID fmt_g o
           ++ header_line (max_var c) (num_clauses c)
           ++ String.concat "" (map clause_line out))%string /\
    (no_nl VERSION = true -> no_nl GITID = true ->
     (forall x, no_nl (fmt_g x) = true) ->
     parse (text txt) = Ok (written_cnf c out)).
Proof.
  intros H m n sources.
  destruct (parsed_maps file c o g H) as [Hc Hm]. fold m in Hm.
  pose proof (clause_sources_perm o c m Hc Hm) as Hs.
  fold n in Hs. fold sources in Hs.
  assert (map (map (unscramble_literal o (max_var c) m))
            (map (scrambled_clause o c m) (zseq 0 n))
          = map (fun j => literals_of (nth (Z.to_nat j) (clauses c) []))
              sources) as E.
  { unfold sources. rewrite !map_map. apply map_ext_in. intros i Hi.
    apply zseq_In in Hi. unfold scrambled_clause. rewrite map_map.
    rewrite <- (map_id (literals_of _)) at 2.
    apply map_ext_in. intros src Hsrc.
    apply unscramble_scrambled; [assumption|].
    eapply (clause_literals_ok c _ src Hc); [|exact Hsrc].
    apply nth_In.
    pose proof (clause_source_range o c m i Hm) as Hj.
    pose proof (num_clauses_length c Hc). lia. }
  pose proof (emit_spec o c m Hc Hm) as Eemit. fold n in Eemit.
  exists (map (scrambled_clause o c m) (zseq 0 n)). eexists.
  split; [exact Eemit|].
  split; [now rewrite length_map, zseq_length|].
  split; [assumption|]. split; [assumption|].
  split.
  { rewrite E. rewrite (Permutation_map _ Hs).
    assert (n = List.length (clauses c)) as ->
      by (pose proof (num_clauses_length c Hc); lia).
    rewrite <- (map_map (fun j => nth (Z.to_nat j) (clauses c) [])
                  literals_of).
    now rewrite map_nth_zseq. }
  split; [apply (print_text o c m _ Eemit)|].
  split; [rewrite (scranfilize_print o file c g H);
          apply (print_text o c m _ Eemit)|].
  split; [reflexivity|].
  intros HV HG Hg. now apply written_text_parsed.
Qed.

(** C3. For every file that [parse] accepts and every seed: without
    [-p], [-P], [-r], [-R], with a flip probability of zero and windows
    of width zero (relative or absolute), the three maps are the
    identity, and [print] writes the clauses of the input, in their
    order, each with its literals in their order, under the header of
    the input.  In particular [rank], in the mode of the window and with
    the width zero, returns the identity permutation for every [n]: the
    key of the entry [i] is [i] and [cmp_rank] keeps the order of the
    indices.

    The text that is written is the banner, the line [p cnf] with the
    number of variables and the number of clauses of the input in
    decimal, and for each clause of the input, in their order, the line
    of its literals in decimal and its zero; and when no part of the
    banner holds a new line, [parse] reads from this text the CNF that it
    read from the input. *)
Theorem plain_scramble_is_identity (file : list ascii) (c : cnf)
    (o : options) (g : rng) :
  parse file = Ok c ->
  permute_variables o = false -> permute_clauses o = false ->
  reverse_variables o = false -> reverse_clauses o = false ->
  SFeqb (literal_flip_probability o) d0 = true ->
  SFeqb (variable_move_window o) d0 = true ->
  SFeqb (clause_move_window o) d0 = true ->
  let m := fst (scramble o c g) in
  variable_map m = zseq 0 (Z.to_nat (max_var c)) /\
  clause_map m = zseq 0 (Z.to_nat (num_clauses c)) /\
  flipped m = repeat false (Z.to_nat (max_var c)) /\
  emit o c m = Ok (map literals_of (clauses c)) /\
  print VERSION GITID fmt_g o c m
  = Ok (banner VERSION GITID fmt_g o ++ print_header_text c
        ++ String.concat ""
             (map print_clause_text (map literals_of (clauses c))))%string /\
  (forall n w g', 0 <= n <= INT_MAX -> SFeqb w d0 = true ->
     fst (rank o n false w g') = zseq 0 (Z.to_nat n)) /\
  (exists txt,
     print VERSION GITID fmt_g o c m = Ok txt /\
     scranfilize VERSION GITID fmt_g o file g = Ok txt /\
     txt = (banner VERSION GITID fmt_g o
            ++ "p cnf " ++ fmt_d (max_var c) ++ " "
            ++ fmt_d (num_clauses c) ++ newline
            ++ String.concat ""
                 (map (fun p => clause_line (literals_of p)) (clauses c)))
           %string /\
     (no_nl VERSION = true -> no_nl GITID = true ->
      (forall x, no_nl (fmt_g x) = true) ->
      parse (text txt) = Ok c)).
Proof.
  intros H Hpv Hpc Hrv Hrc Hf Hv Hc m.
  destruct (parsed_maps file c o g H) as [Hok Hm]. fold m in Hm.
  pose proof (max_var_range c Hok) as Hmv.
  pose proof (num_clauses_range c Hok) as Hnc.
  pose proof (num_clauses_length c Hok) as Hlen.
  assert (variable_map m = zseq 0 (Z.to_nat (max_var c))) as Evm.
  { unfold m. rewrite scramble_maps. cbn [variable_map]. rewrite Hpv.
    now apply rank_window_zero. }
  assert (clause_map m = zseq 0 (Z.to_nat (num_clauses c))) as Ecm.
  { unfold m. rewrite scramble_maps. cbn [clause_map]. rewrite Hpc.
    now apply rank_window_zero. }
  assert (flipped m = repeat false (Z.to_nat (max_var c))) as Efl.
  { unfold m. rewrite scramble_maps. cbn [flipped]. unfold flip.
    destruct (is_zero _ Hf) as [s ->]. reflexivity. }
  pose proof (plain_emit c o g Hok Hpv Hpc Hrv Hrc Hf Hv Hc) as Eemit.
  fold m in Eemit.
  pose proof (emit_spec o c m Hok Hm) as Espec.
  split; [assumption|]. split; [assumption|]. split; [assumption|].
  split; [assumption|].
  split; [unfold print; now rewrite Eemit|].
  split; [intros n w g' Hn Hw; now apply rank_window_zero|].
  eexists.
  split; [apply (print_text o c m _ Eemit)|].
  split; [rewrite (scranfilize_print o file c g H);
          apply (print_text o c m _ Eemit)|].
  split.
  { unfold header_line. rewrite map_map.
    rewrite !string_app_assoc. reflexivity. }
  intros HV HG Hg.
  assert (Eout : map (scrambled_clause o c m)
                   (zseq 0 (Z.to_nat (num_clauses c)))
                 = map literals_of (clauses c)) by congruence.
  pose proof (written_text_parsed o c m Hok Hm HV HG Hg) as P.
  rewrite Eout in P. rewrite P. f_equal. now apply written_cnf_same.
Qed.

End Written.

Lemma scrambled_is_renaming_witness :
  exists out txt,
    emit busy_options sample_cnf (fst (scramble busy_options sample_cnf 0))
    = Ok out /\
    Permutation
      (map (map (unscramble_literal busy_options 4
                   (fst (scramble busy_options sample_cnf 0)))) out)
      [[1; -2; 3]; []; [-4; 4; 1]] /\
    scranfilize "1.0" "0" (fun _ => "0"%string) busy_options sample_file 0
    = Ok txt /\
    parse (text txt) = Ok (written_cnf sample_cnf out).
Proof.
  destruct (scrambled_is_renaming "1.0" "0" (fun _ => "0"%string)
              sample_file sample_cnf busy_options 0 sample_parsed)
    as [out [txt [H1 [_ [_ [_ [H2 [_ [H3 [_ H4]]]]]]]]]].
  exists out, txt. split; [assumption|]. split; [assumption|].
  split; [assumption|]. apply H4; reflexivity.
Defined.

Lemma plain_scramble_is_identity_witness :
  emit plain_options sample_cnf (fst (scramble plain_options sample_cnf 0))
  = Ok [[1; -2; 3]; []; [-4; 4; 1]] /\
  exists txt,
    scranfilize "1.0" "0" (fun _ => "0"%string) plain_options sample_file 0
    = Ok txt /\
    parse (text txt) = Ok sample_cnf.
Proof.
  destruct (plain_scramble_is_identity "1.0" "0" (fun _ => "0"%string)
              sample_file sample_cnf plain_options 0
              sample_parsed eq_refl eq_refl eq_refl eq_refl eq_refl eq_refl
              eq_refl) as [_ [_ [_ [H1 [_ [_ [txt [_ [H2 [_ H3]]]]]]]]]].
  split; [exact H1|]. exists txt. split; [assumption|].
  apply H3; reflexivity.
Defined.

(** ** The clause without literals *)

Section EmptyClause.

Variables VERSION GITID : string.
Variable fmt_g : double -> string.

(** C10. A clause without literals goes through the program.  [parse]
    stores a clause that is written as a zero alone as a clause array
    with its sentinel only; under every combination of options [print]
    writes as many clauses as the CNF has, the clause written at a
    position has no literal exactly when its source clause has none, and
    the source clauses are a permutation of the clauses; the text of a
    clause without literals is the line ["0"]; and the file that holds
    only the empty clause is written back as it is, after the banner.

    This holds of every file that [parse] accepts: such a file is a
    DIMACS file whose literals are those of its clauses, each followed by
    its zero, and where a clause of the file is a zero alone the clause
    array that is stored at its position is the sentinel alone; and every
    DIMACS file with such clauses is accepted.  And it holds of the text
    that is written: the text is the banner, the header and one line for
    each clause that [emit] returns, in their order; the line at a
    position whose source clause has no literal is ["0"] and a new line;
    and when no part of the banner holds a new line, [parse] reads from
    this text a CNF with the sentinel alone at this position. *)
Theorem empty_clause_preserved :
  (forall dv dc lead bs k b,
     dv <> [] -> Forall is_digit dv -> number_value dv <= INT_MAX ->
     dc <> [] -> Forall is_digit dc ->
     number_value dc = Z.of_nat (List.length bs) ->
     number_value dc <= INT_MAX ->
     Forall gap_ok lead ->
     Forall (block_ok (number_value dv)) bs ->
     nth_error bs k = Some b -> block_literals b = [] ->
     exists c,
       parse (dimacs_text dv dc lead bs) = Ok c /\
       nth_error (clauses c) k = Some [0]) /\
  (forall file c o g,
     parse file = Ok c ->
     let m := fst (scramble o c g) in
     let n := Z.to_nat (num_clauses c) in
     exists out,
       emit o c m = Ok out /\
       List.length out = List.length (clauses c) /\
       Permutation (map (clause_source o c m) (zseq 0 n)) (zseq 0 n) /\
       forall i, 0 <= i < num_clauses c ->
         exists p ds,
           nth_error (clauses c) (Z.to_nat (clause_source o c m i)) = Some p /\
           nth_error out (Z.to_nat i) = Some ds /\
           (literals_of p = [] <-> ds = [])) /\
  print_clause_text [] = String "0" (String nl "") /\
  (forall o g,
     scranfilize VERSION GITID fmt_g o (line "p cnf 0 1" ++ line "0") g
     = Ok (banner VERSION GITID fmt_g o
           ++ "p cnf 0 1" ++ newline ++ "0" ++ newline)%string) /\
  (forall file c, parse file = Ok c ->
     exists bodies dv dc pad lead toks tail cls,
       file = dimacs_file bodies dv dc pad lead toks tail /\
       dimacs_file_ok bodies dv dc pad lead toks tail /\
       map token_value toks = List.concat (map (fun l => l ++ [0]) cls) /\
       Forall (Forall (fun lit => lit <> 0)) cls /\
       Z.of_nat (List.length cls) = number_value dc /\
       List.length (clauses c) = List.length cls /\
       forall k, nth_error cls k = Some [] <->
                 nth_error (clauses c) k = Some [0]) /\
  (forall bodies dv dc pad lead toks tail cls,
     dimacs_file_ok bodies dv dc pad lead toks tail ->
     map token_value toks = List.concat (map (fun l => l ++ [0]) cls) ->
     Forall (Forall (fun lit => lit <> 0)) cls ->
     Z.of_nat (List.length cls) = number_value dc ->
     exists c,
       parse (dimacs_file bodies dv dc pad lead toks tail) = Ok c /\
       forall k, nth_error cls k = Some [] ->
                 nth_error (clauses c) k = Some [0]) /\
  (forall file c o g,
     parse file = Ok c ->
     let m := fst (scramble o c g) in
     exists out txt,
       emit o c m = Ok out /\
       print VERSION GITID fmt_g o c m = Ok txt /\
       scranfilize VERSION GITID fmt_g o file g = Ok txt /\
       txt = (banner VERSION GITID fmt_g o
              ++ header_line (max_var c) (num_clauses c)
              ++ String.concat "" (map clause_line out))%string /\
       List.length (map clause_line out) = List.length (clauses c) /\
       (forall i, 0 <= i < num_clauses c ->
          literals_of (nth (Z.to_nat (clause_source o c m i)) (clauses c) [])
          = [] ->
          nth_error out (Z.to_nat i) = Some [] /\
          nth_error (map clause_line out) (Z.to_nat i)
          = Some (String "0" (String nl ""))) /\
       (no_nl VERSION = true -> no_nl GITID = true ->
        (forall x, no_nl (fmt_g x) = true) ->
        exists c',
          parse (text txt) = Ok c' /\
          max_var c' = max_var c /\ num_clauses c' = num_clauses c /\
          forall i, 0 <= i < num_clauses c ->
            literals_of
              (nth (Z.to_nat (clause_source o c m i)) (clauses c) []) = [] ->
            nth_error (clauses c') (Z.to_nat i) = Some [0])).
Proof.
  split; [|split; [|split; [|split; [|split; [|split]]]]].
  - intros dv dc lead bs k b Hdv Hv Hvmax Hdc Hc Hclen Hcmax Hlead Hbs Hk Hb.
    eexists. split; [now apply parse_dimacs|]. cbn [clauses].
    rewrite nth_error_map, Hk. cbn [option_map]. unfold block_values.
    now rewrite Hb.
  - intros file c o g H m n.
    destruct (parsed_maps file c o g H) as [Hc Hm]. fold m in Hm.
    pose proof (num_clauses_length c Hc) as Hlen.
    eexists. split; [apply (emit_spec o c m Hc Hm)|]. fold n.
    split; [rewrite length_map, zseq_length; unfold n; lia|].
    split; [now apply clause_sources_perm|].
    intros i Hi.
    pose proof (clause_source_range o c m i Hm Hi) as Hj.
    exists (nth (Z.to_nat (clause_source o c m i)) (clauses c) []),
      (scrambled_clause o c m i).
    split; [apply nth_error_nth'; lia|].
    split; [now apply emit_nth|].
    unfold scrambled_clause. split.
    + intros ->. reflexivity.
    + apply map_eq_nil.
  - reflexivity.
  - intros o g. unfold scranfilize.
    change (parse (line "p cnf 0 1" ++ line "0"))
      with (@Ok error cnf {| max_var := 0; num_clauses := 1;
                             clauses := [[0]] |}).
    set (c := {| max_var := 0; num_clauses := 1; clauses := [[0]] |}).
    assert (parse (line "p cnf 0 1" ++ line "0") = Ok c) as H
      by reflexivity.
    destruct (parsed_maps _ c o g H) as [Hc Hm].
    pose proof (emit_spec o c _ Hc Hm) as E.
    pose proof (clause_source_range o c _ 0 Hm ltac:(cbn; lia)) as Hj.
    destruct (scramble o c g) as [m s]. cbn [fst] in *.
    assert (map (scrambled_clause o c m)
              (zseq 0 (Z.to_nat (num_clauses c))) = [[]]) as E'.
    { change (zseq 0 (Z.to_nat (num_clauses c))) with [0]. cbn [map].
      unfold scrambled_clause.
      replace (clause_source o c m 0) with 0 by (cbn in Hj; lia).
      reflexivity. }
    unfold print. rewrite E, E'. reflexivity.
  - intros file c H.
    destruct (accepted_file file c H)
      as [bodies [dv [dc [pad [lead [toks [tail [cls
            [E [Hok [Hv [Hcls [Hlen ->]]]]]]]]]]]]].
    exists bodies, dv, dc, pad, lead, toks, tail, cls.
    cbn [clauses].
    repeat (split; [first [assumption | reflexivity]|]).
    split; [apply length_map|].
    intros k. rewrite nth_error_map.
    destruct (nth_error cls k) as [l|]; cbn [option_map]; [|split; discriminate].
    split.
    + intros E1. inversion E1. reflexivity.
    + intros E1. inversion E1 as [E2]. destruct l as [|x l]; [reflexivity|].
      destruct l; discriminate.
  - intros bodies dv dc pad lead toks tail cls Hok Hv Hcls Hlen.
    eexists. split; [now apply (dimacs_file_accepted _ _ _ _ _ _ _ cls)|].
    cbn [clauses]. intros k Hk. rewrite nth_error_map, Hk. reflexivity.
  - intros file c o g H m.
    destruct (parsed_maps file c o g H) as [Hc Hm]. fold m in Hm.
    pose proof (num_clauses_length c Hc) as Hlen.
    pose proof (emit_spec o c m Hc Hm) as Eemit.
    exists (map (scrambled_clause o c m) (zseq 0 (Z.to_nat (num_clauses c)))).
    eexists.
    split; [exact Eemit|].
    split; [apply (print_text VERSION GITID fmt_g o c m _ Eemit)|].
    split; [rewrite (scranfilize_print VERSION GITID fmt_g o file c g H);
            apply (print_text VERSION GITID fmt_g o c m _ Eemit)|].
    split; [reflexivity|].
    split; [rewrite !length_map, zseq_length; lia|].
    split.
    + intros i Hi He. split.
      * rewrite emit_nth by assumption. unfold scrambled_clause.
        now rewrite He.
      * rewrite nth_error_map, emit_nth by assumption.
        cbn [option_map]. unfold scrambled_clause. now rewrite He.
    + intros HV HG Hg. eexists.
      split; [now apply written_text_parsed|].
      cbn [written_cnf max_var num_clauses clauses].
      split; [reflexivity|]. split; [reflexivity|].
      intros i Hi He. rewrite nth_error_map, emit_nth by assumption.
      cbn [option_map]. unfold scrambled_clause. now rewrite He.
Qed.

End EmptyClause.

(** The file [p cnf 1 3], then [0], [1 0] and a last [0] that the end of
    the file ends: the first and the last clause have no literal. *)
Lemma empty_clause_preserved_witness :
  exists txt c',
    parse (text "p cnf 1 3" ++ [nl] ++ text "0" ++ [nl] ++ text "1 0" ++ [nl]
           ++ text "0")
    = Ok {| max_var := 1; num_clauses := 3;
            clauses := [[0]; [1; 0]; [0]] |} /\
    scranfilize "1.0" "0" (fun _ => "0"%string) busy_options
      (text "p cnf 1 3" ++ [nl] ++ text "0" ++ [nl] ++ text "1 0" ++ [nl]
       ++ text "0") 0 = Ok txt /\
    parse (text txt) = Ok c' /\
    nth_error (clauses c') 0 = Some [0] /\
    nth_error (clauses c') 2 = Some [0].
Proof.
  pose proof (empty_clause_preserved "1.0" "0" (fun _ => "0"%string))
    as [_ [_ [_ [_ [_ [_ H]]]]]].
  destruct (H (text "p cnf 1 3" ++ [nl] ++ text "0" ++ [nl] ++ text "1 0"
               ++ [nl] ++ text "0")
              {| max_var := 1; num_clauses := 3;
                 clauses := [[0]; [1; 0]; [0]] |} busy_options 0 eq_refl)
    as [out [txt [_ [_ [Hs [_ [_ [_ Hp]]]]]]]].
  destruct (Hp eq_refl eq_refl (fun _ => eq_refl)) as [c' [Hc' [_ [_ Hk]]]].
  exists txt, c'. split; [reflexivity|]. split; [exact Hs|].
  split; [exact Hc'|]. split.
  - apply (Hk 0); [cbn; lia|reflexivity].
  - apply (Hk 2); [cbn; lia|reflexivity].
Defined.

(** ** Parser: the literals that are refused *)


Section LiteralsRefused.

Variables mv spec : Z.


(** The end of a file while literals are open. *)
Lemma end_pending (tail : list ascii) (nc : Z) (cls : list (list Z))
    (lits : list Z) :
  tail_ok tail -> lits <> [] ->
  forall fuel lineno,
    ends_with "terminating zero missing"
      (clauses_from fuel mv spec tail lineno nc cls lits).
Proof.
  intros Htail Hlits fuel lineno.
  assert (Hend : forall fuel lineno,
            ends_with "terminating zero missing"
              (parse_clauses fuel mv spec EOF [] lineno nc cls lits)).
  { intros [|f] l; [now left|]. right. cbn [parse_clauses].
    change (space EOF) with false. change (EOF =? EOF) with true.
    cbv iota. destruct lits as [|x lits]; [contradiction|].
    cbn [List.length]. rewrite Nat2Z.inj_succ.
    destruct (Z.eqb_spec (Z.succ (Z.of_nat (List.length lits))) 0); [lia|].
    cbn [negb]. now exists l. }
  destruct tail as [|a body].
  - unfold clauses_from. cbn [next_char]. apply Hend.
  - destruct Htail as [-> Hbody].
    unfold clauses_from. cbn [next_char].
    destruct fuel as [|fuel]; [now left|]. cbn [parse_clauses].
    change (space (chr "c")) with false.
    change (chr "c" =? EOF) with false. rewrite Z.eqb_refl. cbv iota.
    destruct (skip_comment_end body Hbody (bump (chr "c") lineno))
      as [l' ->].
    apply Hend.
Qed.

End LiteralsRefused.




(** X8: while fewer clauses are closed than the header declares, a file
    that ends behind one or more literals that no zero has closed is
    refused with "terminating zero missing".  The file may end behind
    what follows the last literal, or right behind its digits, and the
    end of the file may end a last comment. *)
Theorem terminating_zero_missing (bodies : list (list ascii))
    (dv dc : list ascii) (lead : list gap) (bs : list block)
    (ts : list token) (tail : list ascii) :
  prefix_ok bodies dv dc lead bs ts ->
  Z.of_nat (List.length bs) < number_value dc ->
  tail_ok tail ->
  (ts <> [] ->
   exists lineno,
     parse (dimacs_prefix bodies dv dc lead bs ts ++ tail)
     = Err (parse_error lineno "terminating zero missing")) /\
  (forall neg d0 ds,
     Forall is_digit (d0 :: ds) ->
     (neg = true -> d0 <> "0"%char) ->
     number_value (d0 :: ds) <> 0 ->
     number_value (d0 :: ds) <= number_value dv ->
     exists lineno,
       parse (dimacs_prefix bodies dv dc lead bs ts
              ++ literal_text neg (d0 :: ds) ++ tail)
       = Err (parse_error lineno "terminating zero missing")).
Proof.
  intros Hp Hlen Htail. split.
  - intros Hts.
    apply refused_behind_prefix; [exact Hp|]. intros fuel lineno.
    apply end_pending; [assumption|].
    destruct ts; [contradiction|discriminate].
  - intros neg d0 ds Hds Hneg Hnz Hv.
    assert (Hmv : number_value dv <= INT_MAX)
      by (destruct Hp as [_ [_ [_ Hmax]] _ _ _ _ _ _]; exact Hmax).
    pose proof (number_value_nonneg _ Hds) as Hnn.
    apply refused_behind_prefix; [exact Hp|]. intros fuel lineno.
    destruct fuel as [|fuel]; [left; apply clauses_from_O|].
    destruct (ends_literal_sep tail lineno (tail_ends_literal tail Htail))
      as [Hnd Hsep].
    rewrite (literal_read (number_value dv) (number_value dc))
      by (try assumption; lia).
    pose proof (end_pending (number_value dv) (number_value dc) tail
                  (Z.of_nat (List.length bs))
                  (map (fun b => block_values b ++ [0]) bs)
                  (map token_value ts
                   ++ [(if neg then -1 else 1) * number_value (d0 :: ds)])
                  Htail ltac:(destruct (map token_value ts); discriminate)
                  fuel lineno) as Hend.
    unfold clauses_from in Hend.
    destruct (next_char tail lineno) as [[ch f] l]. cbn [fst] in Hsep.
    unfold after_number.
    destruct (Z.gtb_spec (number_value (d0 :: ds)) (number_value dv));
      [lia|].
    rewrite Hsep.
    destruct (Z.eqb_spec (Z.of_nat (List.length bs)) (number_value dc));
      [lia|]. cbv zeta.
    rewrite int_mul_small by (unfold INT_MAX in *; destruct neg; lia).
    destruct (Z.eqb_spec ((if neg then -1 else 1) * number_value (d0 :: ds))
                0); [destruct neg; lia|].
    cbn [negb]. exact Hend.
Qed.

Lemma terminating_zero_missing_witness :
  (exists lineno,
     parse (text ("p cnf 1 1" ++ String nl "1 "))
     = Err (parse_error lineno "terminating zero missing")) /\
  (exists lineno,
     parse (text ("p cnf 1 1" ++ String nl "1 -1"))
     = Err (parse_error lineno "terminating zero missing")).
Proof.
  destruct (terminating_zero_missing [] (text "1") (text "1") [] []
              [plain_token false "1"] []) as [H1 H2].
  - split; cbn; repeat constructor; try discriminate;
      unfold is_digit, is_blank; cbn; try lia; try reflexivity.
  - cbn. lia.
  - exact I.
  - split.
    + apply H1. discriminate.
    + apply (H2 true "1"%char []).
      * repeat constructor; unfold is_digit; cbn; lia.
      * discriminate.
      * discriminate.
      * cbn. lia.
Defined.



(** ** What the parser accepts *)

(** X18: a CNF that [parse] accepts agrees with the header of its file.
    The file is lines of comment, then [p cnf], the digits of the number
    of variables, a space, the digits of the number of clauses, and white
    space up to a new line; the number of variables and the number of
    clauses of the CNF are the values of these digits, both of them
    [int]s; there are as many clause arrays as the header declares; and
    every literal is a variable of the header or its negation. *)
Theorem accepted_cnf_agrees_with_header (file : list ascii) (c : cnf) :
  parse file = Ok c ->
  0 <= max_var c <= INT_MAX /\
  0 <= num_clauses c <= INT_MAX /\
  Z.of_nat (List.length (clauses c)) = num_clauses c /\
  (forall p lit, In p (clauses c) -> In lit (literals_of p) ->
     1 <= Z.abs lit <= max_var c) /\
  exists bodies dv dc pad body,
    file = comment_lines bodies ++ text "p cnf " ++ dv ++ [" "%char] ++ dc
           ++ pad ++ [nl] ++ body /\
    Forall (Forall (fun a => a <> nl)) bodies /\
    dv <> [] /\ Forall is_digit dv /\
    dc <> [] /\ Forall is_digit dc /\
    Forall (fun a => is_blank a /\ a <> nl) pad /\
    max_var c = number_value dv /\
    num_clauses c = number_value dc /\
    Z.of_nat (List.length (clauses c)) = number_value dc /\
    forall p lit, In p (clauses c) -> In lit (literals_of p) ->
      1 <= Z.abs lit <= number_value dv.
Proof.
  intros H. pose proof (parse_ok file c H) as Hok.
  assert (Hlits : forall p lit, In p (clauses c) -> In lit (literals_of p) ->
                    1 <= Z.abs lit <= max_var c).
  { intros p lit Hp Hlit.
    destruct (clause_literals_ok c p lit Hok Hp Hlit) as [Hnz Hr]. lia. }
  split; [apply (max_var_range c Hok)|].
  split; [apply (num_clauses_range c Hok)|].
  split; [apply (num_clauses_length c Hok)|].
  split; [exact Hlits|].
  destruct (accepted_file file c H)
    as [bodies [dv [dc [pad [lead [toks [tail [cls
          [E [Hfile [Hv [Hcls [Hlen Ec]]]]]]]]]]]]].
  destruct Hfile as [Hb [Hdv1 [Hdv2 _]] [Hdc1 [Hdc2 _]] Hpad _ _ _ _].
  exists bodies, dv, dc, pad, (gaps_text lead ++ tokens_text toks ++ tail).
  split; [exact E|].
  repeat (split; [assumption|]).
  subst c. cbn [max_var num_clauses clauses] in *.
  split; [reflexivity|]. split; [reflexivity|].
  split; [rewrite length_map; exact Hlen|exact Hlits].
Qed.

Lemma accepted_cnf_agrees_with_header_witness :
  exists bodies dv dc pad body,
    sample_file = comment_lines bodies ++ text "p cnf " ++ dv ++ [" "%char]
                  ++ dc ++ pad ++ [nl] ++ body /\
    max_var sample_cnf = number_value dv /\
    num_clauses sample_cnf = number_value dc /\
    Z.of_nat (List.length (clauses sample_cnf)) = number_value dc.
Proof.
  destruct (accepted_cnf_agrees_with_header sample_file sample_cnf
              sample_parsed)
    as [_ [_ [_ [_ [bodies [dv [dc [pad [body
          [E [_ [_ [_ [_ [_ [_ [H1 [H2 [H3 _]]]]]]]]]]]]]]]]]]].
  exists bodies, dv, dc, pad, body. auto.
Defined.
